(** * edward: configuration resolution, instance lifecycle and restart order

    A shallow embedding of the parts of the edward service manager that
    resolve a configuration into service and group maps ([initMaps]),
    start and stop a service instance ([StartAsync], [Stop]), list the
    running services ([LoadRunningServices]) and restart every running
    service ([restartAll]), with the properties proved of them; and of
    what lies around these: the making and editing of a configuration
    ([NewConfig], [AddGroups], [AppendServices], [RemoveGroup]), its
    loading from files with their imports ([LoadConfig]), the building
    and launching of a service ([Build], [Launch]), the restart of named
    services ([Restart]) and the follower of the tasks ([Handle]).

    Go maps are [gmap]s and [gset]s, slices are lists, a pointer to a
    service or to a group is the key under which the object is stored
    (the code stores exactly one object per key), and an [error] is a
    value with a message. *)

From Stdlib Require Import ZArith Ascii.
From stdpp Require Import base option list gmap sets strings sorting relations pretty.

Set Default Proof Using "Type".
#[local] Set Warnings "-clear-no-such-hyp".

(** ** Strings: Go's [sort.Strings] and [strings.Join] *)

(** Go compares strings byte by byte; so does [String.leb]. *)
Definition string_le (a b : string) : Prop := String.leb a b = true.

#[global] Instance string_le_dec : RelDecision string_le.
Proof. intros a b. unfold string_le. apply _. Defined.

(** [sort.Strings]: the ascending arrangement of the slice. *)
Definition sortStrings (l : list string) : list string := merge_sort string_le l.

(** [strings.Join]. *)
Definition Join (elems : list string) (sep : string) : string := String.concat sep elems.

(** [strings.HasPrefix]. *)
Definition HasPrefix (s p : string) : bool := String.prefix p s.

Module Config.

(** *** Data *)

(** A pointer into [svcs] or into [groups]: the key of the object. *)
Abbreviation ptr := string (only parsing).

(** [services.ServiceConfig], with the fields resolution reads or writes.
    [MatchesPlatform] is a method whose body lies outside these sources;
    the record carries its value on the running host.  It does not depend
    on [Env] nor on [ConfigFile], the only fields resolution changes before
    calling it. *)
Record ServiceConfig := mkServiceConfig {
  sc_Name : string;
  sc_Aliases : list string;
  sc_Description : string;
  sc_Path : option string;
  sc_Env : list string;
  sc_ConfigFile : string;
  sc_MatchesPlatform : bool
}.

(** [GroupDef]: a group with its children given by name. *)
Record GroupDef := mkGroupDef {
  gd_Name : string;
  gd_Aliases : list string;
  gd_Description : string;
  gd_Children : list string;
  gd_Env : list string
}.

(** [services.ServiceGroupConfig]: children are pointers. *)
Record ServiceGroupConfig := mkServiceGroupConfig {
  sg_Name : string;
  sg_Aliases : list string;
  sg_Description : string;
  sg_Services : list ptr;
  sg_Groups : list ptr;
  sg_Env : list string;
  sg_ChildOrder : list string
}.

Record Config := mkConfig {
  workingDir : string;
  ImportedGroups : list GroupDef;
  ImportedServices : list ServiceConfig;
  Env : list string;
  Groups : list GroupDef;
  Services : list ServiceConfig;
  ServiceMap : gmap string ServiceConfig;
  GroupMap : gmap string ServiceGroupConfig;
  FilePath : string
}.

(** What [initMaps] takes from the host: the [path/filepath] functions, and
    the order in which a [range] over a map of names yields its keys. *)
Record Host := mkHost {
  Abs : string → string + string;
  IsAbs : string → bool;
  PathJoin : string → string → string;
  rangeKeys : gset string → list string
}.

(** Go leaves the order of a [range] over a map open, but every key comes
    exactly once. *)
Definition range_ok (h : Host) : Prop := ∀ m, rangeKeys h m ≡ₚ elements m.

(** *** Errors *)

Inductive error :=
| ErrAbs (msg : string)
| ErrDuplicate (ids : list string)
| ErrCycle (group : string)
| ErrOrphans (keys : list string).

(** The message of each error, as [initMaps] builds it. *)
Definition Error (e : error) : string :=
  match e with
  | ErrAbs msg => msg
  | ErrDuplicate i => "Duplicate name or alias: " +:+ Join i ", "
  | ErrCycle g => "group cycle: " +:+ g
  | ErrOrphans keys =>
      "A service or group could not be found for the following names: " +:+
      Join keys ", "
  end.

Inductive result (A : Type) :=
| Ok (a : A)
| Err (e : error).
Arguments Ok {A} a.
Arguments Err {A} e.

(** *** Operations *)

Definition combinePath (h : Host) (c : Config) (path : string) : string :=
  if IsAbs h path || HasPrefix path "$" then path
  else PathJoin h (workingDir c) path.

Definition addToMap (m : gset string) (values : list string) : gset string :=
  foldl (λ m v, {[v]} ∪ m) m values.

Definition intersect (m : gset string) (values : list string) : list string :=
  sortStrings (filter (λ v, v ∈ m) values).

(** The state of the loop over services: [svcs], [servicesSkipped] and
    [namesInUse]. *)
Record svcState := mkSvcState {
  svcs : gmap string ServiceConfig;
  servicesSkipped : gset string;
  namesInUse : gset string
}.

(** The service as the loop stores it: the shared environment appended, the
    configuration file made absolute. *)
Definition mergeService (c : Config) (file : string) (s : ServiceConfig) : ServiceConfig :=
  mkServiceConfig (sc_Name s) (sc_Aliases s) (sc_Description s) (sc_Path s)
    (sc_Env s ++ Env c) file (sc_MatchesPlatform s).

(** A [for ... range] loop whose body may return an error. *)
Fixpoint forEach {A S : Type} (body : S → A → result S) (l : list A) (st : S) : result S :=
  match l with
  | [] => Ok st
  | x :: rest =>
      match body st x with
      | Ok st' => forEach body rest st'
      | Err e => Err e
      end
  end.

(** The body of the loop over services. *)
Definition serviceStep (h : Host) (c : Config) (st : svcState) (s : ServiceConfig)
    : result svcState :=
  match Abs h (FilePath c) with
  | inr e => Err (ErrAbs e)
  | inl file =>
      let sc := mergeService c file s in
      if sc_MatchesPlatform sc then
        match intersect (namesInUse st) (sc_Aliases sc ++ [sc_Name sc]) with
        | [] =>
            Ok (mkSvcState (<[sc_Name sc := sc]> (svcs st)) (servicesSkipped st)
                  (addToMap (namesInUse st) (sc_Aliases sc ++ [sc_Name sc])))
        | i => Err (ErrDuplicate i)
        end
      else
        Ok (mkSvcState (svcs st) ({[sc_Name sc]} ∪ servicesSkipped st) (namesInUse st))
  end.

Definition servicesLoop (h : Host) (c : Config) (ss : list ServiceConfig)
    (st : svcState) : result svcState :=
  forEach (serviceStep h c) ss st.

(** The state of the passes over groups. *)
Record grpState := mkGrpState {
  g_svcs : gmap string ServiceConfig;
  groups : gmap string ServiceGroupConfig;
  orphanNames : gset string;
  g_namesInUse : gset string
}.

Definition setPath (p : string) (s : ServiceConfig) : ServiceConfig :=
  mkServiceConfig (sc_Name s) (sc_Aliases s) (sc_Description s) (Some p)
    (sc_Env s) (sc_ConfigFile s) (sc_MatchesPlatform s).

(** First pass, the loop over the children of one group: returns the
    services (their paths combined in place), the child services and the
    orphans. *)
Fixpoint firstPassChildren (h : Host) (c : Config) (skipped : gset string)
    (names : list string) (sv : gmap string ServiceConfig)
    (childServices : list ptr) (orphans : gset string)
    : gmap string ServiceConfig * list ptr * gset string :=
  match names with
  | [] => (sv, childServices, orphans)
  | name :: rest =>
      match sv !! name with
      | Some s =>
          let sv' :=
            match sc_Path s with
            | Some p => <[name := setPath (combinePath h c p) s]> sv
            | None => sv
            end in
          firstPassChildren h c skipped rest sv' (childServices ++ [name]) orphans
      | None =>
          if decide (name ∈ skipped)
          then firstPassChildren h c skipped rest sv childServices orphans
          else firstPassChildren h c skipped rest sv childServices ({[name]} ∪ orphans)
      end
  end.

(** The body of the first pass over groups. *)
Definition firstPassGroup (h : Host) (c : Config) (skipped : gset string)
    (st : grpState) (g : GroupDef) : result grpState :=
  let '(sv, childServices, orphans) :=
    firstPassChildren h c skipped (gd_Children g) (g_svcs st) [] (orphanNames st) in
  match intersect (g_namesInUse st) (gd_Aliases g ++ [gd_Name g]) with
  | [] =>
      Ok (mkGrpState sv
            (<[gd_Name g :=
                 mkServiceGroupConfig (gd_Name g) (gd_Aliases g) (gd_Description g)
                   childServices [] (gd_Env g) (gd_Children g)]> (groups st))
            orphans
            (addToMap (g_namesInUse st) (gd_Aliases g ++ [gd_Name g])))
  | i => Err (ErrDuplicate i)
  end.

Definition firstPass (h : Host) (c : Config) (skipped : gset string)
    (gs : list GroupDef) (st : grpState) : result grpState :=
  forEach (firstPassGroup h c skipped) gs st.

(** [hasChildCycle] follows the [Groups] pointers of the groups built so
    far.  The recursion is on the depth of the walk; [None] is a walk that
    needed more than [fuel] levels (or met a dangling pointer, which
    [initMaps] never builds). *)
Fixpoint hasChildCycle (fuel : nat) (gm : gmap string ServiceGroupConfig)
    (parent : ptr) (children : list ptr) : option bool :=
  match fuel with
  | 0 => None
  | S fuel' =>
      (fix loop (cs : list ptr) : option bool :=
         match cs with
         | [] => Some false
         | sg :: rest =>
             if decide (parent = sg) then Some true
             else
               match gm !! sg with
               | None => None
               | Some g =>
                   match hasChildCycle fuel' gm parent (sg_Groups g) with
                   | None => None
                   | Some true => Some true
                   | Some false => loop rest
                   end
               end
         end) children
  end.

Definition setGroups (cg : list ptr) (g : ServiceGroupConfig) : ServiceGroupConfig :=
  mkServiceGroupConfig (sg_Name g) (sg_Aliases g) (sg_Description g)
    (sg_Services g) cg (sg_Env g) (sg_ChildOrder g).

(** Second pass, the loop over the children of group [gname]. *)
Fixpoint secondPassChildren (fuel : nat) (gm : gmap string ServiceGroupConfig)
    (gname : string) (names : list string) (childGroups : list ptr)
    (orphans : gset string) : option (result (list ptr * gset string)) :=
  match names with
  | [] => Some (Ok (childGroups, orphans))
  | name :: rest =>
      let '(childGroups', orphans') :=
        match gm !! name with
        | Some _ => (childGroups ++ [name], orphans ∖ {[name]})
        | None => (childGroups, orphans)
        end in
      match hasChildCycle fuel gm gname childGroups' with
      | None => None
      | Some true => Some (Err (ErrCycle gname))
      | Some false => secondPassChildren fuel gm gname rest childGroups' orphans'
      end
  end.

Fixpoint secondPass (fuel : nat) (gs : list GroupDef)
    (gm : gmap string ServiceGroupConfig) (orphans : gset string)
    : option (result (gmap string ServiceGroupConfig * gset string)) :=
  match gs with
  | [] => Some (Ok (gm, orphans))
  | g :: rest =>
      match secondPassChildren fuel gm (gd_Name g) (gd_Children g) [] orphans with
      | None => None
      | Some (Err e) => Some (Err e)
      | Some (Ok (childGroups, orphans')) =>
          secondPass fuel rest (alter (setGroups childGroups) (gd_Name g) gm) orphans'
      end
  end.

Definition setMaps (sm : gmap string ServiceConfig)
    (gm : gmap string ServiceGroupConfig) (c : Config) : Config :=
  mkConfig (workingDir c) (ImportedGroups c) (ImportedServices c) (Env c)
    (Groups c) (Services c) sm gm (FilePath c).

Definition allServices (c : Config) : list ServiceConfig := Services c ++ ImportedServices c.
Definition allGroups (c : Config) : list GroupDef := Groups c ++ ImportedGroups c.

(** [initMaps] with the depth allowed to [hasChildCycle] given: the
    configuration after the call and the error returned. *)
Definition initMapsWith (fuel : nat) (h : Host) (c : Config) : option (Config * option error) :=
  match servicesLoop h c (allServices c) (mkSvcState ∅ ∅ ∅) with
  | Err e => Some (c, Some e)
  | Ok st1 =>
      match firstPass h c (servicesSkipped st1) (allGroups c)
              (mkGrpState (svcs st1) ∅ ∅ (namesInUse st1)) with
      | Err e => Some (c, Some e)
      | Ok st2 =>
          match secondPass fuel (allGroups c) (groups st2) (orphanNames st2) with
          | None => None
          | Some (Err e) => Some (c, Some e)
          | Some (Ok (gm, orphans)) =>
              if decide (0 < size orphans)%nat
              then Some (c, Some (ErrOrphans (rangeKeys h orphans)))
              else Some (setMaps (g_svcs st2) gm c, None)
          end
      end
  end.

(** [initMaps]: a walk over acyclic groups is never deeper than there are
    groups (see [initMaps_returns]). *)
Definition initMaps (h : Host) (c : Config) : option (Config * option error) :=
  initMapsWith (S (length (allGroups c))) h c.

(** *** The vocabulary of the properties *)

(** The identifiers a definition brings: its aliases and its name. *)
Definition serviceIds (s : ServiceConfig) : list string := sc_Aliases s ++ [sc_Name s].
Definition groupIds (g : GroupDef) : list string := gd_Aliases g ++ [gd_Name g].

(** The services kept on this platform, and those skipped. *)
Definition matching (ss : list ServiceConfig) : list ServiceConfig :=
  filter (λ s, sc_MatchesPlatform s = true) ss.
Definition skippedServices (ss : list ServiceConfig) : list ServiceConfig :=
  filter (λ s, sc_MatchesPlatform s ≠ true) ss.

(** The identifiers of every definition of the configuration, imports
    included, in the order resolution meets them. *)
Definition declaredIds (c : Config) : list (list string) :=
  (serviceIds <$> allServices c) ++ (groupIds <$> allGroups c).

(** The same, of the definitions resolution keeps. *)
Definition claimedIds (c : Config) : list (list string) :=
  (serviceIds <$> matching (allServices c)) ++ (groupIds <$> allGroups c).

(** An identifier collides when a definition brings it and an earlier
    definition has brought it already. *)
Definition colliding (defs : list (list string)) (x : string) : Prop :=
  ∃ pre d post, defs = pre ++ d :: post ∧ x ∈ d ∧ x ∈ concat pre.

(** The first definition one of whose identifiers is in use already, and
    those of its identifiers that are, in the order it lists them. *)
Fixpoint firstCollision (inUse : gset string) (defs : list (list string))
    : option (list string) :=
  match defs with
  | [] => None
  | ids :: rest =>
      match filter (λ v, v ∈ inUse) ids with
      | [] => firstCollision (inUse ∪ list_to_set ids) rest
      | hit => Some hit
      end
  end.

Definition groupNames (gs : list GroupDef) : list string := gd_Name <$> gs.
Definition serviceNames (ss : list ServiceConfig) : list string := sc_Name <$> ss.

(** Group [a] has the group [b] among its children. *)
Definition contains (gs : list GroupDef) (a b : string) : Prop :=
  ∃ g, g ∈ gs ∧ gd_Name g = a ∧ b ∈ gd_Children g ∧ b ∈ groupNames gs.

(** Group [a] contains itself, directly or through a chain of children. *)
Definition containsItself (gs : list GroupDef) (a : string) : Prop :=
  tc (contains gs) a a.

(** A child name that is no service of the configuration, kept or skipped,
    and no group. *)
Definition orphan (c : Config) (n : string) : Prop :=
  (∃ g, g ∈ allGroups c ∧ n ∈ gd_Children g) ∧
  (n ∉ serviceNames (allServices c)) ∧
  (n ∉ groupNames (allGroups c)).

(** [filepath.Abs] is called once per service: the path [file] it gives,
    whenever it is called at all. *)
Definition absOk (h : Host) (c : Config) (file : string) : Prop :=
  allServices c ≠ [] → Abs h (FilePath c) = inl file.

(** The key of an environment entry [KEY=value]. *)
Fixpoint envKey (e : string) : string :=
  match e with
  | EmptyString => EmptyString
  | String a rest => if Ascii.eqb a "="%char then EmptyString else String a (envKey rest)
  end.

(** A service is stored as declared, up to the fields resolution sets. *)
Definition resolvedFrom (c : Config) (s s' : ServiceConfig) : Prop :=
  sc_Name s' = sc_Name s ∧ sc_Aliases s' = sc_Aliases s ∧
  sc_Description s' = sc_Description s ∧
  sc_Env s' = sc_Env s ++ Env c ∧
  sc_MatchesPlatform s' = sc_MatchesPlatform s.

End Config.

(** ** The instance of a service *)

Module Instance.
Export Config (ServiceConfig, sc_Name, sc_Env, mkServiceConfig).

(** *** Data *)

(** [tracker.TaskState]. *)
Inductive TaskState :=
| TaskStatePending
| TaskStateInProgress
| TaskStateSuccess
| TaskStateFailed
| TaskStateWarning.

(** A [tracker.Task], known by its lineage: [Child] goes one name down. *)
Abbreviation Task := (list string) (only parsing).
Definition Child (t : Task) (name : string) : Task := t ++ [name].

(** One call of [SetState]: the task, the state, the messages. *)
Record Update := mkUpdate {
  u_task : list string;
  u_state : TaskState;
  u_messages : list string
}.

(** [services.ContextOverride]. *)
Record ContextOverride := mkContextOverride {
  o_Env : list string
}.

(** [services.OperationConfig], as [restartOneOrMoreServices] fills it
    (the backends left out). *)
Record OperationConfig := mkOperationConfig {
  WorkingDir : string;
  EdwardExecutable : string;
  Exclusions : list string;
  SkipBuild : bool;
  NoWatch : bool;
  Tags : list string;
  LogFile : string
}.

(** [home.EdwardConfiguration]. *)
Record EdwardConfiguration := mkEdwardConfiguration {
  StateDir : string;
  LogDir : string
}.

(** [Instance].  [Service] is a pointer in the code ([StartAsync] hands it
    to the functions the builder hands a [*services.ServiceConfig]); the
    zero instance has it nil. *)
Record Instance := mkInstance {
  Service : option ServiceConfig;
  Pid : Z;
  ConfigFile : string;
  Overrides : ContextOverride;
  dirConfig : EdwardConfiguration
}.

Definition zeroService : ServiceConfig := mkServiceConfig "" [] "" None [] "" false.

(** [&Instance{}]. *)
Definition zeroInstance : Instance :=
  mkInstance None 0 "" (mkContextOverride []) (mkEdwardConfiguration "" "").

(** [exec.Cmd]: what to run, and its environment. *)
Record Cmd := mkCmd {
  cmd_Args : list string;
  cmd_Env : list string
}.

(** [os.FileInfo], as far as it is read. *)
Record FileInfo := mkFileInfo {
  fi_Name : string;
  fi_IsDir : bool
}.

(** How a call ends: it returns an error (or nil), or it panics. *)
Inductive ret :=
| Returns (err : option string)
| Panics.

(** The disk, the processes and the task tracker. *)
Record State (W : Type) := mkState {
  world : W;
  updates : list Update
}.
Arguments mkState {W} world updates.
Arguments world {W} s.
Arguments updates {W} s.

(** What lies outside these sources, over a world [W]: methods of the
    service and of the operation, the state files, the backend with its
    stop action (which ends when the process has exited), the operating
    system and [encoding/json].  A function that can fail gives its error
    beside the world it leaves. *)
Record Sys (W : Type) := mkSys {
  IsExcluded : OperationConfig → ServiceConfig → bool;
  HasLaunchStep : ServiceConfig → bool;
  GetName : ServiceConfig → string;
  GetRunLog : ServiceConfig → string → string;
  Load : EdwardConfiguration → ServiceConfig → ContextOverride → W → Instance + string;
  DeleteAllStatusesForService : ServiceConfig → string → W → W * option string;
  osRemove : string → W → W;
  osEnviron : W → list string;
  getLaunchCommand : Instance → OperationConfig → W → Cmd + string;
  cmdStart : Cmd → W → W * (Z + string);
  save : Instance → W → W * option string;
  WaitUntilRunning : EdwardConfiguration → Cmd → ServiceConfig → W → W * option string;
  logToStringSlice : string → W → list string + string;
  warmupRun : ServiceConfig → Task → State W → State W;
  clearState : Instance → W → W;
  ReadDir : string → W → list FileInfo + string;
  ReadFile : string → W → string + string;
  pathJoin : string → string → string;
  Unmarshal : string → Instance → Instance * option string;
  backendStop : Instance → W → W * option string
}.
Arguments IsExcluded {W} s.
Arguments HasLaunchStep {W} s.
Arguments GetName {W} s.
Arguments GetRunLog {W} s.
Arguments Load {W} s.
Arguments DeleteAllStatusesForService {W} s.
Arguments osRemove {W} s.
Arguments osEnviron {W} s.
Arguments getLaunchCommand {W} s.
Arguments cmdStart {W} s.
Arguments save {W} s.
Arguments WaitUntilRunning {W} s.
Arguments logToStringSlice {W} s.
Arguments warmupRun {W} s.
Arguments clearState {W} s.
Arguments ReadDir {W} s.
Arguments ReadFile {W} s.
Arguments pathJoin {W} s.
Arguments Unmarshal {W} s.
Arguments backendStop {W} s.

Section operations.
Context {W : Type} (sys : Sys W).

(** *** The tracker *)

Definition SetState (t : Task) (s : TaskState) (messages : list string)
    (st : State W) : State W :=
  mkState (world st) (updates st ++ [mkUpdate t s messages]).

Definition setWorld (w : W) (st : State W) : State W := mkState w (updates st).

Definition setPid (pid : Z) (i : Instance) : Instance :=
  mkInstance (Service i) pid (ConfigFile i) (Overrides i) (dirConfig i).

(** *** [StopSync] *)

(** Modelled from the spec: the method [StopSync] of an instance, which
    [StartAsync] and [Stop] call and whose body is not among these
    sources.  The spec has it a "no-op if not running (pid 0) beyond
    clearing stale persisted state.  Otherwise invokes the backend stop
    action, waits for process exit, clears the persisted pid record, and
    reports Success/Failed accordingly"; of the instance it says that Stop
    "clears pid, deletes persisted record".  The record is cleared by
    [clearState], as [Stop] clears it for an instance that does not run;
    the state is reported to the task handed in, a failure with its error;
    the error of the stop action is the error returned. *)
Definition StopSync (cfg : OperationConfig) (overrides : ContextOverride) (task : Task)
    (i : Instance) (st : State W) : State W * Instance * ret :=
  if (Pid i =? 0)%Z then (setWorld (clearState sys i (world st)) st, i, Returns None)
  else
    let '(w, err) := backendStop sys i (world st) in
    let st := setWorld (clearState sys i w) st in
    let i := setPid 0 i in
    match err with
    | Some e => (SetState task TaskStateFailed [e] st, i, Returns (Some e))
    | None => (SetState task TaskStateSuccess [] st, i, Returns None)
    end.

(** *** [StartAsync] *)

(** The end of [StartAsync] when [WaitUntilRunning] has returned [err]:
    read the log back, report, clean up. *)
Definition startFailed (cfg : OperationConfig) (task startTask : Task)
    (service : ServiceConfig) (err : string) (i : Instance) (st : State W)
    : State W * Instance * ret :=
  let st :=
    match logToStringSlice sys (GetRunLog sys service (LogDir (dirConfig i))) (world st) with
    | inr readingErr =>
        SetState startTask TaskStateFailed
          ["Could not read log"; readingErr; "Original error: " +:+ err] st
    | inl log => SetState startTask TaskStateFailed (log ++ [err]) st
    end in
  match StopSync cfg (Overrides i) (Child task "Cleanup") i st with
  | (st, i, Panics) => (st, i, Panics)
  | (st, i, Returns (Some stopErr)) => (st, i, Returns (Some stopErr))
  | (st, i, Returns None) => (st, i, Returns (Some err))
  end.

(** [StartAsync] from the launch on: the command is built, the process is
    started, its pid is stored and saved; then the wait for readiness.
    (The log follower, which hands the lines of the run log to the task as
    output while the wait lasts, runs beside this and sets no state; it is
    left out.) *)
Definition launch (cfg : OperationConfig) (task startTask : Task)
    (service : ServiceConfig) (i : Instance) (st : State W)
    : State W * Instance * ret :=
  let runLog := GetRunLog sys service (LogDir (dirConfig i)) in
  let st := setWorld (osRemove sys runLog (world st)) st in
  match getLaunchCommand sys i cfg (world st) with
  | inr err => (SetState startTask TaskStateFailed [err] st, i, Returns (Some err))
  | inl cmd =>
      let cmd := mkCmd (cmd_Args cmd)
                   ((osEnviron sys (world st) ++ o_Env (Overrides i)) ++ sc_Env service) in
      match cmdStart sys cmd (world st) with
      | (w, inr err) =>
          (SetState startTask TaskStateFailed [] (setWorld w st), i, Returns (Some err))
      | (w, inl pid) =>
          let i := setPid pid i in
          match save sys i w with
          | (w, Some err) =>
              (SetState startTask TaskStateFailed [] (setWorld w st), i, Returns (Some err))
          | (w, None) =>
              match WaitUntilRunning sys (dirConfig i) cmd service w with
              | (w, None) =>
                  (warmupRun sys service task
                     (SetState startTask TaskStateSuccess [] (setWorld w st)),
                   i, Returns None)
              | (w, Some err) =>
                  startFailed cfg task startTask service err i (setWorld w st)
              end
          end
      end
  end.

(** [StartAsync]: the state and the instance it leaves, and how it ends. *)
Definition StartAsync (cfg : OperationConfig) (task : Task) (i : Instance)
    (st : State W) : State W * Instance * ret :=
  match Service i with
  | None => (st, i, Panics)
  | Some service =>
      if IsExcluded sys cfg service then (st, i, Returns None)
      else if negb (HasLaunchStep sys service) then (st, i, Returns None)
      else
        let startTask := Child (Child task (GetName sys service)) "Start" in
        let st := SetState startTask TaskStateInProgress [] st in
        if negb (Pid i =? 0)%Z then
          (SetState startTask TaskStateWarning ["Already running"] st, i, Returns None)
        else
          match DeleteAllStatusesForService sys service (StateDir (dirConfig i)) (world st) with
          | (w, Some err) => (setWorld w st, i, Returns (Some err))
          | (w, None) => launch cfg task startTask service i (setWorld w st)
          end
  end.

(** *** [Stop] and [HasRunning] *)

(** A unit of work handed to the pool. *)
Definition Work : Type := State W → State W * ret.

(** [Stop], over a pool [P] with its [Enqueue]: the state and the pool it
    leaves, and the error. *)
Definition Stop {P : Type} (Enqueue : Work → P → P * option string)
    (dir : EdwardConfiguration) (c : ServiceConfig) (cfg : OperationConfig)
    (overrides : ContextOverride) (task : Task) (pool : P) (st : State W)
    : State W * P * option string :=
  match Load sys dir c overrides (world st) with
  | inr err => (st, pool, Some err)
  | inl instance =>
      if (Pid instance =? 0)%Z then
        (setWorld (clearState sys instance (world st)) st, pool, None)
      else
        let '(pool, err) :=
          Enqueue (λ st, let '(st, _, r) := StopSync cfg overrides task instance st in (st, r))
            pool in
        (st, pool, err)
  end.

Definition HasRunning (dir : EdwardConfiguration) (service : ServiceConfig) (w : W)
    : bool + string :=
  match Load sys dir service (mkContextOverride []) w with
  | inr err => inr err
  | inl command => if (Pid command =? 0)%Z then inl false else inl true
  end.

(** *** [LoadRunningServices] *)

Definition setServiceConfigFile (file : string) (s : ServiceConfig) : ServiceConfig :=
  mkServiceConfig (sc_Name s) (Config.sc_Aliases s) (Config.sc_Description s)
    (Config.sc_Path s) (sc_Env s) file (Config.sc_MatchesPlatform s).

(** The result of [LoadRunningServices]: the services, an error, or a
    panic. *)
Inductive loaded :=
| Loaded (services : list ServiceConfig)
| LoadError (err : string)
| LoadPanics.

Fixpoint loadFiles (stateDir : string) (w : W) (files : list FileInfo)
    (services : list ServiceConfig) : loaded :=
  match files with
  | [] => Loaded services
  | file :: rest =>
      if fi_IsDir file then loadFiles stateDir w rest services
      else
        match ReadFile sys (pathJoin sys stateDir (fi_Name file)) w with
        | inr err => LoadError err
        | inl raw =>
            let command := fst (Unmarshal sys raw zeroInstance) in
            match Service command with
            | None => LoadPanics
            | Some service =>
                loadFiles stateDir w rest
                  (services ++ [setServiceConfigFile (ConfigFile command) service])
            end
        end
  end.

Definition LoadRunningServices (stateDir : string) (w : W) : loaded :=
  match ReadDir sys stateDir w with
  | inr err => LoadError err
  | inl stateFiles => loadFiles stateDir w stateFiles []
  end.

End operations.

End Instance.

(** ** Restarting the running services *)

Module Restart.
Export Instance.

(** *** Data *)

(** [services.ServiceOrGroup]. *)
Inductive ServiceOrGroup :=
| IsService (s : ServiceConfig)
| IsGroup (g : Config.ServiceGroupConfig).

(** The [Client], as far as a restart reads it. *)
Record Client := mkClient {
  serviceMap : gmap string ServiceConfig;
  DirConfig : EdwardConfiguration;
  c_WorkingDir : string;
  c_EdwardExecutable : string;
  c_Tags : list string;
  c_LogFile : string;
  ServiceChecks : option (list ServiceOrGroup → option string)
}.

(** A call [restartOneOrMoreServices] makes for a service. *)
Inductive Op :=
| OpStop (service : string)
| OpBuild (service : string)
| OpStart (service : string).

(** The world, and the calls made so far, in the order they were made. *)
Record RState (W : Type) := mkRState {
  rworld : W;
  calls : list Op
}.
Arguments mkRState {W} rworld calls.
Arguments rworld {W} r.
Arguments calls {W} r.

(** The function [DoForServices] is given. *)
Definition Action (W : Type) : Type :=
  ServiceConfig → ContextOverride → Task → RState W → RState W * ret.

(** What lies outside these sources: the order of a [range] over the
    service map, [sort.Slice], which is handed the comparison to sort by,
    the lookup of names, [services.DoForServices], and the three
    operations on an instance, of which only the order of the calls is
    followed here. *)
Record Collaborators (W : Type) := mkCollaborators {
  rangeServices : gmap string ServiceConfig → list ServiceConfig;
  sortSlice : (Instance → Instance → bool) → list Instance → list Instance;
  getServicesOrGroups : Client → list string → list ServiceOrGroup + string;
  DoForServices : list ServiceOrGroup → Task → Action W → RState W → RState W * ret;
  Merge : ContextOverride → ContextOverride → ContextOverride;
  stopSync : OperationConfig → ContextOverride → Task → Instance → W → W * Instance * ret;
  build : OperationConfig → ContextOverride → EdwardConfiguration → Task →
          ServiceConfig → W → W * ret;
  startAsync : OperationConfig → Task → Instance → W → W * Instance * ret;
  followerDone : W → W
}.
Arguments rangeServices {W} c.
Arguments sortSlice {W} c.
Arguments getServicesOrGroups {W} c.
Arguments DoForServices {W} c.
Arguments Merge {W} c.
Arguments stopSync {W} c.
Arguments build {W} c.
Arguments startAsync {W} c.
Arguments followerDone {W} c.

Section operations.
Context {W : Type} (sys : Sys W) (co : Collaborators W).

Definition call (op : Op) (w : W) (st : RState W) : RState W :=
  mkRState w (calls st ++ [op]).

(** The function [restartOneOrMoreServices] hands to [DoForServices]:
    stop, build unless told not to, start. *)
Definition restartService (c : Client) (cfg : OperationConfig) : Action W :=
  λ service overrides task st,
    match Load sys (DirConfig c) service overrides (rworld st) with
    | inr err => (st, Returns (Some err))
    | inl i =>
        let overrides := Merge co (Overrides i) overrides in
        let '(w, i, r) := stopSync co cfg overrides task i (rworld st) in
        let st := call (OpStop (sc_Name service)) w st in
        match r with
        | Panics => (st, Panics)
        | Returns (Some err) => (st, Returns (Some err))
        | Returns None =>
            let '(st, r) :=
              if negb (SkipBuild cfg) then
                let '(w, r) := build co cfg overrides (DirConfig c) task service (rworld st) in
                (call (OpBuild (sc_Name service)) w st, r)
              else (st, Returns None) in
            match r with
            | Panics => (st, Panics)
            | Returns (Some err) => (st, Returns (Some err))
            | Returns None =>
                let '(w, i, r) := startAsync co cfg task i (rworld st) in
                (call (OpStart (sc_Name service)) w st, r)
            end
        end
    end.

(** [restartOneOrMoreServices].  (The pool it starts is given no work; the
    follower is told it is done on every way out once the task exists.) *)
Definition restartOneOrMoreServices (c : Client) (serviceNames : list string)
    (skipBuild noWatch : bool) (exclude : list string) (st : RState W)
    : RState W * ret :=
  match getServicesOrGroups co c serviceNames with
  | inr err => (st, Returns (Some err))
  | inl sgs =>
      match (match ServiceChecks c with
             | Some check => check sgs
             | None => None
             end) with
      | Some err => (st, Returns (Some err))
      | None =>
          let cfg := mkOperationConfig (c_WorkingDir c) (c_EdwardExecutable c) exclude
                       skipBuild noWatch (c_Tags c) (c_LogFile c) in
          let '(st, r) := DoForServices co sgs [] (restartService c cfg) st in
          (mkRState (followerDone co (rworld st)) (calls st), r)
      end
  end.

(** The first loop of [restartAll]: the instances of the services that
    have one running, in the order the map yields the services. *)
Fixpoint runningInstances (dir : EdwardConfiguration) (w : W)
    (services : list ServiceConfig) (instances : list Instance)
    : list Instance + string :=
  match services with
  | [] => inl instances
  | service :: rest =>
      match HasRunning sys dir service w with
      | inr err => inr err
      | inl false => runningInstances dir w rest instances
      | inl true =>
          match Load sys dir service (mkContextOverride []) w with
          | inr err => inr err
          | inl i => runningInstances dir w rest (instances ++ [i])
          end
      end
  end.

(** The second loop: [instance.Service.Name], through the pointer. *)
Fixpoint instanceNames (instances : list Instance) : option (list string) :=
  match instances with
  | [] => Some []
  | i :: rest =>
      match Service i with
      | None => None
      | Some s => cons (sc_Name s) <$> instanceNames rest
      end
  end.

(** The function [restartAll] hands to [sort.Slice]: of the instances at
    two places of the slice, whether the first has the smaller pid. *)
Definition pidLess (a b : Instance) : bool := (Pid a <? Pid b)%Z.

(** The instances [restartAll] takes the names of, when it gets that far:
    the running ones, sorted. *)
Definition restartOrder (c : Client) (w : W) : list Instance + string :=
  match runningInstances (DirConfig c) w (rangeServices co (serviceMap c)) [] with
  | inr err => inr err
  | inl instances => inl (sortSlice co pidLess instances)
  end.

Definition restartAll (c : Client) (skipBuild noWatch : bool) (exclude : list string)
    (st : RState W) : RState W * ret :=
  match restartOrder c (rworld st) with
  | inr err => (st, Returns (Some err))
  | inl instances =>
      match instanceNames instances with
      | None => (st, Panics)
      | Some serviceNames =>
          restartOneOrMoreServices c serviceNames skipBuild noWatch exclude st
      end
  end.

(** *** What is taken of the collaborators *)

(** A [range] over a map yields every entry once. *)
Definition range_ok : Prop :=
  ∀ m, rangeServices co m ≡ₚ (map_to_list m).*2.

(** What [sort.Slice] asks of the comparison: a strict weak order. *)
Definition strictWeakOrder (less : Instance → Instance → bool) : Prop :=
  (∀ a, less a a = false) ∧
  (∀ a b d, less a b = true → less b d = true → less a d = true) ∧
  (∀ a b d, less a b = false → less b d = false → less a d = false).

(** [sort.Slice], whatever such comparison it is handed, rearranges the
    slice so that no element is less than one before it. *)
Definition sort_ok : Prop :=
  ∀ less l, strictWeakOrder less →
    sortSlice co less l ≡ₚ l ∧
    StronglySorted (λ a b, less b a = false) (sortSlice co less l).

(** [Load] gives the instance of the service it is asked for. *)
Definition load_ok : Prop :=
  ∀ dir s o w i, Load sys dir s o w = inl i → Service i = Some s.

(** The service map is keyed by name. *)
Definition keyed (c : Client) : Prop :=
  ∀ k s, serviceMap c !! k = Some s → sc_Name s = k.

(** Names of services are found, in the order asked. *)
Definition lookup_ok (c : Client) : Prop :=
  ∀ ss, Forall (λ s, serviceMap c !! sc_Name s = Some s) ss →
    getServicesOrGroups co c (sc_Name <$> ss) = inl (IsService <$> ss).

(** A loop over services that stops at the first that fails. *)
Fixpoint forServices (f : Action W) (task : Task) (ss : list ServiceConfig)
    (st : RState W) : RState W * ret :=
  match ss with
  | [] => (st, Returns None)
  | s :: rest =>
      match f s (mkContextOverride []) task st with
      | (st, Returns None) => forServices f task rest st
      | (st, r) => (st, r)
      end
  end.

(** [DoForServices] takes the services it is given one after the other. *)
Definition sequential : Prop :=
  ∀ ss task f st, DoForServices co (IsService <$> ss) task f st = forServices f task ss st.

(** The calls a restart of the services [names] makes when none fails. *)
Definition restartCalls (skipBuild : bool) (names : list string) : list Op :=
  names ≫= λ n, if skipBuild then [OpStop n; OpStart n] else [OpStop n; OpBuild n; OpStart n].

End operations.

End Restart.

(** ** Building and editing a configuration *)

Module ConfigOps.
Export Config.

(** *** Environment settings shared by services *)

(** [counts[v]++] for every value of one slice.  (The count is an [int]
    in the code; it counts elements of slices held in memory and never
    wraps.) *)
Definition countValues (counts : gmap string nat) (s : list string) : gmap string nat :=
  foldl (λ counts v, <[v := S (default 0 (counts !! v))]> counts) counts s.

(** [stringSliceIntersect]: the values counted as often as there are
    slices, in the order the [range] over the counts yields them. *)
Definition stringSliceIntersect (h : Host) (slices : list (list string)) : list string :=
  let counts := foldl countValues ∅ slices in
  filter (λ v, counts !! v = Some (length slices)) (rangeKeys h (dom counts)).

Definition stringSliceRemoveCommon (common original : list string) : list string :=
  let commonMap : gset string := foldl (λ m s, {[s]} ∪ m) ∅ common in
  filter (λ s, s ∉ commonMap) original.

(** *** [NewConfig], [EmptyConfig] and [AddGroups] *)

Definition setEnv (env : list string) (s : ServiceConfig) : ServiceConfig :=
  mkServiceConfig (sc_Name s) (sc_Aliases s) (sc_Description s) (sc_Path s) env
    (sc_ConfigFile s) (sc_MatchesPlatform s).

Definition setGroupDefs (gs : list GroupDef) (c : Config) : Config :=
  mkConfig (workingDir c) (ImportedGroups c) (ImportedServices c) (Env c) gs
    (Services c) (ServiceMap c) (GroupMap c) (FilePath c).

(** The definition [AddGroups] writes for a group: the names of its group
    children, then the names of its service children.  (A child is a
    pointer, and the name is read through it; the pointers of this model
    are never nil, so the checks [cg != nil] and [cs != nil] pass.) *)
Definition groupDefOf (group : ServiceGroupConfig) : GroupDef :=
  mkGroupDef (sg_Name group) (sg_Aliases group) (sg_Description group)
    (sg_Groups group ++ sg_Services group) (sg_Env group).

(** [AddGroups]: the configuration it leaves and the error it returns. *)
Definition AddGroups (groups : list ServiceGroupConfig) (c : Config)
    : Config * option string :=
  (foldl (λ c group, setGroupDefs (Groups c ++ [groupDefOf group]) c) c groups, None).

(** [NewConfig]; the maps of the new configuration are nil. *)
Definition NewConfig (h : Host) (newServices : list ServiceConfig)
    (newGroups : list ServiceGroupConfig) : Config :=
  let env := stringSliceIntersect h (sc_Env <$> newServices) in
  let svcs := (λ s, setEnv (stringSliceRemoveCommon env (sc_Env s)) s) <$> newServices in
  let cfg := mkConfig "" [] [] env [] svcs ∅ ∅ "" in
  (AddGroups newGroups cfg).1.

Definition EmptyConfig (workingDir : string) : Config :=
  mkConfig workingDir [] [] [] [] [] ∅ ∅ "".

(** *** [AppendServices], [RemoveGroup] and [importConfig] *)

(** The body of the loop of [AppendServices].  (A nil [ServiceMap] is made
    an empty one first; the two are one [gmap] here.) *)
Definition appendService (c : Config) (s : ServiceConfig) : Config :=
  match ServiceMap c !! sc_Name s with
  | Some _ => c
  | None =>
      mkConfig (workingDir c) (ImportedGroups c) (ImportedServices c) (Env c) (Groups c)
        (Services c ++ [s]) (<[sc_Name s := s]> (ServiceMap c)) (GroupMap c) (FilePath c)
  end.

Definition AppendServices (newServices : list ServiceConfig) (c : Config)
    : Config * option string :=
  (foldl appendService c newServices, None).

Definition RemoveGroup (name : string) (c : Config) : Config * option string :=
  match GroupMap c !! name with
  | None => (c, Some "Group not found")
  | Some _ =>
      (mkConfig (workingDir c) (ImportedGroups c) (ImportedServices c) (Env c)
         (filter (λ group, gd_Name group ≠ name) (Groups c))
         (Services c) (ServiceMap c) (delete name (GroupMap c)) (FilePath c),
       None)
  end.

Definition importConfig (second : Config) (c : Config) : Config * option string :=
  (mkConfig (workingDir c)
     (ImportedGroups c ++ (Groups second ++ ImportedGroups second))
     (ImportedServices c ++ (Services second ++ ImportedServices second))
     (Env c) (Groups c) (Services c) (ServiceMap c) (GroupMap c) (FilePath c),
   None).

End ConfigOps.

(** ** Building a service *)

Module Builder.
Export Instance.

(** What the builder takes from outside these sources: whether the backend
    of a service has a build step, [services.GetBuilder], and the [Build]
    of the builder it gives, which returns with the output the job has
    taken so far and an error or nil. *)
Record BuildSys (W B : Type) := mkBuildSys {
  HasBuildStep : ServiceConfig → bool;
  GetBuilder : OperationConfig → ServiceConfig → B + string;
  runBuild : B → string → Instance → W → W * list string * option string
}.
Arguments HasBuildStep {W B} b.
Arguments GetBuilder {W B} b.
Arguments runBuild {W B} b.

Record builder := mkBuilder {
  Cfg : OperationConfig;
  b_Overrides : ContextOverride
}.

Definition New (cfg : OperationConfig) (overrides : ContextOverride) : builder :=
  mkBuilder cfg overrides.

Definition newline : string := String (ascii_of_nat 10) EmptyString.

Section operations.
Context {W B : Type} (sys : Sys W) (bs : BuildSys W B).

(** [BuildWithTracker]; a [tracker.Task] is an interface and may be nil. *)
Definition BuildWithTracker (b : builder) (dirConfig : EdwardConfiguration)
    (task : option Task) (service : ServiceConfig) (force : bool) (st : State W)
    : State W * ret :=
  if negb (HasBuildStep bs service) then (st, Returns None)
  else
    match task with
    | None => (st, Returns (Some "task is nil"))
    | Some task =>
        let job := Child task "Build" in
        let st := SetState job TaskStateInProgress [] st in
        match Load sys dirConfig service (b_Overrides b) (world st) with
        | inr err => (st, Returns (Some err))
        | inl c =>
            if negb force && negb (Pid c =? 0)%Z then
              (SetState job TaskStateWarning ["Already running"] st, Returns None)
            else
              match DeleteAllStatusesForService sys service (StateDir dirConfig)
                      (world st) with
              | (w, Some err) => (setWorld w st, Returns (Some err))
              | (w, None) =>
                  let st := setWorld w st in
                  match GetBuilder bs (Cfg b) service with
                  | inr err => (st, Returns (Some err))
                  | inl builder =>
                      match runBuild bs builder (WorkingDir (Cfg b)) c (world st) with
                      | (w, output, Some err) =>
                          (SetState job TaskStateFailed [err; Join output newline]
                             (setWorld w st),
                           Returns (Some ("running build command: " +:+ err)))
                      | (w, output, None) =>
                          (SetState job TaskStateSuccess [] (setWorld w st), Returns None)
                      end
                  end
              end
        end
    end.

(** [Build]: the services in turn; calling [Child] on a nil task
    panics. *)
Fixpoint Build (b : builder) (dirConfig : EdwardConfiguration) (task : option Task)
    (service : list ServiceConfig) (st : State W) : State W * ret :=
  match service with
  | [] => (st, Returns None)
  | s :: rest =>
      if IsExcluded sys (Cfg b) s then (st, Returns None)
      else
        match task with
        | None => (st, Panics)
        | Some t =>
            match BuildWithTracker b dirConfig (Some (Child t (GetName sys s))) s false st with
            | (st, Returns None) => Build b dirConfig task rest st
            | (st, r) => (st, r)
            end
        end
  end.

(** *** [Launch] *)

Definition Launch {P : Type} (Enqueue : Work (W := W) → P → P * option string)
    (dirConfig : EdwardConfiguration) (c : ServiceConfig) (cfg : OperationConfig)
    (overrides : ContextOverride) (task : Task) (pool : P) (st : State W)
    : State W * P * option string :=
  if IsExcluded sys cfg c then (st, pool, None)
  else
    match Load sys dirConfig c overrides (world st) with
    | inr err => (st, pool, Some err)
    | inl instance =>
        let '(pool, err) :=
          Enqueue (λ st, let '(st, _, r) := StartAsync sys cfg task instance st in (st, r))
            pool in
        (st, pool, err)
    end.

End operations.

End Builder.

(** ** The commands of the client *)

Module Edward.
Export Instance Restart.

Section operations.
Context {W : Type} (sys : Sys W) (co : Collaborators W).

(** [Restart]: with no names, every running service, after the user has
    agreed unless [force] is set; with names, the services named. *)
Definition Restart (askForConfirmation : string → W → W * bool) (c : Client)
    (names : list string) (force skipBuild noWatch : bool) (exclude : list string)
    (st : RState W) : RState W * ret :=
  match names with
  | [] =>
      if force then restartAll sys co c skipBuild noWatch exclude st
      else
        let '(w, yes) :=
          askForConfirmation "Are you sure you want to restart all services?" (rworld st) in
        let st := mkRState w (calls st) in
        if yes then restartAll sys co c skipBuild noWatch exclude st
        else (st, Returns None)
  | _ => restartOneOrMoreServices sys co c names skipBuild noWatch exclude st
  end.

(** [checkAllRunning], over the services that [services.Services] finds in
    the services and groups. *)
Fixpoint checkRunning (dirConfig : EdwardConfiguration) (allServices : list ServiceConfig)
    (w : W) : bool + string :=
  match allServices with
  | [] => inl false
  | s :: rest =>
      match HasRunning sys dirConfig s w with
      | inr err => inr err
      | inl true => inl true
      | inl false => checkRunning dirConfig rest w
      end
  end.

Definition checkAllRunning (Services : list ServiceOrGroup → list ServiceConfig)
    (dirConfig : EdwardConfiguration) (sgs : list ServiceOrGroup) (w : W) : bool + string :=
  checkRunning dirConfig (Services sgs) w.

End operations.

End Edward.

(** ** Following the tasks on the terminal *)

Module Output.
Export Instance.

(** What the follower writes for an update of a task: the rendering of
    its completion, past the live area, or its rendering among the tasks
    in progress, flushed.  (The renderers lie outside these sources.) *)
Inductive Written :=
| WroteCompletion (update : Update)
| WroteProgress (update : Update).

(** A [Follower]: whether it has a writer, the lineages rendered complete,
    and what it has written. *)
Record Follower := mkFollower {
  writer : bool;
  complete : gset string;
  written : list Written
}.

(** The update of a task carries its lineage, by name, and its state. *)
Definition lineageAsString (update : Update) : string := Join (u_task update) "/".

Definition finished (update : Update) : bool :=
  match u_state update with
  | TaskStatePending | TaskStateInProgress => false
  | _ => true
  end.

(** [Reset]: [None] is the panic "Follower not stopped correctly". *)
Definition Reset (f : Follower) : option Follower :=
  if writer f then None else Some (mkFollower true (complete f) (written f)).

(** [NewFollower]: its [Reset] finds no writer. *)
Definition NewFollower : Follower := mkFollower true ∅ [].

Definition Handle (update : Update) (f : Follower) : Follower :=
  let updateLineage := lineageAsString update in
  if bool_decide (updateLineage ∈ complete f) || negb (writer f) then f
  else
    let f :=
      if finished update then
        mkFollower (writer f) ({[updateLineage]} ∪ complete f)
          (written f ++ [WroteCompletion update])
      else f in
    mkFollower (writer f) (complete f) (written f ++ [WroteProgress update]).

(** [Done], for a follower that has a writer. *)
Definition Done (f : Follower) : Follower := mkFollower false (complete f) (written f).

(** [NonLiveFollower.Handle] writes the completion of every update of a
    finished task. *)
Definition NonLiveHandle (update : Update) (out : list Written) : list Written :=
  if finished update then out ++ [WroteCompletion update] else out.

End Output.

(** ** Loading a configuration file *)

Module Loader.
Export ConfigOps.

(** The fields of the [Config] of the code that only loading reads, beside
    the configuration that resolution works on. *)
Record Loaded := mkLoaded {
  config : Config;
  TelemetryScript : string;
  MinEdwardVersion : string;
  Imports : list string
}.

(** [Config{}]. *)
Definition zeroConfig : Loaded := mkLoaded (mkConfig "" [] [] [] [] [] ∅ ∅ "") "" "" [].

(** An error of [json.Unmarshal]: a syntax error with its offset, or
    another. *)
Inductive jsonError :=
| SyntaxError (msg : string) (Offset : Z)
| OtherError (msg : string).

(** What loading takes from outside these sources: [os.Open] and the
    reading of what it opens, [json.Unmarshal] into a new [Config] (which
    leaves the fields tagged [json:"-"] and the working directory as they
    are in [Config{}], and reports a syntax error at an offset within the
    data), [path.Dir] and [filepath.Dir], and the versions of
    [go-version]. *)
Record Files (R V : Type) := mkFiles {
  Open : string → R + string;
  ReadFrom : R → string + string;
  Unmarshal : string → Loaded + jsonError;
  pathDir : string → string;
  filepathDir : string → string;
  NewVersion : string → option V;
  LessThan : V → V → bool
}.
Arguments Open {R V} f.
Arguments ReadFrom {R V} f.
Arguments Unmarshal {R V} f.
Arguments pathDir {R V} f.
Arguments filepathDir {R V} f.
Arguments NewVersion {R V} f.
Arguments LessThan {R V} f.

Definition setConfig (c : Config) (l : Loaded) : Loaded :=
  mkLoaded c (TelemetryScript l) (MinEdwardVersion l) (Imports l).

Definition setWorkingDir (dir : string) (c : Config) : Config :=
  mkConfig dir (ImportedGroups c) (ImportedServices c) (Env c) (Groups c) (Services c)
    (ServiceMap c) (GroupMap c) (FilePath c).

Definition setFilePath (file : string) (c : Config) : Config :=
  mkConfig (workingDir c) (ImportedGroups c) (ImportedServices c) (Env c) (Groups c)
    (Services c) (ServiceMap c) (GroupMap c) file.

(** *** Where a syntax error is *)

Definition newlineByte : ascii := ascii_of_nat 10.

(** [strings.LastIndex(s, "\n")]. *)
Fixpoint lastIndexFrom (i : Z) (s : list ascii) (found : Z) : Z :=
  match s with
  | [] => found
  | a :: rest => lastIndexFrom (i + 1) rest (if Ascii.eqb a newlineByte then i else found)
  end.

Definition LastIndex (s : list ascii) : Z := lastIndexFrom 0 s (-1).

(** [strings.Count(s, "\n")]. *)
Definition Count (s : list ascii) : Z :=
  Z.of_nat (length (filter (λ a, a = newlineByte) s)).

(** The line and the character that [loadConfigContents] reports for a
    syntax error at [Offset]. *)
Definition position (data : string) (Offset : Z) : Z * Z :=
  let bytes := String.list_ascii_of_string data in
  let start := (LastIndex (take (Z.to_nat Offset) bytes) + 1)%Z in
  ((Count (take (Z.to_nat start) bytes) + 1)%Z, (Offset - start - 1)%Z).

Definition parseError (data : string) (e : jsonError) : string :=
  match e with
  | SyntaxError msg Offset =>
      if (Offset =? 0)%Z then "could not parse config file: " +:+ msg
      else
        let '(line, pos) := position data Offset in
        "could not parse config file (line " +:+ pretty line +:+ ", char " +:+
        pretty pos +:+ "): " +:+ msg
  | OtherError msg => "could not parse config file: " +:+ msg
  end.

Section operations.
Context {R V : Type} (h : Host) (fs : Files R V).

(** *** [loadConfigContents] and [loadImports] *)

(** The two call each other, through the files: [depth] bounds the depth
    of imports followed, and [None] is a load that needs more. *)
Fixpoint loadConfigContents (depth : nat) (reader : R) (workingDir : string)
    : option (Loaded * option string) :=
  match depth with
  | 0 => None
  | S depth =>
      match ReadFrom fs reader with
      | inr err => Some (zeroConfig, Some ("could not read config: " +:+ err))
      | inl data =>
          match Unmarshal fs data with
          | inr e => Some (zeroConfig, Some (parseError data e))
          | inl loaded =>
              let c := setWorkingDir workingDir (config loaded) in
              match
                (fix loadImports (imports : list string) (c : Config)
                     : option (Config * option string) :=
                   match imports with
                   | [] => Some (c, None)
                   | i :: rest =>
                       let cPath :=
                         if IsAbs h i then i else PathJoin h (Config.workingDir c) i in
                       match Open fs cPath with
                       | inr err => Some (c, Some err)
                       | inl r =>
                           match loadConfigContents depth r (filepathDir fs cPath) with
                           | None => None
                           | Some (_, Some err) => Some (c, Some (i +:+ ": " +:+ err))
                           | Some (cfg, None) => loadImports rest (importConfig (config cfg) c).1
                           end
                       end
                   end) (Imports loaded) c
              with
              | None => None
              | Some (_, Some err) => Some (zeroConfig, Some err)
              | Some (c, None) => Some (setConfig c loaded, None)
              end
          end
      end
  end.

(** [loadImports], for a configuration whose imports are loaded with
    [depth].  (The error of [importConfig] is always nil.) *)
Fixpoint loadImports (depth : nat) (imports : list string) (c : Config)
    : option (Config * option string) :=
  match imports with
  | [] => Some (c, None)
  | i :: rest =>
      let cPath := if IsAbs h i then i else PathJoin h (Config.workingDir c) i in
      match Open fs cPath with
      | inr err => Some (c, Some err)
      | inl r =>
          match loadConfigContents depth r (filepathDir fs cPath) with
          | None => None
          | Some (_, Some err) => Some (c, Some (i +:+ ": " +:+ err))
          | Some (cfg, None) => loadImports depth rest (importConfig (config cfg) c).1
          end
      end
  end.

(** *** [LoadConfig] *)

(** The end of [LoadConfig]: the maps are made, and the configuration is
    returned with the error of that. *)
Definition resolveLoaded (l : Loaded) : option (Loaded * option string) :=
  match initMaps h (config l) with
  | None => None
  | Some (c, e) => Some (setConfig c l, Error <$> e)
  end.

Definition LoadConfig (depth : nat) (filePath edwardVersion : string)
    : option (Loaded * option string) :=
  match Open fs filePath with
  | inr err => Some (zeroConfig, Some err)
  | inl reader =>
      let workingDir := pathDir fs filePath in
      match loadConfigContents depth reader workingDir with
      | None => None
      | Some (_, Some err) => Some (zeroConfig, Some err)
      | Some (loaded, None) =>
          let loaded := setConfig (setFilePath filePath (config loaded)) loaded in
          if negb (String.eqb (MinEdwardVersion loaded) "") && negb (String.eqb edwardVersion "")
          then
            match NewVersion fs (MinEdwardVersion loaded) with
            | None => Some (zeroConfig, None)
            | Some minVersion =>
                match NewVersion fs edwardVersion with
                | None => Some (zeroConfig, None)
                | Some currentVersion =>
                    if LessThan fs currentVersion minVersion then
                      Some (zeroConfig,
                            Some ("this config requires at least version " +:+
                                  MinEdwardVersion loaded))
                    else resolveLoaded loaded
                end
            end
          else resolveLoaded loaded
      end
  end.

End operations.

End Loader.

(** ** The order of strings *)

Lemma string_compare_refl (s : string) : String.compare s s = Eq.
Proof.
  induction s as [|a s IH]; simpl; [done|].
  unfold Ascii.compare. by rewrite N.compare_refl.
Qed.

Lemma string_compare_lt_trans (s1 s2 s3 : string) :
  String.compare s1 s2 = Lt → String.compare s2 s3 = Lt → String.compare s1 s3 = Lt.
Proof.
  revert s2 s3. induction s1 as [|a s1 IH]; intros [|b s2] [|c s3]; simpl; try done.
  unfold Ascii.compare.
  destruct (N.compare_spec (N_of_ascii a) (N_of_ascii b)) as [Hab|Hab|Hab]; try done;
  destruct (N.compare_spec (N_of_ascii b) (N_of_ascii c)) as [Hbc|Hbc|Hbc]; try done; intros H1 H2.
  - rewrite Hab, Hbc, N.compare_refl. eauto.
  - rewrite Hab. by apply N.compare_lt_iff in Hbc as ->.
  - rewrite <- Hbc. by apply N.compare_lt_iff in Hab as ->.
  - assert (N_of_ascii a < N_of_ascii c)%N as Hac by lia.
    by apply N.compare_lt_iff in Hac as ->.
Qed.

Lemma string_le_iff (a b : string) : string_le a b ↔ String.compare a b = Lt ∨ a = b.
Proof.
  unfold string_le, String.leb. split.
  - destruct (String.compare a b) eqn:E; try done; [|by left].
    right. by apply String.compare_eq_iff.
  - intros [->| ->]; [done|]. by rewrite string_compare_refl.
Qed.

#[global] Instance string_le_total : Total string_le.
Proof. intros a b. apply String.leb_total. Qed.

#[global] Instance string_le_trans : Transitive string_le.
Proof.
  intros a b c. rewrite !string_le_iff. intros [H1| ->] [H2| ->]; eauto.
  left. eapply string_compare_lt_trans; eauto.
Qed.

#[global] Instance string_le_antisym : AntiSymm (=) string_le.
Proof. intros a b. apply String.leb_antisym. Qed.

Lemma sortStrings_sorted (l : list string) : StronglySorted string_le (sortStrings l).
Proof. apply StronglySorted_merge_sort; apply _. Qed.

Lemma sortStrings_perm (l : list string) : sortStrings l ≡ₚ l.
Proof. apply merge_sort_Permutation. Qed.

Lemma sortStrings_nil_inv (l : list string) : sortStrings l = [] → l = [].
Proof.
  intros H. apply Permutation_nil_r. rewrite <- H. symmetry. apply sortStrings_perm.
Qed.

Lemma sortStrings_elem_of (l : list string) (x : string) : x ∈ sortStrings l ↔ x ∈ l.
Proof. by rewrite sortStrings_perm. Qed.

(** ** Resolution: the loop over services and the first pass *)

Module ConfigFacts.
Import Config.

Lemma addToMap_union (m : gset string) (vs : list string) :
  addToMap m vs = m ∪ list_to_set vs.
Proof.
  unfold addToMap. revert m. induction vs as [|v vs IH]; intros m; simpl.
  - set_solver.
  - rewrite IH. set_solver.
Qed.

Lemma intersect_filter (m : gset string) (vs : list string) :
  intersect m vs = sortStrings (filter (λ v, v ∈ m) vs).
Proof. done. Qed.

Lemma sortStrings_nil : sortStrings [] = [].
Proof. done. Qed.

(** The check both loops make on a definition, against [firstCollision]. *)
Lemma intersect_cases (m : gset string) (vs : list string) :
  (filter (λ v, v ∈ m) vs = [] ∧ intersect m vs = []) ∨
  (∃ x l y k, filter (λ v, v ∈ m) vs = x :: l ∧ intersect m vs = y :: k ∧
              y :: k = sortStrings (x :: l)).
Proof.
  unfold intersect. destruct (filter _ vs) as [|x l] eqn:Hf.
  - by left.
  - right. destruct (sortStrings (x :: l)) as [|y k] eqn:Hs.
    + by apply sortStrings_nil_inv in Hs.
    + by exists x, l, y, k.
Qed.

Lemma forEach_app {A S : Type} (body : S → A → result S) (l1 l2 : list A) (st : S) :
  forEach body (l1 ++ l2) st =
  match forEach body l1 st with
  | Ok st' => forEach body l2 st'
  | Err e => Err e
  end.
Proof.
  revert st. induction l1 as [|x l1 IH]; intros st; simpl; [done|].
  destruct (body st x); [apply IH | done].
Qed.

Lemma firstCollision_app (inUse : gset string) (d1 d2 : list (list string)) :
  firstCollision inUse (d1 ++ d2) =
  match firstCollision inUse d1 with
  | Some hit => Some hit
  | None => firstCollision (inUse ∪ list_to_set (concat d1)) d2
  end.
Proof.
  revert inUse. induction d1 as [|ids d1 IH]; intros inUse; simpl.
  - f_equal. set_solver.
  - destruct (filter _ ids); [|done]. rewrite IH.
    destruct (firstCollision _ d1); [done|]. f_equal. set_solver.
Qed.

(** The services the loop has stored once it is through [ss]. *)
Definition storeServices (c : Config) (file : string) (ss : list ServiceConfig)
    (m : gmap string ServiceConfig) : gmap string ServiceConfig :=
  foldl (λ m s, <[sc_Name s := mergeService c file s]> m) m (matching ss).

Lemma matching_cons (s : ServiceConfig) (ss : list ServiceConfig) :
  matching (s :: ss) = if sc_MatchesPlatform s then s :: matching ss else matching ss.
Proof.
  unfold matching. rewrite filter_cons. destruct (sc_MatchesPlatform s); by case_decide.
Qed.

Lemma skippedServices_cons (s : ServiceConfig) (ss : list ServiceConfig) :
  skippedServices (s :: ss) =
  if sc_MatchesPlatform s then skippedServices ss else s :: skippedServices ss.
Proof.
  unfold skippedServices. rewrite filter_cons.
  destruct (sc_MatchesPlatform s); by case_decide.
Qed.

(** The loop over services stops at the first kept service with an
    identifier in use, and otherwise stores every kept service. *)
Lemma servicesLoop_spec (h : Host) (c : Config) (file : string)
    (ss : list ServiceConfig) (st : svcState) :
  Abs h (FilePath c) = inl file →
  servicesLoop h c ss st =
  match firstCollision (namesInUse st) (serviceIds <$> matching ss) with
  | Some hit => Err (ErrDuplicate (sortStrings hit))
  | None =>
      Ok (mkSvcState (storeServices c file ss (svcs st))
            (list_to_set (serviceNames (skippedServices ss)) ∪ servicesSkipped st)
            (namesInUse st ∪ list_to_set (concat (serviceIds <$> matching ss))))
  end.
Proof.
  intros Habs. unfold servicesLoop, storeServices. revert st.
  induction ss as [|s ss IH]; intros [sv sk nu]; simpl.
  - f_equal. f_equal; set_solver.
  - unfold serviceStep at 1. rewrite Habs. simpl.
    rewrite matching_cons, skippedServices_cons.
    destruct (sc_MatchesPlatform s) eqn:Hm; simpl.
    + fold (serviceIds s).
      destruct (intersect_cases nu (serviceIds s)) as [[Hf Hi]|(x&l&y&k&Hf&Hi&Hs)];
        unfold serviceIds in *; rewrite Hf, Hi.
      * rewrite IH. simpl. rewrite addToMap_union.
        destruct (firstCollision _ _); [done|]. f_equal. f_equal. set_solver.
      * by rewrite Hs.
    + rewrite IH. simpl. destruct (firstCollision _ _); [done|].
      f_equal. f_equal. unfold serviceNames. set_solver.
Qed.

Lemma servicesLoop_abs_error (h : Host) (c : Config) (e : string)
    (s : ServiceConfig) (ss : list ServiceConfig) (st : svcState) :
  Abs h (FilePath c) = inr e →
  servicesLoop h c (s :: ss) st = Err (ErrAbs e).
Proof. intros Habs. unfold servicesLoop. simpl. unfold serviceStep. by rewrite Habs. Qed.

Lemma servicesLoop_spec_ok (h : Host) (c : Config) (file : string)
    (ss : list ServiceConfig) (st : svcState) :
  (ss ≠ [] → Abs h (FilePath c) = inl file) →
  servicesLoop h c ss st =
  match firstCollision (namesInUse st) (serviceIds <$> matching ss) with
  | Some hit => Err (ErrDuplicate (sortStrings hit))
  | None =>
      Ok (mkSvcState (storeServices c file ss (svcs st))
            (list_to_set (serviceNames (skippedServices ss)) ∪ servicesSkipped st)
            (namesInUse st ∪ list_to_set (concat (serviceIds <$> matching ss))))
  end.
Proof.
  intros Habs. destruct ss as [|s ss].
  - destruct st as [sv sk nu]. unfold servicesLoop, storeServices. simpl.
    f_equal. f_equal; set_solver.
  - apply servicesLoop_spec. by apply Habs.
Qed.

(** *** The first pass over groups *)

(** [s'] is [s] with, at most, its path combined. *)
Definition upToPath (s s' : ServiceConfig) : Prop :=
  s' = s ∨ ∃ p, s' = setPath p s.

#[local] Instance upToPath_refl : Reflexive upToPath.
Proof. intros s. by left. Qed.

#[local] Instance upToPath_trans : Transitive upToPath.
Proof.
  intros s1 s2 s3 [->|[p ->]] [->|[q ->]]; [by left|right; eauto..|].
  right. exists q. by destruct s1.
Qed.

(** The same services under the same keys, up to their paths. *)
Definition samePointers (sv sv' : gmap string ServiceConfig) : Prop :=
  ∀ n, option_Forall2 upToPath (sv !! n) (sv' !! n).

Lemma samePointers_refl (sv : gmap string ServiceConfig) : samePointers sv sv.
Proof. intros n. destruct (sv !! n); constructor. done. Qed.

Lemma samePointers_trans (sv1 sv2 sv3 : gmap string ServiceConfig) :
  samePointers sv1 sv2 → samePointers sv2 sv3 → samePointers sv1 sv3.
Proof. intros H1 H2 n. etrans; [apply H1 | apply H2]. Qed.

Lemma samePointers_dom (sv sv' : gmap string ServiceConfig) :
  samePointers sv sv' → dom sv' = dom sv.
Proof.
  intros H. apply set_eq. intros n. rewrite !elem_of_dom.
  specialize (H n). inversion H; split; intros [? ?]; simplify_eq; eauto; congruence.
Qed.

Lemma samePointers_setPath (sv : gmap string ServiceConfig) (n p : string)
    (s : ServiceConfig) :
  sv !! n = Some s → samePointers sv (<[n := setPath p s]> sv).
Proof.
  intros Hs m. destruct (decide (n = m)) as [->|Hne].
  - rewrite lookup_insert_eq, Hs. constructor. right. eauto.
  - rewrite lookup_insert_ne by done. destruct (sv !! m); constructor. done.
Qed.

Lemma firstPassChildren_spec (h : Host) (c : Config) (skipped : gset string)
    (names : list string) (sv : gmap string ServiceConfig)
    (cs : list ptr) (orph : gset string) :
  ∃ sv', samePointers sv sv' ∧
    firstPassChildren h c skipped names sv cs orph =
    (sv', cs ++ filter (λ n, n ∈ dom sv) names,
     orph ∪ list_to_set (filter (λ n, (n ∉ dom sv) ∧ (n ∉ skipped)) names)).
Proof.
  revert sv cs orph. induction names as [|name names IH]; intros sv cs orph; simpl.
  - exists sv. split; [apply samePointers_refl|].
    rewrite app_nil_r. f_equal. set_solver.
  - rewrite !filter_cons. destruct (sv !! name) as [s|] eqn:Hs.
    + assert (name ∈ dom sv) as Hd by (apply elem_of_dom; eauto).
      set (sv1 := match sc_Path s with
                  | Some p => <[name:=setPath (combinePath h c p) s]> sv
                  | None => sv end).
      assert (samePointers sv sv1) as H1.
      { unfold sv1. destruct (sc_Path s); [by apply samePointers_setPath|].
        apply samePointers_refl. }
      destruct (IH sv1 (cs ++ [name]) orph) as (sv' & H2 & ->).
      exists sv'. split; [by eapply samePointers_trans|].
      rewrite (samePointers_dom _ _ H1).
      rewrite (decide_True (P := name ∈ dom sv)) by done.
      rewrite (decide_False (P := (name ∉ dom sv) ∧ (name ∉ skipped))) by (intros [? ?]; done).
      by rewrite <- app_assoc.
    + assert (name ∉ dom sv) as Hd by (by apply not_elem_of_dom).
      rewrite (decide_False (P := name ∈ dom sv)) by done.
      destruct (decide (name ∈ skipped)) as [Hsk|Hsk].
      * destruct (IH sv cs orph) as (sv' & H2 & ->). exists sv'. split; [done|].
        by rewrite (decide_False (P := (name ∉ dom sv) ∧ (name ∉ skipped)))
          by (intros [? ?]; done).
      * destruct (IH sv cs ({[name]} ∪ orph)) as (sv' & H2 & ->). exists sv'.
        split; [done|].
        rewrite (decide_True (P := (name ∉ dom sv) ∧ (name ∉ skipped))) by done.
        f_equal. set_solver.
Qed.

(** The group objects the first pass builds, for [D] the names of the
    stored services. *)
Definition newGroup (D : gset string) (g : GroupDef) : ServiceGroupConfig :=
  mkServiceGroupConfig (gd_Name g) (gd_Aliases g) (gd_Description g)
    (filter (λ n, n ∈ D) (gd_Children g)) [] (gd_Env g) (gd_Children g).

Definition storeGroups (D : gset string) (gs : list GroupDef)
    (m : gmap string ServiceGroupConfig) : gmap string ServiceGroupConfig :=
  foldl (λ m g, <[gd_Name g := newGroup D g]> m) m gs.

Definition childNames (gs : list GroupDef) : list string := concat (gd_Children <$> gs).

(** The first pass stops at the first group with an identifier in use, and
    otherwise builds every group and collects the children that are no
    service. *)
Lemma firstPass_spec (h : Host) (c : Config) (skipped : gset string)
    (gs : list GroupDef) (st : grpState) :
  ∃ sv', samePointers (g_svcs st) sv' ∧
    firstPass h c skipped gs st =
    match firstCollision (g_namesInUse st) (groupIds <$> gs) with
    | Some hit => Err (ErrDuplicate (sortStrings hit))
    | None =>
        Ok (mkGrpState sv' (storeGroups (dom (g_svcs st)) gs (groups st))
              (orphanNames st ∪
               list_to_set (filter (λ n, (n ∉ dom (g_svcs st)) ∧ (n ∉ skipped)) (childNames gs)))
              (g_namesInUse st ∪ list_to_set (concat (groupIds <$> gs))))
    end.
Proof.
  unfold firstPass, childNames. revert st.
  induction gs as [|g gs IH]; intros [sv gm orph nu]; simpl.
  - exists sv. split; [apply samePointers_refl|]. f_equal. f_equal; set_solver.
  - unfold firstPassGroup at 1. simpl.
    destruct (firstPassChildren_spec h c skipped (gd_Children g) sv [] orph)
      as (sv1 & H1 & ->).
    fold (groupIds g).
    destruct (intersect_cases nu (groupIds g)) as [[Hf Hi]|(x&l&y&k&Hf&Hi&Hs)];
      unfold groupIds in *; rewrite Hf, Hi.
    + destruct (IH (mkGrpState sv1
         (<[gd_Name g := newGroup (dom sv) g]> gm)
         (orph ∪ list_to_set (filter (λ n, (n ∉ dom sv) ∧ (n ∉ skipped)) (gd_Children g)))
         (addToMap nu (gd_Aliases g ++ [gd_Name g])))) as (sv' & H2 & H3).
      exists sv'. split; [by eapply samePointers_trans|].
      etrans; [exact H3|]. simpl.
      rewrite addToMap_union, (samePointers_dom _ _ H1). unfold fmap.
      match goal with |- context [firstCollision ?a ?b] =>
        destruct (firstCollision a b) end; [done|].
      f_equal. f_equal; [|set_solver].
      rewrite filter_app. set_solver.
    + exists sv. split; [apply samePointers_refl|]. by rewrite Hs.
Qed.

(** *** The walk of [hasChildCycle] *)

(** Group [a], as built so far, points to group [b]. *)
Definition edge (gm : gmap string ServiceGroupConfig) (a b : string) : Prop :=
  ∃ g, gm !! a = Some g ∧ b ∈ sg_Groups g.

Definition acyclic (gm : gmap string ServiceGroupConfig) : Prop :=
  ∀ a, ¬ tc (edge gm) a a.

(** No pointer dangles. *)
Definition closed (gm : gmap string ServiceGroupConfig) : Prop :=
  ∀ a b, edge gm a b → b ∈ dom gm.

Lemma hasChildCycle_nil (f : nat) (gm : gmap string ServiceGroupConfig) (p : ptr) :
  hasChildCycle (S f) gm p [] = Some false.
Proof. done. Qed.

Lemma hasChildCycle_cons (f : nat) (gm : gmap string ServiceGroupConfig)
    (p sg : ptr) (rest : list ptr) :
  hasChildCycle (S f) gm p (sg :: rest) =
  if decide (p = sg) then Some true
  else match gm !! sg with
       | None => None
       | Some g =>
           match hasChildCycle f gm p (sg_Groups g) with
           | None => None
           | Some true => Some true
           | Some false => hasChildCycle (S f) gm p rest
           end
       end.
Proof. done. Qed.

(** A walk that answers [true] has reached the parent. *)
Lemma hasChildCycle_true (f : nat) (gm : gmap string ServiceGroupConfig)
    (p : ptr) (cs : list ptr) :
  hasChildCycle f gm p cs = Some true → ∃ c, c ∈ cs ∧ rtc (edge gm) c p.
Proof.
  revert cs. induction f as [|f IHf]; intros cs; [done|].
  induction cs as [|sg rest IHcs]; [done|].
  rewrite hasChildCycle_cons. case_decide as Hp.
  - intros _. exists sg. split; [left|]. by subst.
  - destruct (gm !! sg) as [g|] eqn:Hg; [|done].
    destruct (hasChildCycle f gm p (sg_Groups g)) as [[]|] eqn:Hrec; [| |done].
    + intros _. destruct (IHf _ Hrec) as (c & Hc & Hreach).
      exists sg. split; [left|]. eapply rtc_l; [|done]. by exists g.
    + intros H. destruct (IHcs H) as (c & Hc & Hreach). exists c. split; [by right|done].
Qed.

(** A walk that answers [false] has seen everything reachable. *)
Lemma hasChildCycle_false (f : nat) (gm : gmap string ServiceGroupConfig)
    (p : ptr) (cs : list ptr) :
  hasChildCycle f gm p cs = Some false → ∀ c, c ∈ cs → ¬ rtc (edge gm) c p.
Proof.
  revert cs. induction f as [|f IHf]; intros cs; [done|].
  induction cs as [|sg rest IHcs]; [by intros _ c Hc; inversion Hc|].
  rewrite hasChildCycle_cons. case_decide as Hp; [done|].
  destruct (gm !! sg) as [g|] eqn:Hg; [|done].
  destruct (hasChildCycle f gm p (sg_Groups g)) as [[]|] eqn:Hrec; [done| |done].
  intros H c Hc Hreach. apply elem_of_cons in Hc as [->|Hc].
  - apply rtc_inv in Hreach as [->|(y & [g' [Hg' Hy]] & Hreach)]; [done|].
    simplify_eq. eapply (IHf _ Hrec); eauto.
  - by apply (IHcs H c).
Qed.

Lemma NoDup_length_le_size (P : list string) (X : gset string) :
  NoDup P → (∀ x, x ∈ P → x ∈ X) → length P ≤ size X.
Proof.
  intros Hnd Hsub. rewrite <- (size_list_to_set (C := gset string) P) by done.
  apply subseteq_size. set_solver.
Qed.

(** On acyclic groups without dangling pointers the walk ends within as
    many levels as there are groups, plus one: [P] is the path walked. *)
Lemma hasChildCycle_path (gm : gmap string ServiceGroupConfig) (p : ptr) :
  acyclic gm → closed gm →
  ∀ (f : nat) (P cs : list ptr),
    NoDup P → (∀ q, q ∈ P → q ∈ dom gm) →
    (∀ q c, q ∈ P → c ∈ cs → tc (edge gm) q c) →
    (∀ c, c ∈ cs → c ∈ dom gm) →
    size (dom gm) < length P + f →
    is_Some (hasChildCycle f gm p cs).
Proof.
  intros Hac Hcl. induction f as [|f IHf]; intros P cs Hnd Hdom Hpath Hcs Hlen.
  - pose proof (NoDup_length_le_size P (dom gm) Hnd Hdom). lia.
  - induction cs as [|sg rest IHcs]; [by eexists|].
    rewrite hasChildCycle_cons. case_decide as Hp; [by eexists|].
    assert (sg ∈ dom gm) as Hsg by (apply Hcs; left).
    apply elem_of_dom in Hsg as [g Hg]. rewrite Hg.
    assert (is_Some (hasChildCycle f gm p (sg_Groups g))) as [b Hb].
    { apply (IHf (sg :: P)).
      - constructor; [|done]. intros Hin.
        apply (Hac sg). apply Hpath; [done|left].
      - intros q Hq. apply elem_of_cons in Hq as [->|Hq]; [|by apply Hdom].
        apply elem_of_dom. eauto.
      - intros q c Hq Hc. assert (edge gm sg c) as He by (by exists g).
        apply elem_of_cons in Hq as [->|Hq]; [by apply tc_once|].
        eapply tc_r; [|done]. apply Hpath; [done|left].
      - intros c Hc. apply (Hcl sg). by exists g.
      - simpl. lia. }
    rewrite Hb. destruct b; [by eexists|].
    apply IHcs.
    + intros q c Hq Hc. apply Hpath; [done|by right].
    + intros c Hc. apply Hcs. by right.
Qed.

Lemma hasChildCycle_returns (f : nat) (gm : gmap string ServiceGroupConfig)
    (p : ptr) (cs : list ptr) :
  acyclic gm → closed gm → (∀ c, c ∈ cs → c ∈ dom gm) →
  size (dom gm) < f →
  is_Some (hasChildCycle f gm p cs).
Proof.
  intros Hac Hcl Hcs Hf. apply (hasChildCycle_path gm p Hac Hcl f []); try done.
  - constructor.
  - intros q Hq. inversion Hq.
  - intros q c Hq. inversion Hq.
Qed.

(** *** The second pass: one group *)

Lemma secondPassChildren_spec (f : nat) (gm : gmap string ServiceGroupConfig)
    (gname : string) (names : list string) (cg : list ptr) (orph : gset string) :
  acyclic gm → closed gm → size (dom gm) < f →
  (∀ c, c ∈ cg → c ∈ dom gm) →
  (∀ c, c ∈ cg → ¬ rtc (edge gm) c gname) →
  (secondPassChildren f gm gname names cg orph =
     Some (Ok (cg ++ filter (λ n, n ∈ dom gm) names,
               orph ∖ (list_to_set names ∩ dom gm))) ∧
   ∀ c, c ∈ cg ++ filter (λ n, n ∈ dom gm) names → ¬ rtc (edge gm) c gname)
  ∨
  (secondPassChildren f gm gname names cg orph = Some (Err (ErrCycle gname)) ∧
   ∃ c, c ∈ cg ++ filter (λ n, n ∈ dom gm) names ∧ rtc (edge gm) c gname).
Proof.
  intros Hac Hcl Hf. revert cg orph.
  induction names as [|name rest IH]; intros cg orph Hcg Hno; simpl.
  - left. rewrite app_nil_r. split; [|done]. do 3 f_equal. set_solver.
  - rewrite filter_cons.
    set (cg1 := match gm !! name with Some _ => cg ++ [name] | None => cg end).
    set (orph1 := match gm !! name with Some _ => orph ∖ {[name]} | None => orph end).
    assert (match gm !! name with
            | Some _ => (cg ++ [name], orph ∖ {[name]})
            | None => (cg, orph) end = (cg1, orph1)) as ->.
    { unfold cg1, orph1. by destruct (gm !! name). }
    assert (cg1 ++ filter (λ n, n ∈ dom gm) rest =
            cg ++ (if decide (name ∈ dom gm)
                   then name :: filter (λ n, n ∈ dom gm) rest
                   else filter (λ n, n ∈ dom gm) rest)) as Hcg1.
    { unfold cg1. destruct (gm !! name) as [g|] eqn:Hg.
      - rewrite decide_True by (apply elem_of_dom; eauto). by rewrite <- app_assoc.
      - by rewrite decide_False by (by apply not_elem_of_dom). }
    assert (orph1 ∖ (list_to_set rest ∩ dom gm) =
            orph ∖ (list_to_set (name :: rest) ∩ dom gm)) as Horph1.
    { unfold orph1. destruct (gm !! name) as [g|] eqn:Hg.
      - assert (name ∈ dom gm) by (apply elem_of_dom; eauto). set_solver.
      - assert (name ∉ dom gm) by (by apply not_elem_of_dom). set_solver. }
    assert (∀ c, c ∈ cg1 → c ∈ dom gm) as Hcg1dom.
    { unfold cg1. intros c Hc. destruct (gm !! name) as [g|] eqn:Hg; [|by apply Hcg].
      apply elem_of_app in Hc as [Hc|Hc]; [by apply Hcg|].
      apply list_elem_of_singleton in Hc as ->. apply elem_of_dom. eauto. }
    destruct (hasChildCycle_returns f gm gname cg1 Hac Hcl Hcg1dom Hf) as [b Hb].
    rewrite Hb. destruct b.
    + right. split; [done|].
      destruct (hasChildCycle_true _ _ _ _ Hb) as (x & Hx & Hreach).
      exists x. split; [|done]. rewrite <- Hcg1. apply elem_of_app. by left.
    + pose proof (hasChildCycle_false _ _ _ _ Hb) as Hno1.
      destruct (IH cg1 orph1 Hcg1dom Hno1) as [[-> Hall]|[-> Hex]].
      * left. by rewrite Hcg1, Horph1 in *.
      * right. by rewrite Hcg1 in *.
Qed.

(** Giving group [gname], which points nowhere yet, the children [cg]. *)
Lemma edge_alter (gm : gmap string ServiceGroupConfig) (gname : string)
    (sg : ServiceGroupConfig) (cg : list ptr) (a b : string) :
  gm !! gname = Some sg → sg_Groups sg = [] →
  edge (alter (setGroups cg) gname gm) a b ↔ edge gm a b ∨ (a = gname ∧ b ∈ cg).
Proof.
  intros Hsg Hnil. unfold edge. split.
  - intros (g & Hg & Hb). destruct (decide (a = gname)) as [->|Hne].
    + rewrite lookup_alter_eq, Hsg in Hg. simpl in Hg. simplify_eq. by right.
    + rewrite lookup_alter_ne in Hg by done. left. eauto.
  - intros [(g & Hg & Hb)|[-> Hb]].
    + destruct (decide (a = gname)) as [->|Hne].
      * simplify_eq. rewrite Hnil in Hb. inversion Hb.
      * exists g. by rewrite lookup_alter_ne.
    + exists (setGroups cg sg). by rewrite lookup_alter_eq, Hsg.
Qed.

(** A walk that reaches [gname] over the new pointers reaches it over the
    old ones: the new pointers all leave [gname]. *)
Lemma rtc_edge_alter (gm : gmap string ServiceGroupConfig) (gname : string)
    (sg : ServiceGroupConfig) (cg : list ptr) (c : string) :
  gm !! gname = Some sg → sg_Groups sg = [] →
  rtc (edge (alter (setGroups cg) gname gm)) c gname → rtc (edge gm) c gname.
Proof.
  intros Hsg Hnil. revert c. apply rtc_ind_l; [done|].
  intros x y Hxy _ IH.
  apply (edge_alter _ _ _ _ _ _ Hsg Hnil) in Hxy as [Hxy|[-> _]]; [|done].
  by eapply rtc_l.
Qed.

Lemma tc_edge_alter (gm : gmap string ServiceGroupConfig) (gname : string)
    (sg : ServiceGroupConfig) (cg : list ptr) (a b : string) :
  gm !! gname = Some sg → sg_Groups sg = [] →
  tc (edge (alter (setGroups cg) gname gm)) a b →
  tc (edge gm) a b ∨
  ∃ c, c ∈ cg ∧ rtc (edge (alter (setGroups cg) gname gm)) c b ∧
       rtc (edge (alter (setGroups cg) gname gm)) a gname.
Proof.
  intros Hsg Hnil Htc.
  assert (∀ x y, edge gm x y → edge (alter (setGroups cg) gname gm) x y) as Hsub.
  { intros x y Hxy. apply (edge_alter _ _ _ _ _ _ Hsg Hnil). by left. }
  induction Htc as [x y Hxy|x y z Hxy Hyz IH].
  - apply (edge_alter _ _ _ _ _ _ Hsg Hnil) in Hxy as [Hxy|[-> Hy]].
    + left. by apply tc_once.
    + right. exists y. done.
  - destruct IH as [IH|(c & Hc & Hcz & Hyg)].
    + apply (edge_alter _ _ _ _ _ _ Hsg Hnil) in Hxy as [Hxy|[-> Hy]].
      * left. by eapply tc_l.
      * right. exists y. split; [done|]. split; [|done].
        eapply rtc_subrel; [exact Hsub|]. by apply tc_rtc.
    + right. exists c. split; [done|]. split; [done|]. by eapply rtc_l.
Qed.

Lemma acyclic_alter (gm : gmap string ServiceGroupConfig) (gname : string)
    (sg : ServiceGroupConfig) (cg : list ptr) :
  gm !! gname = Some sg → sg_Groups sg = [] → acyclic gm →
  (∀ c, c ∈ cg → ¬ rtc (edge gm) c gname) →
  acyclic (alter (setGroups cg) gname gm).
Proof.
  intros Hsg Hnil Hac Hno a Hcyc.
  destruct (tc_edge_alter _ _ _ _ _ _ Hsg Hnil Hcyc) as [Hold|(c & Hc & Hca & Hag)].
  - by apply (Hac a).
  - apply (Hno c Hc). eapply rtc_edge_alter; [done..|]. by etrans.
Qed.

(** *** The second pass: the loop *)

(** Where the second pass stands: the groups of [past] point to their
    group children, those of [todo] point nowhere yet. *)
Record passInv (all past todo : list GroupDef)
    (gm : gmap string ServiceGroupConfig) : Prop := mkPassInv {
  inv_split : all = past ++ todo;
  inv_nodup : NoDup (groupNames all);
  inv_dom : dom gm = list_to_set (groupNames all);
  inv_acyclic : acyclic gm;
  inv_done : ∀ g, g ∈ past → ∃ sg, gm !! gd_Name g = Some sg ∧
               sg_Groups sg = filter (λ n, n ∈ dom gm) (gd_Children g);
  inv_todo : ∀ g, g ∈ todo → ∃ sg, gm !! gd_Name g = Some sg ∧ sg_Groups sg = []
}.

Lemma elem_of_groupNames (gs : list GroupDef) (n : string) :
  n ∈ groupNames gs ↔ ∃ g, g ∈ gs ∧ gd_Name g = n.
Proof. unfold groupNames. rewrite list_elem_of_fmap. naive_solver. Qed.

Lemma passInv_contains (all past todo : list GroupDef)
    (gm : gmap string ServiceGroupConfig) (a b : string) :
  passInv all past todo gm → edge gm a b → contains all a b.
Proof.
  intros [Hsplit Hnd Hdom Hac Hdone Htodo] (sg & Hsg & Hb).
  assert (a ∈ dom gm) as Ha by (apply elem_of_dom; eauto).
  rewrite Hdom, elem_of_list_to_set, elem_of_groupNames in Ha.
  destruct Ha as (g & Hg & <-).
  assert (g ∈ past ∨ g ∈ todo) as [Hin|Hin] by (subst all; by apply elem_of_app).
  - destruct (Hdone g Hin) as (sg' & Hsg' & Hgr). simplify_eq.
    rewrite Hgr in Hb. apply list_elem_of_filter in Hb as [Hbd Hbc].
    exists g. repeat split; try done.
    by rewrite Hdom, elem_of_list_to_set in Hbd.
  - destruct (Htodo g Hin) as (sg' & Hsg' & Hgr). simplify_eq.
    rewrite Hgr in Hb. inversion Hb.
Qed.

Lemma passInv_closed (all past todo : list GroupDef)
    (gm : gmap string ServiceGroupConfig) :
  passInv all past todo gm → closed gm.
Proof.
  intros Hinv a b Hab. destruct (passInv_contains _ _ _ _ _ _ Hinv Hab) as (g & _ & _ & _ & Hb).
  by rewrite (inv_dom _ _ _ _ Hinv), elem_of_list_to_set.
Qed.

Lemma passInv_step (all past todo : list GroupDef) (g : GroupDef)
    (gm : gmap string ServiceGroupConfig) :
  passInv all past (g :: todo) gm →
  (∀ c, c ∈ filter (λ n, n ∈ dom gm) (gd_Children g) → ¬ rtc (edge gm) c (gd_Name g)) →
  passInv all (past ++ [g]) todo
    (alter (setGroups (filter (λ n, n ∈ dom gm) (gd_Children g))) (gd_Name g) gm).
Proof.
  intros [Hsplit Hnd Hdom Hac Hdone Htodo] Hno.
  destruct (Htodo g) as (sg & Hsg & Hnil); [left|].
  assert (∀ g', g' ∈ past ∨ g' ∈ todo → gd_Name g' ≠ gd_Name g) as Hne.
  { intros g' Hin Heq. unfold groupNames in Hnd. rewrite Hsplit in Hnd.
    rewrite fmap_app, fmap_cons in Hnd.
    apply NoDup_app in Hnd as (_ & Hdisj & Hnd2).
    apply NoDup_cons in Hnd2 as [Hnotin _].
    destruct Hin as [Hin|Hin].
    - apply (Hdisj (gd_Name g')); [by apply list_elem_of_fmap_2|]. rewrite Heq. left.
    - apply Hnotin. rewrite <- Heq. by apply list_elem_of_fmap_2. }
  split.
  - by rewrite <- app_assoc.
  - done.
  - by rewrite dom_alter_L.
  - by eapply acyclic_alter.
  - intros g' Hin. rewrite dom_alter_L. apply elem_of_app in Hin as [Hin|Hin].
    + destruct (Hdone g' Hin) as (sg' & Hsg' & Hgr). exists sg'.
      rewrite lookup_alter_ne by (apply not_eq_sym, Hne; by left). done.
    + apply list_elem_of_singleton in Hin as ->.
      exists (setGroups (filter (λ n, n ∈ dom gm) (gd_Children g)) sg).
      by rewrite lookup_alter_eq, Hsg.
  - intros g' Hin. destruct (Htodo g') as (sg' & Hsg' & Hgr); [by right|].
    exists sg'. rewrite lookup_alter_ne by (apply not_eq_sym, Hne; by right). done.
Qed.

(** A group object with, at most, other group children. *)
Definition upToGroups (sg sg' : ServiceGroupConfig) : Prop :=
  ∃ cg, sg' = setGroups cg sg.

Definition sameGroups (gm gm' : gmap string ServiceGroupConfig) : Prop :=
  ∀ n, option_Forall2 upToGroups (gm !! n) (gm' !! n).

Lemma sameGroups_refl (gm : gmap string ServiceGroupConfig) : sameGroups gm gm.
Proof.
  intros n. destruct (gm !! n) as [sg|]; constructor.
  exists (sg_Groups sg). by destruct sg.
Qed.

Lemma sameGroups_trans (gm1 gm2 gm3 : gmap string ServiceGroupConfig) :
  sameGroups gm1 gm2 → sameGroups gm2 gm3 → sameGroups gm1 gm3.
Proof.
  intros H1 H2 n. specialize (H1 n). specialize (H2 n).
  destruct H1 as [sg1 sg2 [cg1 ->]|]; inversion H2 as [? sg3 [cg2 ->]|]; constructor.
  by exists cg2.
Qed.

Lemma sameGroups_alter (gm : gmap string ServiceGroupConfig) (n : string) (cg : list ptr) :
  sameGroups gm (alter (setGroups cg) n gm).
Proof.
  intros m. destruct (decide (n = m)) as [->|Hne].
  - rewrite lookup_alter_eq. destruct (gm !! m); constructor. by exists cg.
  - rewrite lookup_alter_ne by done. apply sameGroups_refl.
Qed.

Lemma childNames_cons (g : GroupDef) (gs : list GroupDef) :
  childNames (g :: gs) = gd_Children g ++ childNames gs.
Proof. done. Qed.

(** The second pass returns: with every group pointing to its group
    children and no group containing itself, or with the cycle error of a
    group that contains itself. *)
Lemma secondPass_spec (all : list GroupDef) (f : nat) (todo past : list GroupDef)
    (gm : gmap string ServiceGroupConfig) (orph : gset string) :
  passInv all past todo gm → size (dom gm) < f →
  (∃ gm', secondPass f todo gm orph =
            Some (Ok (gm', orph ∖ (list_to_set (childNames todo) ∩ dom gm))) ∧
          passInv all all [] gm' ∧ sameGroups gm gm')
  ∨
  (∃ n, secondPass f todo gm orph = Some (Err (ErrCycle n)) ∧ containsItself all n).
Proof.
  revert past gm orph. induction todo as [|g todo IH]; intros past gm orph Hinv Hf.
  - left. exists gm. simpl. split; [do 3 f_equal; set_solver|].
    split; [|apply sameGroups_refl].
    destruct Hinv as [Hsplit ? ? ? ? ?]. rewrite app_nil_r in Hsplit. subst past.
    split; try done. by rewrite app_nil_r.
  - simpl.
    destruct (secondPassChildren_spec f gm (gd_Name g) (gd_Children g) [] orph)
      as [[Heq Hno]|[Heq (c & Hc & Hreach)]].
    + apply (inv_acyclic _ _ _ _ Hinv).
    + by eapply passInv_closed.
    + done.
    + intros c Hc. inversion Hc.
    + intros c Hc. inversion Hc.
    + rewrite Heq. simpl in *.
      pose proof (passInv_step _ _ _ _ _ Hinv Hno) as Hinv1.
      set (gm1 := alter (setGroups (filter (λ n, n ∈ dom gm) (gd_Children g))) (gd_Name g) gm) in *.
      assert (dom gm1 = dom gm) as Hdom1 by apply dom_alter_L.
      destruct (IH _ gm1 (orph ∖ (list_to_set (gd_Children g) ∩ dom gm)) Hinv1)
        as [(gm' & -> & Hfin & Hsame)|(n & -> & Hn)]; [by rewrite Hdom1| |].
      * left. exists gm'. split; [|split; [done|]].
        -- do 3 f_equal. rewrite Hdom1, childNames_cons. set_solver.
        -- eapply sameGroups_trans; [|done]. apply sameGroups_alter.
      * right. by exists n.
    + right. exists (gd_Name g). rewrite Heq. split; [done|]. simpl in Hc.
      apply list_elem_of_filter in Hc as [Hcd Hcc].
      eapply tc_rtc_r.
      * apply tc_once. exists g. repeat split; try done.
        -- rewrite (inv_split _ _ _ _ Hinv). apply elem_of_app. right. left.
        -- by rewrite (inv_dom _ _ _ _ Hinv), elem_of_list_to_set in Hcd.
      * eapply rtc_subrel; [|done]. intros x y. by eapply passInv_contains.
Qed.

(** *** Definitions without collision *)

Lemma firstCollision_None_inv (inUse : gset string) (ids : list string)
    (rest : list (list string)) :
  firstCollision inUse (ids :: rest) = None →
  (∀ x, x ∈ ids → x ∉ inUse) ∧ firstCollision (inUse ∪ list_to_set ids) rest = None.
Proof.
  simpl. destruct (filter (λ v, v ∈ inUse) ids) as [|y l] eqn:Hf; [|done].
  intros H. split; [|done]. intros x Hx Hin.
  assert (x ∈ filter (λ v, v ∈ inUse) ids) as Hxf by (by apply list_elem_of_filter).
  rewrite Hf in Hxf. inversion Hxf.
Qed.

(** Without collision no name comes twice, and none is in use before. *)
Lemma firstCollision_None_names {A : Type} (ids : A → list string) (name : A → string)
    (inUse : gset string) (l : list A) :
  (∀ a, name a ∈ ids a) →
  firstCollision inUse (ids <$> l) = None →
  NoDup (name <$> l) ∧ ∀ a, a ∈ l → name a ∉ inUse.
Proof.
  intros Hname. revert inUse. induction l as [|a l IH]; intros inUse Hnone.
  - split; [constructor|]. intros a Ha. inversion Ha.
  - rewrite fmap_cons in Hnone. apply firstCollision_None_inv in Hnone as [Hfresh Hrest].
    destruct (IH _ Hrest) as [Hnd Hl]. split.
    + rewrite fmap_cons. constructor; [|done].
      intros Hin. apply list_elem_of_fmap in Hin as (b & Hb & Hbl).
      apply (Hl b Hbl). rewrite <- Hb. specialize (Hname a). set_solver.
    + intros b Hb. apply elem_of_cons in Hb as [->|Hb]; [by apply Hfresh|].
      specialize (Hl b Hb). set_solver.
Qed.

Lemma serviceIds_name (s : ServiceConfig) : sc_Name s ∈ serviceIds s.
Proof. unfold serviceIds. set_solver. Qed.

Lemma groupIds_name (g : GroupDef) : gd_Name g ∈ groupIds g.
Proof. unfold groupIds. set_solver. Qed.

(** *** What the loops have stored *)

Lemma storeGroups_lookup_notin (D : gset string) (gs : list GroupDef)
    (m : gmap string ServiceGroupConfig) (n : string) :
  n ∉ groupNames gs → storeGroups D gs m !! n = m !! n.
Proof.
  unfold storeGroups, groupNames. revert m.
  induction gs as [|g gs IH]; intros m Hn; simpl; [done|].
  rewrite fmap_cons, not_elem_of_cons in Hn. destruct Hn as [Hne Hn].
  rewrite IH by done. by rewrite lookup_insert_ne.
Qed.

Lemma storeGroups_lookup (D : gset string) (gs : list GroupDef)
    (m : gmap string ServiceGroupConfig) (g : GroupDef) :
  NoDup (groupNames gs) → g ∈ gs →
  storeGroups D gs m !! gd_Name g = Some (newGroup D g).
Proof.
  unfold groupNames. revert m. induction gs as [|g0 gs IH]; intros m Hnd Hg.
  - inversion Hg.
  - rewrite fmap_cons in Hnd. apply NoDup_cons in Hnd as [Hnotin Hnd].
    apply elem_of_cons in Hg as [->|Hg].
    + change (storeGroups D (g0 :: gs) m) with
        (storeGroups D gs (<[gd_Name g0 := newGroup D g0]> m)).
      rewrite storeGroups_lookup_notin by done. by rewrite lookup_insert_eq.
    + by apply IH.
Qed.

Lemma storeGroups_dom (D : gset string) (gs : list GroupDef)
    (m : gmap string ServiceGroupConfig) :
  dom (storeGroups D gs m) = dom m ∪ list_to_set (groupNames gs).
Proof.
  unfold storeGroups, groupNames. revert m.
  induction gs as [|g gs IH]; intros m; simpl; [set_solver|].
  rewrite IH, dom_insert_L. set_solver.
Qed.

Lemma storeList_lookup_notin (c : Config) (file : string) (l : list ServiceConfig)
    (m : gmap string ServiceConfig) (n : string) :
  n ∉ serviceNames l →
  foldl (λ m s, <[sc_Name s := mergeService c file s]> m) m l !! n = m !! n.
Proof.
  unfold serviceNames. revert m.
  induction l as [|s l IH]; intros m Hn; simpl; [done|].
  rewrite fmap_cons, not_elem_of_cons in Hn. destruct Hn as [Hne Hn].
  rewrite IH by done. by rewrite lookup_insert_ne.
Qed.

Lemma storeList_lookup (c : Config) (file : string) (l : list ServiceConfig)
    (m : gmap string ServiceConfig) (s : ServiceConfig) :
  NoDup (serviceNames l) → s ∈ l →
  foldl (λ m s, <[sc_Name s := mergeService c file s]> m) m l !! sc_Name s =
  Some (mergeService c file s).
Proof.
  unfold serviceNames. revert m. induction l as [|s0 l IH]; intros m Hnd Hs.
  - inversion Hs.
  - rewrite fmap_cons in Hnd. apply NoDup_cons in Hnd as [Hnotin Hnd].
    apply elem_of_cons in Hs as [->|Hs]; simpl.
    + rewrite storeList_lookup_notin by done. by rewrite lookup_insert_eq.
    + by apply IH.
Qed.

Lemma storeServices_lookup_notin (c : Config) (file : string) (ss : list ServiceConfig)
    (m : gmap string ServiceConfig) (n : string) :
  n ∉ serviceNames (matching ss) → storeServices c file ss m !! n = m !! n.
Proof. apply storeList_lookup_notin. Qed.

Lemma storeServices_lookup (c : Config) (file : string) (ss : list ServiceConfig)
    (m : gmap string ServiceConfig) (s : ServiceConfig) :
  NoDup (serviceNames (matching ss)) → s ∈ matching ss →
  storeServices c file ss m !! sc_Name s = Some (mergeService c file s).
Proof. apply storeList_lookup. Qed.

Lemma storeServices_dom (c : Config) (file : string) (ss : list ServiceConfig)
    (m : gmap string ServiceConfig) :
  dom (storeServices c file ss m) = dom m ∪ list_to_set (serviceNames (matching ss)).
Proof.
  unfold storeServices, serviceNames. revert m.
  induction (matching ss) as [|s l IH]; intros m; simpl; [set_solver|].
  rewrite IH, dom_insert_L. set_solver.
Qed.

(** The second pass starts from groups that point nowhere. *)
Lemma passInv_start (D : gset string) (gs : list GroupDef) :
  NoDup (groupNames gs) → passInv gs [] gs (storeGroups D gs ∅).
Proof.
  intros Hnd. split; try done.
  - rewrite storeGroups_dom, dom_empty_L. set_solver.
  - intros a Hcyc.
    assert (∃ y, edge (storeGroups D gs ∅) a y) as (y & sg & Hsg & Hy).
    { inversion Hcyc; eauto. }
    assert (a ∈ dom (storeGroups D gs ∅)) as Ha by (apply elem_of_dom; eauto).
    rewrite storeGroups_dom, dom_empty_L, (left_id_L ∅ (∪)), elem_of_list_to_set,
      elem_of_groupNames in Ha.
    destruct Ha as (g & Hg & <-). rewrite storeGroups_lookup in Hsg by done.
    simplify_eq. inversion Hy.
  - intros g Hg. inversion Hg.
  - intros g Hg. exists (newGroup D g). by rewrite storeGroups_lookup.
Qed.

Lemma size_groups_lt (D : gset string) (gs : list GroupDef) :
  NoDup (groupNames gs) → size (dom (storeGroups D gs ∅)) < S (length gs).
Proof.
  intros Hnd. rewrite storeGroups_dom, dom_empty_L, (left_id_L ∅ (∪)).
  rewrite size_list_to_set by done. unfold groupNames. rewrite length_fmap. lia.
Qed.

(** *** [initMaps] as a whole *)

(** The orphans, as a set. *)
Definition orphanSet (c : Config) : gset string :=
  list_to_set
    (filter (λ n, (n ∉ serviceNames (allServices c)) ∧ (n ∉ groupNames (allGroups c)))
       (childNames (allGroups c))).

Lemma elem_of_childNames (gs : list GroupDef) (n : string) :
  n ∈ childNames gs ↔ ∃ g, g ∈ gs ∧ n ∈ gd_Children g.
Proof.
  unfold childNames. induction gs as [|g gs IH]; simpl.
  - split; [intros H; inversion H|]. intros (g & Hg & _). inversion Hg.
  - rewrite elem_of_app, IH. split.
    + intros [H|(g' & Hg' & H)]; [exists g; split; [left|done]|].
      exists g'. split; [by right|done].
    + intros (g' & Hg' & H). apply elem_of_cons in Hg' as [->|Hg']; [by left|].
      right. eauto.
Qed.

Lemma elem_of_orphanSet (c : Config) (n : string) : n ∈ orphanSet c ↔ orphan c n.
Proof.
  unfold orphanSet, orphan.
  rewrite elem_of_list_to_set, list_elem_of_filter, elem_of_childNames. tauto.
Qed.

Lemma elem_of_serviceNames_split (ss : list ServiceConfig) (n : string) :
  n ∈ serviceNames ss ↔
  n ∈ serviceNames (matching ss) ∨ n ∈ serviceNames (skippedServices ss).
Proof.
  unfold serviceNames, matching, skippedServices.
  rewrite !list_elem_of_fmap. setoid_rewrite list_elem_of_filter. split.
  - intros (s & -> & Hs). destruct (sc_MatchesPlatform s) eqn:Hm.
    + left. exists s. by rewrite Hm.
    + right. exists s. by rewrite Hm.
  - intros [(s & -> & _ & Hs)|(s & -> & _ & Hs)]; eauto.
Qed.

(** No group of a finished second pass contains itself. *)
Lemma passInv_final_acyclic (all : list GroupDef) (gm : gmap string ServiceGroupConfig) :
  passInv all all [] gm → ∀ n, ¬ containsItself all n.
Proof.
  intros Hinv n Hcyc. apply (inv_acyclic _ _ _ _ Hinv n).
  assert (∀ a b, contains all a b → edge gm a b) as Hsub.
  { intros a b (g & Hg & <- & Hb & Hbn).
    destruct (inv_done _ _ _ _ Hinv g Hg) as (sg & Hsg & Hgr).
    exists sg. split; [done|]. rewrite Hgr. apply list_elem_of_filter. split; [|done].
    by rewrite (inv_dom _ _ _ _ Hinv), elem_of_list_to_set. }
  assert (∀ a b, tc (contains all) a b → tc (edge gm) a b) as Htc; [|by apply Htc].
  intros a b Hab. induction Hab as [a b Hab|a b d Hab _ IH].
  - apply tc_once. by apply Hsub.
  - eapply tc_l; [by apply Hsub|done].
Qed.

(** What a successful resolution has put in the two maps. *)
Record resolved (c : Config) (file : string) (sm : gmap string ServiceConfig)
    (gm : gmap string ServiceGroupConfig) : Prop := mkResolved {
  res_services : samePointers (storeServices c file (allServices c) ∅) sm;
  res_names : NoDup (serviceNames (matching (allServices c)));
  res_groups : sameGroups (storeGroups (dom sm) (allGroups c) ∅) gm;
  res_inv : passInv (allGroups c) (allGroups c) [] gm
}.

(** Every way [initMaps] returns, when the path of the configuration file
    can be made absolute (or is never asked for). *)
Lemma initMaps_spec (h : Host) (c : Config) (file : string) :
  absOk h c file →
  match firstCollision ∅ (claimedIds c) with
  | Some hit => initMaps h c = Some (c, Some (ErrDuplicate (sortStrings hit)))
  | None =>
      (∃ n, initMaps h c = Some (c, Some (ErrCycle n)) ∧ containsItself (allGroups c) n)
      ∨
      ((∀ n, ¬ containsItself (allGroups c) n) ∧
       if decide (orphanSet c = ∅)
       then ∃ sm gm, initMaps h c = Some (setMaps sm gm c, None) ∧ resolved c file sm gm
       else initMaps h c = Some (c, Some (ErrOrphans (rangeKeys h (orphanSet c)))))
  end.
Proof.
  intros Habs. unfold claimedIds. rewrite firstCollision_app.
  pose proof (servicesLoop_spec_ok h c file (allServices c) (mkSvcState ∅ ∅ ∅) Habs) as HS.
  cbn [svcs servicesSkipped namesInUse] in HS.
  destruct (firstPass_spec h c
              (list_to_set (serviceNames (skippedServices (allServices c))) ∪ ∅)
              (allGroups c)
              (mkGrpState (storeServices c file (allServices c) ∅) ∅ ∅
                 (∅ ∪ list_to_set (concat (serviceIds <$> matching (allServices c))))))
    as (sv' & Hsame & HF).
  cbn [g_svcs groups orphanNames g_namesInUse] in HF, Hsame.
  destruct (firstCollision ∅ (serviceIds <$> matching (allServices c))) as [hit|] eqn:HA.
  { unfold initMaps, initMapsWith. by rewrite HS. }
  destruct (firstCollision_None_names serviceIds sc_Name _ _ serviceIds_name HA)
    as [HndS _].
  destruct (firstCollision _ (groupIds <$> allGroups c)) as [hit|] eqn:HB.
  { unfold initMaps, initMapsWith. rewrite HS.
    cbn [svcs servicesSkipped namesInUse]. by rewrite HF. }
  destruct (firstCollision_None_names groupIds gd_Name _ _ groupIds_name HB)
    as [HndG _].
  set (D := dom (storeServices c file (allServices c) ∅)) in *.
  set (orph1 := (∅ ∪ list_to_set (filter _ (childNames (allGroups c))) : gset string)) in *.
  assert (orph1 ∖ (list_to_set (childNames (allGroups c)) ∩
                   dom (storeGroups D (allGroups c) ∅)) = orphanSet c) as Horph.
  { apply set_eq. intros n. rewrite elem_of_orphanSet. unfold orphan, orph1, D.
    rewrite storeGroups_dom, storeServices_dom, !dom_empty_L.
    rewrite elem_of_difference, elem_of_intersection, !elem_of_union,
      !elem_of_list_to_set, list_elem_of_filter, elem_of_childNames,
      elem_of_serviceNames_split, !elem_of_union, !elem_of_list_to_set.
    set_solver. }
  destruct (secondPass_spec (allGroups c) (S (length (allGroups c))) (allGroups c) []
              (storeGroups D (allGroups c) ∅) orph1
              (passInv_start D _ HndG) (size_groups_lt D _ HndG))
    as [(gm' & HP & Hfin & Hsg)|(n & HP & Hn)].
  - right. split; [by eapply passInv_final_acyclic|]. rewrite Horph in HP.
    unfold initMaps, initMapsWith. rewrite HS.
    cbn [svcs servicesSkipped namesInUse]. rewrite HF.
    cbn [g_svcs groups orphanNames g_namesInUse]. rewrite HP.
    destruct (decide (orphanSet c = ∅)) as [He|Hne].
    + rewrite He, size_empty. simpl. exists sv', gm'. split; [done|].
      split; try done. by rewrite (samePointers_dom _ _ Hsame).
    + rewrite decide_True; [done|].
      assert (size (orphanSet c) ≠ 0); [|lia].
      rewrite size_non_empty_iff. by intros ?%leibniz_equiv.
  - left. exists n. split; [|done].
    unfold initMaps, initMapsWith. rewrite HS.
    cbn [svcs servicesSkipped namesInUse]. rewrite HF.
    cbn [g_svcs groups orphanNames g_namesInUse]. by rewrite HP.
Qed.

Lemma initMaps_abs_error (h : Host) (c : Config) (e : string) :
  Abs h (FilePath c) = inr e → allServices c ≠ [] →
  initMaps h c = Some (c, Some (ErrAbs e)).
Proof.
  intros Habs Hne. unfold initMaps, initMapsWith.
  destruct (allServices c) as [|s ss]; [done|].
  by rewrite (servicesLoop_abs_error h c e s ss _ Habs).
Qed.

(** The five ways [initMaps] returns. *)
Inductive outcome (h : Host) (c : Config) : option (Config * option error) → Prop :=
| out_abs (e : string) :
    allServices c ≠ [] → Abs h (FilePath c) = inr e →
    outcome h c (Some (c, Some (ErrAbs e)))
| out_duplicate (file : string) (hit : list string) :
    absOk h c file → firstCollision ∅ (claimedIds c) = Some hit →
    outcome h c (Some (c, Some (ErrDuplicate (sortStrings hit))))
| out_cycle (file : string) (n : string) :
    absOk h c file → firstCollision ∅ (claimedIds c) = None →
    containsItself (allGroups c) n →
    outcome h c (Some (c, Some (ErrCycle n)))
| out_orphans (file : string) :
    absOk h c file → firstCollision ∅ (claimedIds c) = None →
    (∀ n, ¬ containsItself (allGroups c) n) → orphanSet c ≠ ∅ →
    outcome h c (Some (c, Some (ErrOrphans (rangeKeys h (orphanSet c)))))
| out_resolved (file : string) (sm : gmap string ServiceConfig)
    (gm : gmap string ServiceGroupConfig) :
    absOk h c file → firstCollision ∅ (claimedIds c) = None →
    (∀ n, ¬ containsItself (allGroups c) n) → orphanSet c = ∅ →
    resolved c file sm gm →
    outcome h c (Some (setMaps sm gm c, None)).

Lemma initMaps_outcome (h : Host) (c : Config) : outcome h c (initMaps h c).
Proof.
  assert ((∃ file, absOk h c file) ∨
          (∃ e, allServices c ≠ [] ∧ Abs h (FilePath c) = inr e)) as [[file Hok]|(e & Hne & He)].
  { unfold absOk. destruct (Abs h (FilePath c)) as [file|e] eqn:Habs.
    - left. by exists file.
    - destruct (allServices c) as [|s ss] eqn:Hss.
      + left. by exists EmptyString.
      + right. by exists e. }
  - pose proof (initMaps_spec h c file Hok) as Hspec.
    destruct (firstCollision ∅ (claimedIds c)) as [hit|] eqn:Hfc.
    + rewrite Hspec. by eapply out_duplicate.
    + destruct Hspec as [(n & -> & Hn)|[Hac Hrest]]; [by eapply out_cycle|].
      destruct (decide (orphanSet c = ∅)) as [He|Hne].
      * destruct Hrest as (sm & gm & -> & Hres). by eapply out_resolved.
      * rewrite Hrest. by eapply out_orphans.
  - rewrite (initMaps_abs_error h c e He Hne). by apply out_abs.
Qed.

(** [initMaps] returns: [hasChildCycle] is never short of levels. *)
Lemma initMaps_returns (h : Host) (c : Config) : is_Some (initMaps h c).
Proof. destruct (initMaps_outcome h c); by eexists. Qed.

(** More levels change nothing. *)
Lemma hasChildCycle_more (f f' : nat) (gm : gmap string ServiceGroupConfig)
    (p : ptr) (cs : list ptr) (b : bool) :
  f ≤ f' → hasChildCycle f gm p cs = Some b → hasChildCycle f' gm p cs = Some b.
Proof.
  revert f' cs b. induction f as [|f IHf]; intros f' cs b Hle; [done|].
  destruct f' as [|f']; [lia|].
  induction cs as [|sg rest IHcs]; [done|].
  rewrite !hasChildCycle_cons. case_decide; [done|].
  destruct (gm !! sg) as [g|]; [|done].
  destruct (hasChildCycle f gm p (sg_Groups g)) as [b'|] eqn:Hrec; [|done].
  rewrite (IHf f' _ b') by (done || lia). destruct b'; [done|]. apply IHcs.
Qed.

(** *** Collisions, said without the loop *)

Lemma firstCollision_None_intro (inUse : gset string) (defs : list (list string)) :
  (∀ d x, d ∈ defs → x ∈ d → x ∉ inUse) → (∀ x, ¬ colliding defs x) →
  firstCollision inUse defs = None.
Proof.
  revert inUse. induction defs as [|ids rest IH]; intros inUse Hfresh Hno; [done|].
  simpl. destruct (filter (λ v, v ∈ inUse) ids) as [|y l] eqn:Hf.
  - apply IH.
    + intros d x Hd Hx. rewrite not_elem_of_union. split.
      * apply (Hfresh d x); [by right|done].
      * rewrite elem_of_list_to_set. intros Hxi. apply (Hno x).
        apply list_elem_of_split in Hd as (pre & post & ->).
        exists (ids :: pre), d, post. split; [done|]. split; [done|].
        simpl. apply elem_of_app. by left.
    + intros x (pre & d & post & -> & Hx & Hpre). apply (Hno x).
      exists (ids :: pre), d, post. split; [done|]. split; [done|].
      simpl. apply elem_of_app. by right.
  - assert (y ∈ filter (λ v, v ∈ inUse) ids) as Hy by (rewrite Hf; left).
    apply list_elem_of_filter in Hy as [Hy1 Hy2].
    exfalso. apply (Hfresh ids y); [left|done..].
Qed.

(** The first definition that collides, and what of it collides. *)
Lemma firstCollision_at (pre : list (list string)) (d : list string)
    (post : list (list string)) :
  (∀ x, ¬ colliding pre x) → filter (λ v, v ∈ concat pre) d ≠ [] →
  firstCollision ∅ (pre ++ d :: post) = Some (filter (λ v, v ∈ concat pre) d).
Proof.
  intros Hno Hhit. rewrite firstCollision_app.
  rewrite firstCollision_None_intro; [|set_solver|done]. simpl.
  assert (filter (λ v, v ∈ (∅ ∪ list_to_set (concat pre) : gset string)) d =
          filter (λ v, v ∈ concat pre) d) as ->.
  { apply list_filter_iff. intros x. set_solver. }
  by destruct (filter (λ v, v ∈ concat pre) d).
Qed.

Lemma secondPassChildren_more (f f' : nat) (gm : gmap string ServiceGroupConfig)
    (gname : string) (names : list string) (cg : list ptr) (orph : gset string)
    (r : result (list ptr * gset string)) :
  f ≤ f' → secondPassChildren f gm gname names cg orph = Some r →
  secondPassChildren f' gm gname names cg orph = Some r.
Proof.
  intros Hle. revert cg orph. induction names as [|name rest IH]; intros cg orph; [done|].
  simpl. destruct (match gm !! name with
                   | Some _ => (cg ++ [name], orph ∖ {[name]})
                   | None => (cg, orph) end) as [cg1 orph1].
  destruct (hasChildCycle f gm gname cg1) as [b|] eqn:Hb; [|done].
  rewrite (hasChildCycle_more f f' _ _ _ b Hle Hb). destruct b; [done|]. apply IH.
Qed.

Lemma secondPass_more (f f' : nat) (gs : list GroupDef)
    (gm : gmap string ServiceGroupConfig) (orph : gset string)
    (r : result (gmap string ServiceGroupConfig * gset string)) :
  f ≤ f' → secondPass f gs gm orph = Some r → secondPass f' gs gm orph = Some r.
Proof.
  intros Hle. revert gm orph. induction gs as [|g gs IH]; intros gm orph; [done|].
  simpl. destruct (secondPassChildren f gm (gd_Name g) (gd_Children g) [] orph)
    as [r1|] eqn:Hr1; [|done].
  rewrite (secondPassChildren_more f f' _ _ _ _ _ r1 Hle Hr1).
  destruct r1 as [[cg orph1]|e]; [|done]. apply IH.
Qed.

(** Any allowance of levels above the one [initMaps] takes gives the result
    of [initMaps]. *)
Lemma initMapsWith_enough (fuel : nat) (h : Host) (c : Config) :
  S (length (allGroups c)) ≤ fuel → initMapsWith fuel h c = initMaps h c.
Proof.
  intros Hle. destruct (initMaps_returns h c) as [r Hr]. rewrite Hr.
  unfold initMaps, initMapsWith in *.
  destruct (servicesLoop h c (allServices c) _) as [st1|e]; [|done].
  destruct (firstPass h c _ (allGroups c) _) as [st2|e]; [|done].
  destruct (secondPass (S (length (allGroups c))) _ _ _) as [r2|] eqn:Hr2; [|done].
  by rewrite (secondPass_more _ fuel _ _ _ r2 Hle Hr2).
Qed.

(** *** Configurations to try the properties on *)

(** The elements of a path: what stands between its slashes. *)
Fixpoint splitOn (sep : ascii) (s : string) : list string :=
  match s with
  | EmptyString => [EmptyString]
  | String a rest =>
      if Ascii.eqb a sep then EmptyString :: splitOn sep rest
      else
        match splitOn sep rest with
        | x :: xs => String a x :: xs
        | [] => [String a EmptyString]
        end
  end.

(** [filepath.Clean] takes the elements in turn: an empty element and [.]
    are dropped, [..] takes the element before it away, unless there is
    none or it is [..] itself; then it stays, except at the root. *)
Definition cleanStep (rooted : bool) (out : list string) (e : string) : list string :=
  if String.eqb e "" || String.eqb e "." then out
  else if String.eqb e ".." then
    match last out with
    | Some top => if String.eqb top ".." then out ++ [e] else removelast out
    | None => if rooted then out else out ++ [e]
    end
  else out ++ [e].

(** [filepath.Clean] and [path.Clean], where the separator is a slash. *)
Definition Clean (path : string) : string :=
  let rooted := HasPrefix path "/" in
  let out := foldl (cleanStep rooted) [] (splitOn "/" path) in
  let cleaned := (if rooted then "/" else "") +:+ Join out "/" in
  if String.eqb cleaned "" then "." else cleaned.

(** [filepath.Join] of two elements: empty elements are left out, the
    rest is joined by slashes and cleaned. *)
Definition filepathJoin (a b : string) : string :=
  if negb (String.eqb a "") then Clean (a +:+ "/" +:+ b)
  else if negb (String.eqb b "") then Clean b
  else "".

(** [filepath.Dir] and [path.Dir]: the path up to its last slash,
    cleaned. *)
Definition Dir (path : string) : string :=
  match removelast (splitOn "/" path) with
  | [] => Clean ""
  | elems => Clean (Join elems "/" +:+ "/")
  end.

(** A rooted path stays rooted. *)
Lemma Clean_rooted (path : string) :
  HasPrefix path "/" = true → HasPrefix (Clean path) "/" = true.
Proof.
  unfold Clean. intros H. rewrite H.
  generalize (Join (foldl (cleanStep true) [] (splitOn "/" path)) "/"). intros s.
  by destruct s.
Qed.

(** A host whose working directory is [/etc/edward]. *)
Definition hostEx : Host :=
  mkHost (λ p, inl (if HasPrefix p "/" then Clean p else filepathJoin "/etc/edward" p))
    (λ p, HasPrefix p "/") filepathJoin elements.

Definition svc (name : string) (aliases env : list string) (kept : bool) : ServiceConfig :=
  mkServiceConfig name aliases "" None env "" kept.

Definition grp (name : string) (aliases children : list string) : GroupDef :=
  mkGroupDef name aliases "" children [].

Definition cfg (env : list string) (ss : list ServiceConfig) (gs : list GroupDef) : Config :=
  mkConfig "." [] [] env gs ss ∅ ∅ "edward.json".

Lemma firstCollision_None_colliding (inUse : gset string) (defs : list (list string)) :
  firstCollision inUse defs = None →
  (∀ d x, d ∈ defs → x ∈ d → x ∉ inUse) ∧ ∀ x, ¬ colliding defs x.
Proof.
  revert inUse. induction defs as [|ids rest IH]; intros inUse Hnone.
  - split; [intros d x Hd; inversion Hd|].
    intros x (pre & d & post & Heq & _). by destruct pre.
  - apply firstCollision_None_inv in Hnone as [Hfresh Hrest].
    destruct (IH _ Hrest) as [IH1 IH2]. split.
    + intros d x Hd Hx. apply elem_of_cons in Hd as [->|Hd]; [by apply Hfresh|].
      specialize (IH1 d x Hd Hx). set_solver.
    + intros x (pre & d & post & Heq & Hx & Hpre). destruct pre as [|p pre].
      * inversion Hpre.
      * simpl in Heq. injection Heq as -> ->. simpl in Hpre.
        apply elem_of_app in Hpre as [Hp|Hp].
        -- apply (IH1 d x); [|done|set_solver].
           apply elem_of_app. right. left.
        -- apply (IH2 x). by exists pre, d, post.
Qed.

Lemma no_collision_iff (defs : list (list string)) :
  firstCollision ∅ defs = None ↔ ∀ x, ¬ colliding defs x.
Proof.
  split.
  - intros H. by apply (firstCollision_None_colliding ∅).
  - intros H. apply firstCollision_None_intro; [set_solver|done].
Qed.

(** *** What a resolved configuration holds *)

Lemma upToPath_resolvedFrom (c : Config) (file : string) (s s' : ServiceConfig) :
  upToPath (mergeService c file s) s' → resolvedFrom c s s'.
Proof. by intros [->|[p ->]]. Qed.

Section resolved.
Context {c : Config} {file : string} {sm : gmap string ServiceConfig}
  {gm : gmap string ServiceGroupConfig} (Hres : resolved c file sm gm).

Lemma resolved_dom_services : dom sm = list_to_set (serviceNames (matching (allServices c))).
Proof using Hres.
  rewrite (samePointers_dom _ _ (res_services _ _ _ _ Hres)), storeServices_dom, dom_empty_L.
  set_solver.
Qed.

(** Every kept service is in the service map, under its name. *)
Lemma resolved_service (s : ServiceConfig) :
  s ∈ matching (allServices c) →
  ∃ s', sm !! sc_Name s = Some s' ∧ resolvedFrom c s s'.
Proof using Hres.
  intros Hs. pose proof (res_services _ _ _ _ Hres (sc_Name s)) as Hn.
  rewrite (storeServices_lookup c file _ ∅ s (res_names _ _ _ _ Hres) Hs) in Hn.
  inversion Hn as [? s' Hup|]; subst. exists s'. split; [done|].
  by eapply upToPath_resolvedFrom.
Qed.

(** Nothing else is. *)
Lemma resolved_service_inv (n : string) (s' : ServiceConfig) :
  sm !! n = Some s' →
  ∃ s, s ∈ matching (allServices c) ∧ sc_Name s = n ∧ resolvedFrom c s s'.
Proof using Hres.
  intros Hn. assert (n ∈ dom sm) as Hd by (apply elem_of_dom; eauto).
  rewrite resolved_dom_services, elem_of_list_to_set in Hd.
  unfold serviceNames in Hd. apply list_elem_of_fmap in Hd as (s & -> & Hs).
  destruct (resolved_service s Hs) as (s'' & Hs'' & Hfrom).
  exists s. by simplify_eq.
Qed.

Lemma resolved_dom_groups : dom gm = list_to_set (groupNames (allGroups c)).
Proof using Hres. apply (inv_dom _ _ _ _ (res_inv _ _ _ _ Hres)). Qed.

(** Every group is in the group map, with the kept services and the groups
    among its children. *)
Lemma resolved_group (g : GroupDef) :
  g ∈ allGroups c →
  ∃ sg, gm !! gd_Name g = Some sg ∧
    sg_Name sg = gd_Name g ∧ sg_Aliases sg = gd_Aliases g ∧
    sg_ChildOrder sg = gd_Children g ∧
    sg_Services sg = filter (λ n, n ∈ dom sm) (gd_Children g) ∧
    sg_Groups sg = filter (λ n, n ∈ dom gm) (gd_Children g).
Proof using Hres.
  intros Hg. pose proof (res_inv _ _ _ _ Hres) as Hinv.
  destruct (inv_done _ _ _ _ Hinv g Hg) as (sg & Hsg & Hgr).
  pose proof (res_groups _ _ _ _ Hres (gd_Name g)) as Hn.
  rewrite (storeGroups_lookup _ _ ∅ g (inv_nodup _ _ _ _ Hinv) Hg), Hsg in Hn.
  inversion Hn as [? ? [cg Hcg]|]; subst. exists (setGroups cg (newGroup (dom sm) g)).
  by repeat split.
Qed.

End resolved.

(** *** Duplicate identifiers *)

(** The sentence on duplicates, read over every definition of the
    configuration: an identifier that collides makes resolution fail with
    the colliding identifiers, all of them, in ascending order. *)
Definition duplicateClaim (h : Host) (c : Config) : Prop :=
  (∃ x, colliding (declaredIds c) x) →
  ∃ ids, initMaps h c = Some (c, Some (ErrDuplicate ids)) ∧
    StronglySorted string_le ids ∧ ∀ x, x ∈ ids ↔ colliding (declaredIds c) x.

(** A service declared once for this platform and once for another. *)
Definition cfgTwin : Config :=
  cfg [] [svc "api" [] [] true; svc "api" [] [] false] [].

(** Two definitions that each repeat an earlier identifier. *)
Definition cfgPairs : Config :=
  cfg [] [svc "svc-a" ["svc-a2"] [] true; svc "svc-b" [] [] true;
          svc "svc-a2" [] [] true; svc "svc-b" [] [] true]
      [grp "g1" [] ["svc-a"; "svc-b"]].

(** C1, as stated, fails: the twin skipped on this platform is not
    rejected, and of two colliding definitions only the first is reported. *)
Lemma duplicate_claim_fails :
  ¬ duplicateClaim hostEx cfgTwin ∧ ¬ duplicateClaim hostEx cfgPairs.
Proof.
  split; intros H.
  - destruct H as (ids & Heq & _).
    + exists "api", [["api"]], ["api"], []. split; [done|]. split; set_solver.
    + vm_compute in Heq. discriminate.
  - destruct H as (ids & Heq & _ & Hall).
    + exists "svc-b", [["svc-a2"; "svc-a"]; ["svc-b"]; ["svc-a2"]], ["svc-b"], [["g1"]].
      split; [done|]. split; set_solver.
    + vm_compute in Heq. injection Heq as <-.
      assert ("svc-b" ∈ ["svc-a2"]) as Hin; [|set_solver].
      apply Hall.
      exists [["svc-a2"; "svc-a"]; ["svc-b"]; ["svc-a2"]], ["svc-b"], [["g1"]].
      split; [done|]. split; set_solver.
Qed.

(** C1, amended: the first definition kept on this platform one of whose
    identifiers an earlier kept definition has brought makes resolution
    fail, with those of its identifiers that are in use, in ascending order
    and joined by commas; the maps are left as they were. *)
Theorem duplicate_rejected (h : Host) (c : Config) (file : string)
    (pre : list (list string)) (d : list string) (post : list (list string)) :
  absOk h c file →
  claimedIds c = pre ++ d :: post →
  (∀ x, ¬ colliding pre x) →
  (∃ x, x ∈ d ∧ x ∈ concat pre) →
  ∃ ids, initMaps h c = Some (c, Some (ErrDuplicate ids)) ∧
    Error (ErrDuplicate ids) = "Duplicate name or alias: " +:+ Join ids ", " ∧
    StronglySorted string_le ids ∧
    ids ≡ₚ filter (λ v, v ∈ concat pre) d.
Proof.
  intros Hok Hsplit Hno (x & Hxd & Hxp).
  assert (filter (λ v, v ∈ concat pre) d ≠ []) as Hhit.
  { intros Hnil. assert (x ∈ filter (λ v, v ∈ concat pre) d) as Hx
      by (by apply list_elem_of_filter).
    rewrite Hnil in Hx. inversion Hx. }
  pose proof (initMaps_spec h c file Hok) as Hspec.
  rewrite Hsplit, (firstCollision_at pre d post Hno Hhit) in Hspec.
  exists (sortStrings (filter (λ v, v ∈ concat pre) d)).
  split; [done|]. split; [done|]. split; [apply sortStrings_sorted|apply sortStrings_perm].
Qed.

Lemma duplicate_rejected_witness :
  ∃ ids, initMaps hostEx cfgPairs = Some (cfgPairs, Some (ErrDuplicate ids)) ∧
    Error (ErrDuplicate ids) = "Duplicate name or alias: " +:+ Join ids ", " ∧
    StronglySorted string_le ids ∧
    ids ≡ₚ filter (λ v, v ∈ concat [["svc-a2"; "svc-a"]; ["svc-b"]]) ["svc-a2"].
Proof.
  apply (duplicate_rejected hostEx cfgPairs "/etc/edward/edward.json"
           [["svc-a2"; "svc-a"]; ["svc-b"]] ["svc-a2"] [["svc-b"]; ["g1"]]).
  - intros _. reflexivity.
  - reflexivity.
  - apply no_collision_iff. reflexivity.
  - exists "svc-a2". split; [left|simpl; left].
Defined.

(** *** The shared environment *)

(** The keys of a list of environment entries. *)
Definition envKeys (env : list string) : list string := envKey <$> env.

(** The sentence on the shared environment: the stored service has its own
    entries, then the shared entries whose key it does not set itself. *)
Definition envClaim (h : Host) (c : Config) : Prop :=
  ∀ c' s s', initMaps h c = Some (c', None) →
    s ∈ matching (allServices c) → ServiceMap c' !! sc_Name s = Some s' →
    sc_Env s' = sc_Env s ++ filter (λ e, envKey e ∉ envKeys (sc_Env s)) (Env c).

(** A service that sets [PORT] under a configuration that sets it too. *)
Definition cfgPort : Config :=
  cfg ["PORT=80"; "HOME=/srv"] [svc "web" [] ["PORT=8080"] true] [].

(** C2, as stated, fails: the shared [PORT=80] is kept next to the
    service's own [PORT=8080]. *)
Lemma env_claim_fails : ¬ envClaim hostEx cfgPort.
Proof.
  intros H.
  specialize (H (setMaps {["web" := mkServiceConfig "web" [] "" None
                                     ["PORT=8080"; "PORT=80"; "HOME=/srv"]
                                     "/etc/edward/edward.json" true]} ∅ cfgPort)
                (svc "web" [] ["PORT=8080"] true)
                (mkServiceConfig "web" [] "" None ["PORT=8080"; "PORT=80"; "HOME=/srv"]
                   "/etc/edward/edward.json" true)).
  assert (["PORT=8080"; "PORT=80"; "HOME=/srv"] = ["PORT=8080"; "HOME=/srv"]) as Habs;
    [|discriminate].
  apply H.
  - by vm_compute.
  - left.
  - by vm_compute.
Qed.

(** C2, amended: the stored service has its own entries followed by every
    shared entry, whether the service sets the same key or not. *)
Theorem env_appended (h : Host) (c c' : Config) (s : ServiceConfig) :
  initMaps h c = Some (c', None) →
  s ∈ allServices c → sc_MatchesPlatform s = true →
  ∃ s', ServiceMap c' !! sc_Name s = Some s' ∧ sc_Env s' = sc_Env s ++ Env c.
Proof.
  intros Hrun Hs Hm. pose proof (initMaps_outcome h c) as Hout.
  rewrite Hrun in Hout. inversion Hout as [| | | |file sm gm Hok Hfc Hac Horph Hres]; subst.
  assert (s ∈ matching (allServices c)) as Hkept by (by apply list_elem_of_filter).
  destruct (resolved_service Hres s Hkept) as (s' & Hs' & Hfrom).
  exists s'. split; [done|]. apply Hfrom.
Qed.

Lemma env_appended_witness :
  ∃ s', ServiceMap (setMaps {["web" := mkServiceConfig "web" [] "" None
                                ["PORT=8080"; "PORT=80"; "HOME=/srv"]
                                "/etc/edward/edward.json" true]} ∅ cfgPort)
          !! "web" = Some s' ∧
        sc_Env s' = ["PORT=8080"] ++ ["PORT=80"; "HOME=/srv"].
Proof.
  apply (env_appended hostEx cfgPort _ (svc "web" [] ["PORT=8080"] true)).
  - vm_compute. reflexivity.
  - left.
  - reflexivity.
Defined.

(** *** Groups that contain themselves *)

(** While the second pass is under way, the groups it is past contain no
    cycle among themselves. *)
Lemma passInv_past_acyclic (all past todo : list GroupDef)
    (gm : gmap string ServiceGroupConfig) :
  passInv all past todo gm → ∀ m, ¬ containsItself past m.
Proof.
  intros Hinv m Hcyc. apply (inv_acyclic _ _ _ _ Hinv m).
  assert (∀ a b, contains past a b → edge gm a b) as Hsub.
  { intros a b (g & Hg & <- & Hb & Hbn).
    destruct (inv_done _ _ _ _ Hinv g Hg) as (sg & Hsg & Hgr).
    exists sg. split; [done|]. rewrite Hgr. apply list_elem_of_filter. split; [|done].
    rewrite (inv_dom _ _ _ _ Hinv), elem_of_list_to_set, (inv_split _ _ _ _ Hinv).
    unfold groupNames in *. rewrite fmap_app. apply elem_of_app. by left. }
  assert (∀ a b, tc (contains past) a b → tc (edge gm) a b) as Htc; [|by apply Htc].
  intros a b Hab. induction Hab as [a b Hab|a b d Hab _ IH].
  - apply tc_once. by apply Hsub.
  - eapply tc_l; [by apply Hsub|done].
Qed.

(** A walk that ends at the group the second pass stands at goes through
    groups it is past only, along their children. *)
Lemma passInv_path (all past todo : list GroupDef) (g : GroupDef)
    (gm : gmap string ServiceGroupConfig) (x : string) :
  passInv all past (g :: todo) gm →
  rtc (edge gm) x (gd_Name g) →
  rtc (contains (past ++ [g])) x (gd_Name g) ∧ x ∈ groupNames (past ++ [g]).
Proof.
  intros Hinv Hwalk.
  remember (gd_Name g) as n eqn:Hn. revert Hn.
  induction Hwalk as [x|x y z (sg & Hsg & Hy) _ IH]; intros ->.
  - split; [done|]. apply elem_of_groupNames. exists g. split; [|done].
    apply elem_of_app. right. left.
  - destruct (IH eq_refl) as [Hrest Hyin].
    assert (x ∈ dom gm) as Hx by (apply elem_of_dom; eauto).
    rewrite (inv_dom _ _ _ _ Hinv), elem_of_list_to_set, elem_of_groupNames in Hx.
    destruct Hx as (g' & Hg' & <-).
    rewrite (inv_split _ _ _ _ Hinv) in Hg'. apply elem_of_app in Hg' as [Hg'|Hg'].
    + destruct (inv_done _ _ _ _ Hinv g' Hg') as (sg' & Hsg' & Hgr). simplify_eq.
      rewrite Hgr in Hy. apply list_elem_of_filter in Hy as [_ Hy].
      assert (g' ∈ past ++ [g]) as Hin by (apply elem_of_app; by left).
      split.
      * eapply rtc_l; [|done]. by exists g'.
      * apply elem_of_groupNames. by exists g'.
    + destruct (inv_todo _ _ _ _ Hinv g' Hg') as (sg' & Hsg' & Hgr). simplify_eq.
      rewrite Hgr in Hy. inversion Hy.
Qed.

(** The group the cycle error of the second pass names: the first whose
    definition closes a cycle among the groups up to it. *)
Lemma secondPass_cycle_at (all : list GroupDef) (f : nat) (todo past : list GroupDef)
    (gm : gmap string ServiceGroupConfig) (orph : gset string) (n : string) :
  passInv all past todo gm → size (dom gm) < f →
  secondPass f todo gm orph = Some (Err (ErrCycle n)) →
  ∃ before g after, todo = before ++ g :: after ∧ gd_Name g = n ∧
    containsItself (past ++ before ++ [g]) n ∧
    ∀ m, ¬ containsItself (past ++ before) m.
Proof.
  revert past gm orph. induction todo as [|g todo IH]; intros past gm orph Hinv Hf; [done|].
  simpl.
  destruct (secondPassChildren_spec f gm (gd_Name g) (gd_Children g) [] orph)
    as [[Heq Hno]|[Heq (x & Hx & Hreach)]].
  - apply (inv_acyclic _ _ _ _ Hinv).
  - by eapply passInv_closed.
  - done.
  - intros x Hx. inversion Hx.
  - intros x Hx. inversion Hx.
  - rewrite Heq. simpl in *.
    pose proof (passInv_step _ _ _ _ _ Hinv Hno) as Hinv1.
    set (gm1 := alter (setGroups (filter (λ n, n ∈ dom gm) (gd_Children g))) (gd_Name g) gm) in *.
    assert (dom gm1 = dom gm) as Hdom1 by apply dom_alter_L.
    intros Hrun. rewrite <- Hdom1 in Hf.
    destruct (IH _ gm1 _ Hinv1 Hf Hrun) as (before & g' & after & -> & Hn & Hcyc & Hac).
    exists (g :: before), g', after. split; [done|]. split; [done|].
    rewrite <- !app_assoc in Hcyc, Hac. done.
  - rewrite Heq. intros [= <-]. exists [], g, todo. split; [done|]. split; [done|].
    rewrite app_nil_r. split; [|by eapply passInv_past_acyclic].
    simpl in Hx. apply list_elem_of_filter in Hx as [_ Hx].
    destruct (passInv_path _ _ _ _ _ _ Hinv Hreach) as [Hwalk Hxin].
    eapply tc_rtc_r; [|done]. apply tc_once. exists g.
    split; [apply elem_of_app; right; left|]. done.
Qed.

(** The same of [initMaps], whose second pass starts with no group
    done. *)
Lemma initMaps_cycle_at (h : Host) (c c' : Config) (file : string) (n : string) :
  absOk h c file →
  firstCollision ∅ (claimedIds c) = None →
  initMaps h c = Some (c', Some (ErrCycle n)) →
  ∃ before g after, allGroups c = before ++ g :: after ∧ gd_Name g = n ∧
    containsItself (before ++ [g]) n ∧
    ∀ m, ¬ containsItself before m.
Proof.
  intros Habs. unfold claimedIds. rewrite firstCollision_app.
  pose proof (servicesLoop_spec_ok h c file (allServices c) (mkSvcState ∅ ∅ ∅) Habs) as HS.
  cbn [svcs servicesSkipped namesInUse] in HS.
  destruct (firstPass_spec h c
              (list_to_set (serviceNames (skippedServices (allServices c))) ∪ ∅)
              (allGroups c)
              (mkGrpState (storeServices c file (allServices c) ∅) ∅ ∅
                 (∅ ∪ list_to_set (concat (serviceIds <$> matching (allServices c))))))
    as (sv' & Hsame & HF).
  cbn [g_svcs groups orphanNames g_namesInUse] in HF, Hsame.
  destruct (firstCollision ∅ (serviceIds <$> matching (allServices c))) as [hit|] eqn:HA;
    [done|].
  destruct (firstCollision _ (groupIds <$> allGroups c)) as [hit|] eqn:HB; [done|].
  intros _.
  destruct (firstCollision_None_names groupIds gd_Name _ _ groupIds_name HB)
    as [HndG _].
  set (D := dom (storeServices c file (allServices c) ∅)) in *.
  unfold initMaps, initMapsWith. rewrite HS.
  cbn [svcs servicesSkipped namesInUse]. rewrite HF.
  cbn [g_svcs groups orphanNames g_namesInUse].
  destruct (secondPass _ (allGroups c) _ _) as [[[gm' orph']|e]|] eqn:HP; [|..|done].
  - destruct (decide (0 < size orph')); done.
  - intros [= <- ->].
    apply (secondPass_cycle_at (allGroups c) _ (allGroups c) [] _ _ n
             (passInv_start D _ HndG) (size_groups_lt D _ HndG)) in HP.
    exact HP.
Qed.

(** The sentence on cycles: every group that contains itself is the one
    the cycle error names. *)
Definition cycleClaim (h : Host) (c : Config) : Prop :=
  ∀ g, containsItself (allGroups c) g → initMaps h c = Some (c, Some (ErrCycle g)).

(** Two groups, each a child of the other. *)
Definition cfgLoop : Config :=
  cfg [] [] [grp "a" [] ["b"]; grp "b" [] ["a"]].

Lemma cfgLoop_a : containsItself (allGroups cfgLoop) "a".
Proof.
  apply tc_l with "b"; [|apply tc_once].
  - exists (grp "a" [] ["b"]). repeat split; [left|left|right; left].
  - exists (grp "b" [] ["a"]). repeat split; [right; left|left|left].
Qed.

(** C3, as stated, fails: [a] contains itself, and the error names [b],
    the group at which the cycle closes. *)
Lemma cycle_claim_fails : ¬ cycleClaim hostEx cfgLoop.
Proof.
  intros H. specialize (H "a" cfgLoop_a). vm_compute in H. discriminate.
Qed.

(** C3, amended: when no identifier collides, a configuration in which
    some group contains itself is rejected with the cycle error of one
    group [g] that contains itself: the first, in the order of the
    definitions, that closes a cycle, which is to say that [g] contains
    itself through the groups defined up to it, and that among the groups
    defined before it none contains itself.  The maps are not assigned.
    A configuration in which no group contains itself never gets that
    error. *)
Theorem cycle_rejected (h : Host) (c : Config) (file : string) :
  absOk h c file →
  (∀ x, ¬ colliding (claimedIds c) x) →
  ((∃ g, containsItself (allGroups c) g) →
   ∃ before g after,
     allGroups c = before ++ g :: after ∧
     containsItself (before ++ [g]) (gd_Name g) ∧
     (∀ m, ¬ containsItself before m) ∧
     containsItself (allGroups c) (gd_Name g) ∧
     initMaps h c = Some (c, Some (ErrCycle (gd_Name g))) ∧
     Error (ErrCycle (gd_Name g)) = "group cycle: " +:+ gd_Name g) ∧
  ((∀ g, ¬ containsItself (allGroups c) g) →
   ∀ n, initMaps h c ≠ Some (c, Some (ErrCycle n))).
Proof.
  intros Hok Hno. apply no_collision_iff in Hno.
  pose proof (initMaps_spec h c file Hok) as Hspec. rewrite Hno in Hspec. split.
  - intros (g & Hg). destruct Hspec as [(n & Hrun & Hn)|[Hac _]].
    + destruct (initMaps_cycle_at h c c file n Hok Hno Hrun)
        as (before & g' & after & Hsplit & <- & Hcyc & Hfirst).
      by exists before, g', after.
    + by destruct (Hac g).
  - intros Hac n Hrun. destruct Hspec as [(m & Hrun' & Hm)|[_ Hrest]].
    + by apply (Hac m).
    + destruct (decide (orphanSet c = ∅)).
      * destruct Hrest as (sm & gm & Hrun' & _). rewrite Hrun in Hrun'. discriminate.
      * rewrite Hrun in Hrest. discriminate.
Qed.

Lemma cycle_rejected_witness :
  initMaps hostEx cfgLoop = Some (cfgLoop, Some (ErrCycle "b")) ∧
  containsItself [grp "a" [] ["b"]; grp "b" [] ["a"]] "b" ∧
  (∀ m, ¬ containsItself [grp "a" [] ["b"]] m) ∧
  Error (ErrCycle "b") = "group cycle: b".
Proof.
  destruct (cycle_rejected hostEx cfgLoop "/etc/edward/edward.json")
    as [Hcyclic _].
  - intros _. reflexivity.
  - apply no_collision_iff. reflexivity.
  - destruct Hcyclic as (before & g & after & Hsplit & Hcyc & Hfirst & _ & Hrun & Hmsg).
    + exists "a". exact cfgLoop_a.
    + assert (gd_Name g = "b") as Hg.
      { vm_compute in Hrun. injection Hrun as Hb. exact (eq_sym Hb). }
      unfold allGroups, cfgLoop, cfg in Hsplit. simpl in Hsplit.
      destruct before as [|x [|y before]]; simplify_eq/=.
      * split; [exact Hrun|]. split; [exact Hcyc|]. split; [exact Hfirst|reflexivity].
      * by destruct before.
Defined.

(** The cycle error only ever names a group that contains itself, whatever
    else the configuration holds. *)
Lemma cycle_error_sound (h : Host) (c c' : Config) (n : string) :
  initMaps h c = Some (c', Some (ErrCycle n)) → c' = c ∧ containsItself (allGroups c) n.
Proof.
  intros Hrun. pose proof (initMaps_outcome h c) as Hout. rewrite Hrun in Hout.
  by inversion Hout; subst.
Qed.

(** *** Children that cannot be found *)

Lemma rangeKeys_orphans (h : Host) (c : Config) :
  range_ok h →
  NoDup (rangeKeys h (orphanSet c)) ∧
  ∀ n, n ∈ rangeKeys h (orphanSet c) ↔ orphan c n.
Proof.
  intros Hrange. split.
  - rewrite (Hrange (orphanSet c)). apply NoDup_elements.
  - intros n. by rewrite (Hrange (orphanSet c)), elem_of_elements, elem_of_orphanSet.
Qed.

(** C7: when both passes over the groups get through (no identifier
    collides, no group contains itself) and some child name is neither a
    service of the configuration, kept or skipped, nor a group, [initMaps]
    fails with the message that lists every such name once, and leaves the
    maps as they were. *)
Theorem orphans_rejected (h : Host) (c : Config) (file : string) :
  range_ok h → absOk h c file →
  (∀ x, ¬ colliding (claimedIds c) x) →
  (∀ g, ¬ containsItself (allGroups c) g) →
  (∃ n, orphan c n) →
  ∃ keys, initMaps h c = Some (c, Some (ErrOrphans keys)) ∧
    Error (ErrOrphans keys) =
      "A service or group could not be found for the following names: " +:+
      Join keys ", " ∧
    NoDup keys ∧ ∀ n, n ∈ keys ↔ orphan c n.
Proof.
  intros Hrange Hok Hno Hac (n & Hn). apply no_collision_iff in Hno.
  pose proof (initMaps_spec h c file Hok) as Hspec. rewrite Hno in Hspec.
  destruct Hspec as [(m & _ & Hm)|[_ Hrest]]; [by destruct (Hac m)|].
  rewrite decide_False in Hrest.
  - exists (rangeKeys h (orphanSet c)). split; [done|]. split; [done|].
    by apply rangeKeys_orphans.
  - intros He. apply elem_of_orphanSet in Hn. rewrite He in Hn. set_solver.
Qed.

(** A group with a child that nothing declares. *)
Definition cfgGhost : Config :=
  cfg [] [svc "svc-a" [] [] true] [grp "g1" [] ["svc-a"; "ghost"]].

Lemma cfgGhost_acyclic (g : string) : ¬ containsItself (allGroups cfgGhost) g.
Proof.
  intros Hcyc.
  assert (∃ y, contains (allGroups cfgGhost) g y) as (y & g' & Hg' & _ & Hy & Hyn).
  { inversion Hcyc; eauto. }
  apply list_elem_of_singleton in Hyn as ->.
  apply list_elem_of_singleton in Hg' as ->. simpl in Hy.
  apply elem_of_cons in Hy as [Hy|Hy]; [discriminate|].
  apply list_elem_of_singleton in Hy. discriminate.
Qed.

Lemma cfgGhost_orphan : orphan cfgGhost "ghost".
Proof.
  split; [|split].
  - exists (grp "g1" [] ["svc-a"; "ghost"]). split; [left|right; left].
  - intros H. apply list_elem_of_singleton in H. discriminate.
  - intros H. apply list_elem_of_singleton in H. discriminate.
Qed.

Lemma orphans_rejected_witness :
  ∃ keys, initMaps hostEx cfgGhost = Some (cfgGhost, Some (ErrOrphans keys)) ∧
    Error (ErrOrphans keys) =
      "A service or group could not be found for the following names: " +:+
      Join keys ", " ∧
    NoDup keys ∧ ∀ n, n ∈ keys ↔ orphan cfgGhost n.
Proof.
  apply (orphans_rejected hostEx cfgGhost "/etc/edward/edward.json").
  - intros m. reflexivity.
  - intros _. reflexivity.
  - apply no_collision_iff. reflexivity.
  - exact cfgGhost_acyclic.
  - exists "ghost". exact cfgGhost_orphan.
Defined.

(** *** Services skipped on this platform *)

Lemma initMaps_orphans_inv (h : Host) (c c' : Config) (keys : list string) :
  initMaps h c = Some (c', Some (ErrOrphans keys)) →
  c' = c ∧ keys = rangeKeys h (orphanSet c).
Proof.
  intros Hrun. pose proof (initMaps_outcome h c) as Hout. rewrite Hrun in Hout.
  by inversion Hout.
Qed.

Lemma initMaps_resolved_inv (h : Host) (c c' : Config) :
  initMaps h c = Some (c', None) →
  ∃ file sm gm, c' = setMaps sm gm c ∧ resolved c file sm gm.
Proof.
  intros Hrun. pose proof (initMaps_outcome h c) as Hout. rewrite Hrun in Hout.
  inversion Hout as [| | | |file sm gm Hok Hfc Hac Horph Hres]. by exists file, sm, gm.
Qed.

(** C8: a service whose platform predicate fails is not put in the service
    map, where every entry is a kept service; its name is never reported
    as one that could not be found; and the services a resolved group
    points to are the kept ones among its children, so the skipped service
    is none of them. *)
Theorem skipped_service (h : Host) (c c' : Config) (s : ServiceConfig) :
  range_ok h →
  s ∈ allServices c → sc_MatchesPlatform s = false →
  (∀ keys, initMaps h c = Some (c', Some (ErrOrphans keys)) → sc_Name s ∉ keys) ∧
  (initMaps h c = Some (c', None) →
   (∀ n s', ServiceMap c' !! n = Some s' → sc_MatchesPlatform s' = true) ∧
   (sc_Name s ∉ serviceNames (matching (allServices c)) →
    ServiceMap c' !! sc_Name s = None) ∧
   ∀ g, g ∈ allGroups c →
     ∃ sg, GroupMap c' !! gd_Name g = Some sg ∧
       sg_Services sg =
         filter (λ n, n ∈ serviceNames (matching (allServices c))) (gd_Children g) ∧
       ∀ p, p ∈ sg_Services sg →
         ∃ s', ServiceMap c' !! p = Some s' ∧ sc_MatchesPlatform s' = true).
Proof.
  intros Hrange Hs Hm. split.
  - intros keys Hrun. apply initMaps_orphans_inv in Hrun as [_ ->].
    rewrite (proj2 (rangeKeys_orphans h c Hrange)). intros (_ & Hns & _).
    apply Hns. unfold serviceNames. by apply list_elem_of_fmap_2.
  - intros Hrun. apply initMaps_resolved_inv in Hrun as (file & sm & gm & -> & Hres).
    simpl.
    assert (∀ n s', sm !! n = Some s' → sc_MatchesPlatform s' = true) as Hkept.
    { intros n s' Hn. destruct (resolved_service_inv Hres n s' Hn) as (s0 & Hs0 & _ & Hfrom).
      apply list_elem_of_filter in Hs0 as [Hs0 _].
      destruct Hfrom as (_ & _ & _ & _ & ->). done. }
    split; [done|]. split.
    + intros Hnot. apply not_elem_of_dom.
      by rewrite (resolved_dom_services Hres), elem_of_list_to_set.
    + intros g Hg. destruct (resolved_group Hres g Hg) as (sg & Hsg & _ & _ & _ & Hsv & _).
      exists sg. split; [done|].
      assert (sg_Services sg =
              filter (λ n, n ∈ serviceNames (matching (allServices c))) (gd_Children g)) as Heq.
      { rewrite Hsv. apply list_filter_iff. intros n.
        by rewrite (resolved_dom_services Hres), elem_of_list_to_set. }
      split; [done|]. intros p Hp. rewrite Hsv in Hp.
      apply list_elem_of_filter in Hp as [Hp _]. apply elem_of_dom in Hp as [s' Hs'].
      exists s'. split; [done|]. by eapply Hkept.
Qed.

(** A group that lists a service kept here and one skipped here. *)
Definition cfgSkip : Config :=
  cfg [] [svc "db" [] [] true; svc "tray" [] [] false] [grp "all" [] ["db"; "tray"]].

Definition cfgSkipResolved : Config :=
  setMaps {["db" := mkServiceConfig "db" [] "" None [] "/etc/edward/edward.json" true]}
    {["all" := mkServiceGroupConfig "all" [] "" ["db"] [] [] ["db"; "tray"]]} cfgSkip.

Lemma skipped_service_witness :
  initMaps hostEx cfgSkip = Some (cfgSkipResolved, None) ∧
  ServiceMap cfgSkipResolved !! "tray" = None ∧
  ∃ sg, GroupMap cfgSkipResolved !! "all" = Some sg ∧ sg_Services sg = ["db"].
Proof.
  assert (initMaps hostEx cfgSkip = Some (cfgSkipResolved, None)) as Hrun
    by (vm_compute; reflexivity).
  destruct (skipped_service hostEx cfgSkip cfgSkipResolved (svc "tray" [] [] false))
    as [_ Hres].
  - intros m. reflexivity.
  - right. left.
  - reflexivity.
  - destruct (Hres Hrun) as (_ & Hnone & Hgroups).
    split; [exact Hrun|]. split.
    + apply Hnone. intros Hin. apply list_elem_of_singleton in Hin. discriminate.
    + destruct (Hgroups (grp "all" [] ["db"; "tray"])) as (sg & Hsg & Hsv & _); [left|].
      exists sg. split; [exact Hsg|]. rewrite Hsv. reflexivity.
Defined.

End ConfigFacts.

(** ** Starting and stopping an instance *)

Module InstanceFacts.
Import Instance.

(** *** A system to try the properties on *)

(** The world is the pid each service has on record. *)
Abbreviation Records := (gmap string Z) (only parsing).

(** The service becomes ready unless [ready] is an error; [readLog] is
    what reading the run log back gives; the state directory holds the
    files [files], each a name and a content, and [decode] is what
    [json.Unmarshal] makes of a content; the stop action of the backend
    always gets the process stopped. *)
Definition sysEx (ready : option string) (readLog : list string + string)
    (files : list (string * string))
    (decode : string → Instance → Instance * option string) : Sys Records :=
  mkSys Records
    (λ cfg s, bool_decide (sc_Name s ∈ Exclusions cfg))
    (λ s, true)
    sc_Name
    (λ s dir, dir +:+ "/" +:+ sc_Name s +:+ ".log")
    (λ dir s o w, inl (mkInstance (Some s) (default 0%Z (w !! sc_Name s)) "" o dir))
    (λ s dir w, (w, None))
    (λ p w, w)
    (λ w, ["PATH=/bin"])
    (λ i cfg w, inl (mkCmd ["run"] []))
    (λ cmd w, (w, inl 4242%Z))
    (λ i w, (match Service i with Some s => <[sc_Name s := Pid i]> w | None => w end, None))
    (λ dir cmd s w, (w, ready))
    (λ p w, readLog)
    (λ s t st, st)
    (λ i w, match Service i with Some s => delete (sc_Name s) w | None => w end)
    (λ dir w, inl ((λ f, mkFileInfo f.1 false) <$> files))
    (λ p w, match list_find (λ f, p = "/state/" +:+ f.1) files with
            | Some (_, f) => inl f.2
            | None => inr "no such file"
            end)
    ConfigFacts.filepathJoin
    decode
    (λ i w, (w, None)).

Definition web : ServiceConfig := mkServiceConfig "web" [] "" None ["PORT=80"] "" true.

Definition dirEx : EdwardConfiguration := mkEdwardConfiguration "/state" "/logs".

Definition webInstance (pid : Z) : Instance :=
  mkInstance (Some web) pid "" (mkContextOverride []) dirEx.

Definition cfgOp (exclude : list string) : OperationConfig :=
  mkOperationConfig "." "edward" exclude false false [] "".

(** A decoder that finds the instance of [web] in every content but the
    cut-off [{], at which it fails as [json.Unmarshal] does at a syntax
    error: with the target as it was. *)
Definition decodeEx (raw : string) (target : Instance) : Instance * option string :=
  if bool_decide (raw = "{") then (target, Some "unexpected end of JSON input")
  else (mkInstance (Some web) 4242 "/etc/edward.json" (mkContextOverride []) dirEx, None).

(** A system in which everything works. *)
Definition sysOk : Sys Records := sysEx None (inl []) [] decodeEx.

(** A service that never becomes ready, with a log that can be read. *)
Definition sysSlow : Sys Records :=
  sysEx (Some "timed out") (inl ["booting"]) [] decodeEx.

(** A service that never becomes ready, with a log that cannot be read. *)
Definition sysNoLog : Sys Records :=
  sysEx (Some "timed out") (inr "no such file") [] decodeEx.

(** A state directory with a file that was cut off. *)
Definition sysCut : Sys Records :=
  sysEx None (inl []) [("api.state", "{...}"); ("web.state", "{")] decodeEx.

Section facts.
Context {W : Type} (sys : Sys W).

(** *** Starting what runs already *)

(** The sentence on an instance that runs already, for every instance with
    a pid. *)
Definition alreadyRunningClaim (cfg : OperationConfig) (task : Task) (i : Instance)
    (st : State W) : Prop :=
  Pid i ≠ 0%Z →
  ∃ st' service, StartAsync sys cfg task i st = (st', i, Returns None) ∧
    Service i = Some service ∧ world st' = world st ∧
    last (updates st') =
      Some (mkUpdate (Child (Child task (GetName sys service)) "Start")
              TaskStateWarning ["Already running"]).

(** *** A start that never becomes ready *)

(** [StartAsync] gets as far as the wait for readiness, with the process
    [pid] launched and saved, and the wait ends in the world [w] with the
    error [err]. *)
Definition probeFails (cfg : OperationConfig) (i : Instance) (st : State W)
    (service : ServiceConfig) (pid : Z) (w : W) (err : string) : Prop :=
  Service i = Some service ∧
  IsExcluded sys cfg service = false ∧
  HasLaunchStep sys service = true ∧
  Pid i = 0%Z ∧
  ∃ w1 cmd0 w3 w4,
    DeleteAllStatusesForService sys service (StateDir (dirConfig i)) (world st) = (w1, None) ∧
    let w2 := osRemove sys (GetRunLog sys service (LogDir (dirConfig i))) w1 in
    getLaunchCommand sys i cfg w2 = inl cmd0 ∧
    let cmd := mkCmd (cmd_Args cmd0)
                 ((osEnviron sys w2 ++ o_Env (Overrides i)) ++ sc_Env service) in
    cmdStart sys cmd w2 = (w3, inl pid) ∧
    save sys (setPid pid i) w3 = (w4, None) ∧
    WaitUntilRunning sys (dirConfig i) cmd service w4 = (w, Some err).

(** The messages the task is failed with. *)
Definition failureMessages (service : ServiceConfig) (i : Instance) (w : W)
    (err : string) : list string :=
  match logToStringSlice sys (GetRunLog sys service (LogDir (dirConfig i))) w with
  | inl log => log ++ [err]
  | inr readingErr => ["Could not read log"; readingErr; "Original error: " +:+ err]
  end.

(** The sentence on a start that never becomes ready, for every such
    start: the task is failed with the log and the error. *)
Definition probeClaim (cfg : OperationConfig) (task : Task) (i : Instance)
    (st : State W) : Prop :=
  ∀ service pid w err, probeFails cfg i st service pid w err →
    ∃ log st' i' r, StartAsync sys cfg task i st = (st', i', r) ∧
      mkUpdate (Child (Child task (GetName sys service)) "Start") TaskStateFailed
        (log ++ [err]) ∈ updates st'.

Lemma StartAsync_probe (cfg : OperationConfig) (task : Task) (i : Instance)
    (st : State W) (service : ServiceConfig) (pid : Z) (w : W) (err : string) :
  probeFails cfg i st service pid w err →
  StartAsync sys cfg task i st =
  startFailed sys cfg task (Child (Child task (GetName sys service)) "Start") service err
    (setPid pid i)
    (mkState w (updates st ++
       [mkUpdate (Child (Child task (GetName sys service)) "Start") TaskStateInProgress []])).
Proof.
  intros (Hs & Hex & Hls & Hpid & w1 & cmd0 & w3 & w4 & Hdel & Hcmd & Hstart & Hsave & Hwait).
  unfold StartAsync. rewrite Hs, Hex, Hls, Hpid. simpl. rewrite Hdel.
  unfold launch. simpl. rewrite Hcmd. simpl. rewrite Hstart, Hsave. simpl.
  by rewrite Hwait.
Qed.

Lemma startFailed_spec (cfg : OperationConfig) (task startTask : Task)
    (service : ServiceConfig) (err : string) (i : Instance) (st : State W) :
  startFailed sys cfg task startTask service err i st =
  let '(st', i', cleanup) :=
    StopSync sys cfg (Overrides i) (Child task "Cleanup") i
      (SetState startTask TaskStateFailed (failureMessages service i (world st) err) st) in
  (st', i', match cleanup with
            | Returns None => Returns (Some err)
            | _ => cleanup
            end).
Proof.
  unfold startFailed, failureMessages.
  destruct (logToStringSlice sys _ (world st)) as [log|readingErr];
    destruct (StopSync sys _ _ _ _ _) as [[st' i'] [[stopErr|]|]]; done.
Qed.

(** *** The claims on [StartAsync] and [Stop] *)

(** C5, amended: for an instance with a pid whose service is not excluded
    and whose backend has a launch step, [StartAsync] returns nil, having
    set the task [Start] of the service to in progress and then to the
    warning "Already running"; it leaves the world (no status deleted,
    nothing launched, nothing saved) and the instance as they were. *)
Theorem already_running (cfg : OperationConfig) (task : Task) (i : Instance)
    (st : State W) (service : ServiceConfig) :
  Service i = Some service →
  IsExcluded sys cfg service = false →
  HasLaunchStep sys service = true →
  Pid i ≠ 0%Z →
  StartAsync sys cfg task i st =
    (mkState (world st)
       (updates st ++
        [mkUpdate (Child (Child task (GetName sys service)) "Start") TaskStateInProgress [];
         mkUpdate (Child (Child task (GetName sys service)) "Start") TaskStateWarning
           ["Already running"]]),
     i, Returns None).
Proof.
  intros Hs Hex Hls Hpid. unfold StartAsync. rewrite Hs, Hex, Hls. simpl.
  assert ((Pid i =? 0)%Z = false) as -> by (by apply Z.eqb_neq). simpl.
  unfold SetState. simpl. by rewrite <- app_assoc.
Qed.

(** When the service is excluded, or its backend has no launch step,
    [StartAsync] returns nil and sets no state, pid or no pid. *)
Lemma StartAsync_skipped (cfg : OperationConfig) (task : Task) (i : Instance)
    (st : State W) (service : ServiceConfig) :
  Service i = Some service →
  IsExcluded sys cfg service = true ∨ HasLaunchStep sys service = false →
  StartAsync sys cfg task i st = (st, i, Returns None).
Proof.
  intros Hs H. unfold StartAsync. rewrite Hs.
  destruct (IsExcluded sys cfg service); [done|].
  destruct H as [?| ->]; done.
Qed.

(** C6: when the instance loaded for the service has pid 0, [Stop] returns
    nil; it hands nothing to the pool (so neither [StopSync] nor the stop
    action of the backend is run) and reports to no task: all it does to
    the world is [clearState]. *)
Theorem stop_not_running {P : Type} (Enqueue : Work → P → P * option string)
    (dir : EdwardConfiguration) (c : ServiceConfig) (cfg : OperationConfig)
    (overrides : ContextOverride) (task : Task) (pool : P) (st : State W)
    (instance : Instance) :
  Load sys dir c overrides (world st) = inl instance →
  Pid instance = 0%Z →
  Stop sys Enqueue dir c cfg overrides task pool st =
    (mkState (clearState sys instance (world st)) (updates st), pool, None).
Proof. intros Hload Hpid. unfold Stop. by rewrite Hload, Hpid. Qed.

(** With a pid, [Stop] hands [StopSync] to the pool and leaves the rest
    as it was. *)
Lemma Stop_running {P : Type} (Enqueue : Work → P → P * option string)
    (dir : EdwardConfiguration) (c : ServiceConfig) (cfg : OperationConfig)
    (overrides : ContextOverride) (task : Task) (pool : P) (st : State W)
    (instance : Instance) :
  Load sys dir c overrides (world st) = inl instance →
  Pid instance ≠ 0%Z →
  Stop sys Enqueue dir c cfg overrides task pool st =
    let work : Work :=
      λ st, let '(st, _, r) := StopSync sys cfg overrides task instance st in (st, r) in
    (st, (Enqueue work pool).1, (Enqueue work pool).2).
Proof.
  intros Hload Hpid. unfold Stop. rewrite Hload.
  assert ((Pid instance =? 0)%Z = false) as -> by (by apply Z.eqb_neq).
  simpl. by destruct (Enqueue _ pool).
Qed.

(** [StopSync] returns, with the instance without a pid, and keeps what
    has been reported. *)
Lemma StopSync_clears (cfg : OperationConfig) (overrides : ContextOverride) (task : Task)
    (i : Instance) (st : State W) :
  ∃ st' i' cleanup,
    StopSync sys cfg overrides task i st = (st', i', Returns cleanup) ∧
    Pid i' = 0%Z ∧ updates st `prefix_of` updates st'.
Proof.
  unfold StopSync. destruct (Pid i =? 0)%Z eqn:Hpid.
  - apply Z.eqb_eq in Hpid. by eexists _, _, _.
  - destruct (backendStop sys i (world st)) as [w [e|]];
      eexists _, _, _; (split; [done|]); (split; [done|]); by eexists.
Qed.

(** C4, amended: when the wait for readiness fails, [StartAsync] sets the
    task [Start] to failed, with the lines of the log read back followed by
    the error or, when the log cannot be read, with "Could not read log",
    the reading error and "Original error: " and the error; it then runs
    [StopSync] on the launched instance under the task [Cleanup]; it
    returns the error of the wait when that stop returns nil, the error of
    the stop otherwise; what it has reported to the task [Start] stays
    reported, and the instance has pid 0. *)
Theorem start_never_ready (cfg : OperationConfig) (task : Task) (i : Instance)
    (st : State W) (service : ServiceConfig) (pid : Z) (w : W) (err : string) :
  probeFails cfg i st service pid w err →
  let startTask := Child (Child task (GetName sys service)) "Start" in
  let failed :=
    mkState w (updates st ++
      [mkUpdate startTask TaskStateInProgress [];
       mkUpdate startTask TaskStateFailed (failureMessages service i w err)]) in
  ∃ st' i' cleanup,
    StopSync sys cfg (Overrides i) (Child task "Cleanup") (setPid pid i) failed =
      (st', i', Returns cleanup) ∧
    StartAsync sys cfg task i st = (st', i', Returns (Some (default err cleanup))) ∧
    updates failed `prefix_of` updates st' ∧
    Pid i' = 0%Z.
Proof.
  intros Hprobe startTask failed. rewrite (StartAsync_probe _ _ _ _ _ _ _ _ Hprobe).
  rewrite startFailed_spec. fold startTask.
  assert (SetState startTask TaskStateFailed
            (failureMessages service (setPid pid i)
               (world (mkState w (updates st ++ [mkUpdate startTask TaskStateInProgress []])))
               err)
            (mkState w (updates st ++ [mkUpdate startTask TaskStateInProgress []]))
          = failed) as ->.
  { unfold failed, SetState. simpl. by rewrite <- app_assoc. }
  change (Overrides (setPid pid i)) with (Overrides i).
  destruct (StopSync_clears cfg (Overrides i) (Child task "Cleanup") (setPid pid i) failed)
    as (st' & i' & cleanup & Hstop & Hpid & Hkept).
  exists st', i', cleanup. rewrite Hstop. split; [done|].
  split; [by destruct cleanup|]. done.
Qed.

(** *** The running services *)

(** [LoadRunningServices] returns an error only when the directory cannot
    be listed or a file cannot be read. *)
Lemma loadFiles_error (stateDir : string) (w : W) (files : list FileInfo)
    (services : list ServiceConfig) (err : string) :
  loadFiles sys stateDir w files services = LoadError err →
  ∃ file, file ∈ files ∧ fi_IsDir file = false ∧
    ReadFile sys (pathJoin sys stateDir (fi_Name file)) w = inr err.
Proof.
  revert services. induction files as [|file rest IH]; intros services; [done|].
  simpl. destruct (fi_IsDir file) eqn:Hdir.
  - intros H. destruct (IH _ H) as (f & Hf & Hrest). exists f. split; [by right|done].
  - destruct (ReadFile sys _ w) as [raw|e] eqn:Hread.
    + destruct (Service (Unmarshal sys raw zeroInstance).1); [|done].
      intros H. destruct (IH _ H) as (f & Hf & Hrest). exists f. split; [by right|done].
    + intros [= <-]. exists file. split; [left|done].
Qed.

Lemma LoadRunningServices_error (stateDir : string) (w : W) (err : string) :
  LoadRunningServices sys stateDir w = LoadError err →
  ReadDir sys stateDir w = inr err ∨
  ∃ files file, ReadDir sys stateDir w = inl files ∧ file ∈ files ∧
    fi_IsDir file = false ∧
    ReadFile sys (pathJoin sys stateDir (fi_Name file)) w = inr err.
Proof.
  unfold LoadRunningServices. destruct (ReadDir sys stateDir w) as [files|e] eqn:Hdir.
  - intros H. right. destruct (loadFiles_error _ _ _ _ _ H) as (f & Hf). by exists files, f.
  - intros [= <-]. by left.
Qed.

(** The loop gets past the file: it is a directory, or it can be read and
    the decoder finds a service in it. *)
Definition decodes (stateDir : string) (w : W) (file : FileInfo) : Prop :=
  fi_IsDir file = true ∨
  ∃ raw service, fi_IsDir file = false ∧
    ReadFile sys (pathJoin sys stateDir (fi_Name file)) w = inl raw ∧
    Service (Unmarshal sys raw zeroInstance).1 = Some service.

(** A file the decoder finds a service in is appended, error or no error
    from the decoder. *)
Lemma loadFiles_decoded (stateDir : string) (w : W) (rest : list FileInfo)
    (file : FileInfo) (raw : string) (service : ServiceConfig)
    (services : list ServiceConfig) :
  fi_IsDir file = false →
  ReadFile sys (pathJoin sys stateDir (fi_Name file)) w = inl raw →
  Service (Unmarshal sys raw zeroInstance).1 = Some service →
  loadFiles sys stateDir w (file :: rest) services =
  loadFiles sys stateDir w rest
    (services ++
     [setServiceConfigFile (ConfigFile (Unmarshal sys raw zeroInstance).1) service]).
Proof. intros Hfile Hread Hs. simpl. by rewrite Hfile, Hread, Hs. Qed.

(** A file the decoder leaves without a service makes the loop panic when
    it gets to it: the service is written through a nil pointer. *)
Lemma loadFiles_nil_service (stateDir : string) (w : W) (before after : list FileInfo)
    (file : FileInfo) (raw : string) (services : list ServiceConfig) :
  Forall (decodes stateDir w) before →
  fi_IsDir file = false →
  ReadFile sys (pathJoin sys stateDir (fi_Name file)) w = inl raw →
  Service (Unmarshal sys raw zeroInstance).1 = None →
  loadFiles sys stateDir w (before ++ file :: after) services = LoadPanics.
Proof.
  intros Hbefore Hfile Hread Hnil. revert services.
  induction Hbefore as [|f before Hf _ IH]; intros services; simpl.
  - by rewrite Hfile, Hread, Hnil.
  - destruct Hf as [Hf|(raw' & service & Hf & Hread' & Hs)].
    + by rewrite Hf.
    + by rewrite Hf, Hread', Hs.
Qed.

(** Every file decoded, the services found are returned, in the order of
    the listing, each with the configuration file of its instance. *)
Lemma loadFiles_all_decoded (stateDir : string) (w : W) (files : list FileInfo)
    (services : list ServiceConfig) :
  Forall (decodes stateDir w) files →
  ∃ found, loadFiles sys stateDir w files services = Loaded (services ++ found) ∧
    length found = length (filter (λ f, fi_IsDir f = false) files).
Proof.
  intros Hfiles. revert services.
  induction Hfiles as [|f files Hf _ IH]; intros services; simpl.
  - exists []. by rewrite app_nil_r.
  - destruct Hf as [Hf|(raw & service & Hf & Hread & Hs)].
    + rewrite Hf. destruct (IH services) as (found & -> & Hlen). exists found.
      split; [done|]. rewrite filter_cons_False; [done|]. by rewrite Hf.
    + rewrite Hf, Hread, Hs.
      destruct (IH (services ++
        [setServiceConfigFile (ConfigFile (Unmarshal sys raw zeroInstance).1) service]))
        as (found & -> & Hlen).
      eexists (_ :: found). rewrite <- app_assoc. split; [done|].
      rewrite filter_cons_True; [|done]. simpl. by rewrite Hlen.
Qed.

(** C10, on the code: [LoadRunningServices] does not look at the error of
    [json.Unmarshal], but it writes through the [Service] of the instance
    it decoded into.  At a file the decoder rejects with the zero instance
    left as it was, as it is on a syntax error, that pointer is nil and the
    call panics: no entry is appended for the file, and neither a list nor
    an error is returned. *)
Theorem load_running_nil_service (stateDir : string) (w : W)
    (before after : list FileInfo) (file : FileInfo) (raw err : string) :
  ReadDir sys stateDir w = inl (before ++ file :: after) →
  Forall (decodes stateDir w) before →
  fi_IsDir file = false →
  ReadFile sys (pathJoin sys stateDir (fi_Name file)) w = inl raw →
  Unmarshal sys raw zeroInstance = (zeroInstance, Some err) →
  LoadRunningServices sys stateDir w = LoadPanics.
Proof.
  intros Hdir Hbefore Hfile Hread Hdecode. unfold LoadRunningServices. rewrite Hdir.
  apply loadFiles_nil_service with raw; [done..|]. by rewrite Hdecode.
Qed.

End facts.

(** *** The claims at work *)

(** C5, as stated, fails: an excluded service with a pid is passed over
    without a word. *)
Lemma already_running_claim_fails :
  ¬ alreadyRunningClaim sysOk (cfgOp ["web"]) [] (webInstance 77) (mkState ∅ []).
Proof.
  intros H. destruct H as (st' & service & Heq & _ & _ & Hlast); [done|].
  rewrite (StartAsync_skipped sysOk _ _ _ _ web) in Heq; [|done|by left].
  injection Heq as <-. discriminate.
Qed.

Lemma already_running_witness :
  StartAsync sysOk (cfgOp []) [] (webInstance 77) (mkState {["web" := 77%Z]} []) =
    (mkState {["web" := 77%Z]}
       [mkUpdate ["web"; "Start"] TaskStateInProgress [];
        mkUpdate ["web"; "Start"] TaskStateWarning ["Already running"]],
     webInstance 77, Returns None).
Proof.
  assert (Pid (webInstance 77) ≠ 0%Z) as Hpid by discriminate.
  exact (already_running sysOk (cfgOp []) [] (webInstance 77)
           (mkState {["web" := 77%Z]} []) web eq_refl eq_refl eq_refl Hpid).
Defined.

Lemma stop_not_running_witness :
  Stop sysOk (λ _ (n : nat), (S n, None)) dirEx web (cfgOp []) (mkContextOverride []) []
    0%nat (mkState {["web" := 0%Z]} []) =
  (mkState ∅ [], 0%nat, None).
Proof.
  exact (stop_not_running sysOk (λ _ (n : nat), (S n, None)) dirEx web (cfgOp [])
           (mkContextOverride []) [] 0%nat (mkState {["web" := 0%Z]} [])
           (mkInstance (Some web) 0 "" (mkContextOverride []) dirEx) eq_refl eq_refl).
Defined.

Lemma probeFails_web (ready : string) (readLog : list string + string) :
  probeFails (sysEx (Some ready) readLog [] decodeEx) (cfgOp []) (webInstance 0)
    (mkState ∅ []) web 4242 {["web" := 4242%Z]} ready.
Proof.
  split; [done|]. split; [done|]. split; [done|]. split; [done|].
  exists ∅, (mkCmd ["run"] []), ∅, {["web" := 4242%Z]}. done.
Qed.

(** C4, as stated, fails: when the log cannot be read, the task is failed
    with a note of that, and no log. *)
Lemma probe_claim_fails : ¬ probeClaim sysNoLog (cfgOp []) [] (webInstance 0) (mkState ∅ []).
Proof.
  intros H. unfold sysNoLog in H.
  destruct (H web 4242%Z {["web" := 4242%Z]} "timed out" (probeFails_web _ _))
    as (log & st' & i' & r & Heq & Hin).
  rewrite (StartAsync_probe _ _ _ _ _ _ _ _ _ (probeFails_web _ _)) in Heq.
  rewrite startFailed_spec in Heq.
  apply (f_equal (λ x, updates x.1.1)) in Heq. simpl in Heq. rewrite <- Heq in Hin.
  repeat (apply elem_of_cons in Hin as [Hin|Hin]); try discriminate.
  - injection Hin as Hin. apply (f_equal last) in Hin. rewrite last_snoc in Hin.
    discriminate.
  - by apply elem_of_nil in Hin.
Qed.

Lemma start_never_ready_witness :
  StartAsync sysSlow (cfgOp []) [] (webInstance 0) (mkState ∅ []) =
    (mkState ∅
       [mkUpdate ["web"; "Start"] TaskStateInProgress [];
        mkUpdate ["web"; "Start"] TaskStateFailed ["booting"; "timed out"];
        mkUpdate ["Cleanup"] TaskStateSuccess []],
     webInstance 0, Returns (Some "timed out")) ∧
  Pid (webInstance 0) = 0%Z.
Proof.
  destruct (start_never_ready sysSlow (cfgOp []) [] (webInstance 0) (mkState ∅ []) web
              4242%Z {["web" := 4242%Z]} "timed out" (probeFails_web _ _))
    as (st' & i' & cleanup & Hstop & Hstart & _ & Hpid).
  vm_compute in Hstop. injection Hstop as <- <- <-.
  split; [exact Hstart|reflexivity].
Defined.

Lemma load_running_nil_service_witness :
  LoadRunningServices sysCut "/state" ∅ = LoadPanics.
Proof.
  apply (load_running_nil_service sysCut "/state" ∅ [mkFileInfo "api.state" false] []
           (mkFileInfo "web.state" false) "{" "unexpected end of JSON input").
  - reflexivity.
  - constructor; [|constructor].
    right. exists "{...}", web. split; [reflexivity|]. split; reflexivity.
  - reflexivity.
  - reflexivity.
  - reflexivity.
Defined.

(** The same directory without the file that was cut off. *)
Example load_running_decoded :
  LoadRunningServices (sysEx None (inl []) [("api.state", "{...}")] decodeEx) "/state" ∅ =
  Loaded [mkServiceConfig "web" [] "" None ["PORT=80"] "/etc/edward.json" true].
Proof. reflexivity. Qed.

End InstanceFacts.

(** ** Restarting what runs *)

Module RestartFacts.
Import Restart.

(** The comparison [restartAll] sorts by, as an order. *)
Definition pidLe (a b : Instance) : Prop := (Pid a ≤ Pid b)%Z.

#[local] Instance pidLe_dec : RelDecision pidLe.
Proof. intros a b. unfold pidLe. apply _. Defined.

#[local] Instance pidLe_total : Total pidLe.
Proof. intros a b. unfold pidLe. lia. Qed.

#[local] Instance pidLe_trans : Transitive pidLe.
Proof. intros a b c. unfold pidLe. lia. Qed.

(** The calls made for one service when none fails. *)
Definition serviceCalls (skipBuild : bool) (n : string) : list Op :=
  if skipBuild then [OpStop n; OpStart n] else [OpStop n; OpBuild n; OpStart n].

Section facts.
Context {W : Type} (sys : Sys W).

(** The instance of a service, if it has one running. *)
Definition runningOf (dir : EdwardConfiguration) (w : W) (service : ServiceConfig)
    : option Instance :=
  match Load sys dir service (mkContextOverride []) w with
  | inl i => if (Pid i =? 0)%Z then None else Some i
  | inr _ => None
  end.

(** The running instances of the services of the map. *)
Definition running (c : Client) (w : W) : list Instance :=
  omap (runningOf (DirConfig c) w) (map_to_list (serviceMap c)).*2.

(** The running instances, the smallest pid first. *)
Definition ascending (c : Client) (w : W) : list Instance :=
  merge_sort pidLe (running c w).

(** The state of every service of the map can be loaded. *)
Definition allLoad (c : Client) (w : W) : Prop :=
  ∀ k s, serviceMap c !! k = Some s →
    ∃ i, Load sys (DirConfig c) s (mkContextOverride []) w = inl i.

(** No two running instances have the same pid. *)
Definition distinctPids (c : Client) (w : W) : Prop :=
  ∀ i j, i ∈ running c w → j ∈ running c w → Pid i = Pid j → i = j.

Lemma elem_of_running (c : Client) (w : W) (i : Instance) :
  i ∈ running c w ↔
  ∃ k s, serviceMap c !! k = Some s ∧
    Load sys (DirConfig c) s (mkContextOverride []) w = inl i ∧ Pid i ≠ 0%Z.
Proof.
  unfold running. rewrite list_elem_of_omap. split.
  - intros (s & Hs & Hrun). apply list_elem_of_fmap in Hs as ([k s'] & -> & Hks).
    apply elem_of_map_to_list in Hks. exists k, s'. split; [done|].
    unfold runningOf in Hrun. simpl in Hrun.
    destruct (Load sys _ s' _ w) as [i'|]; [|done].
    destruct (Pid i' =? 0)%Z eqn:Hpid; [done|]. apply Z.eqb_neq in Hpid. by simplify_eq.
  - intros (k & s & Hks & Hload & Hpid). exists s. split.
    + apply list_elem_of_fmap. exists (k, s). split; [done|]. by apply elem_of_map_to_list.
    + unfold runningOf. rewrite Hload. apply Z.eqb_neq in Hpid. by rewrite Hpid.
Qed.

Lemma runningInstances_loaded (dir : EdwardConfiguration) (w : W)
    (services : list ServiceConfig) (instances : list Instance) :
  Forall (λ s, ∃ i, Load sys dir s (mkContextOverride []) w = inl i) services →
  runningInstances sys dir w services instances =
    inl (instances ++ omap (runningOf dir w) services).
Proof.
  intros Hall. revert instances. induction Hall as [|s services [i Hi] _ IH]; intros instances.
  - simpl. by rewrite app_nil_r.
  - simpl. unfold HasRunning, runningOf. rewrite Hi.
    destruct (Pid i =? 0)%Z; [apply IH|]. rewrite IH. by rewrite <- app_assoc.
Qed.

(** A state that cannot be loaded ends the collection with its error. *)
Lemma runningInstances_error (dir : EdwardConfiguration) (w : W)
    (services : list ServiceConfig) (instances : list Instance) (err : string) :
  runningInstances sys dir w services instances = inr err →
  ∃ s, s ∈ services ∧ Load sys dir s (mkContextOverride []) w = inr err.
Proof.
  revert instances. induction services as [|s services IH]; intros instances; [done|].
  simpl. unfold HasRunning.
  destruct (Load sys dir s _ w) as [i|e] eqn:Hload.
  - destruct (Pid i =? 0)%Z; intros H; destruct (IH _ H) as (s' & Hin & Hs');
      exists s'; (split; [by right|done]).
  - intros [= <-]. exists s. split; [left|done].
Qed.

Lemma instanceNames_services (instances : list Instance) (P : ServiceConfig → Prop) :
  Forall (λ i, ∃ s, Service i = Some s ∧ P s) instances →
  ∃ ss, instanceNames instances = Some (sc_Name <$> ss) ∧
    Forall2 (λ i s, Service i = Some s) instances ss ∧ Forall P ss.
Proof.
  induction 1 as [|i instances (s & Hs & HP) _ (ss & Hnames & Hss & HPs)].
  - by exists [].
  - exists (s :: ss). simpl. rewrite Hs, Hnames. repeat split; by constructor.
Qed.

Context (co : Collaborators W).

(** *** The calls of a restart *)

Lemma restartCalls_cons (skipBuild : bool) (n : string) (names : list string) :
  restartCalls skipBuild (n :: names) =
  serviceCalls skipBuild n ++ restartCalls skipBuild names.
Proof. done. Qed.

(** For one service: stop, build unless told not to, start, as far as
    none fails. *)
Lemma restartService_calls (c : Client) (cfg : OperationConfig) (s : ServiceConfig)
    (overrides : ContextOverride) (task : Task) (st st' : RState W) (r : ret) :
  restartService sys co c cfg s overrides task st = (st', r) →
  ∃ made, calls st' = calls st ++ made ∧
    made `prefix_of` serviceCalls (SkipBuild cfg) (sc_Name s) ∧
    (r = Returns None → made = serviceCalls (SkipBuild cfg) (sc_Name s)).
Proof.
  unfold restartService, serviceCalls, call.
  destruct (Load sys _ s overrides _) as [i|e].
  2:{ intros [= <- <-]. exists []. rewrite app_nil_r. split; [done|].
      split; [apply prefix_nil|done]. }
  destruct (stopSync co cfg _ task i _) as [[w1 i1] [[e|]|]]; simpl.
  1,3: intros [= <- <-]; exists [OpStop (sc_Name s)]; simpl; split; [done|];
       split; [|done]; destruct (SkipBuild cfg); by eexists.
  destruct (SkipBuild cfg); simpl.
  - destruct (startAsync co cfg task i1 w1) as [[w2 i2] r2]. intros [= <- <-]. simpl.
    exists [OpStop (sc_Name s); OpStart (sc_Name s)]. by rewrite <- app_assoc.
  - destruct (build co cfg _ _ task s w1) as [w2 [[e|]|]]; simpl.
    1,3: intros [= <- <-]; exists [OpStop (sc_Name s); OpBuild (sc_Name s)]; simpl;
         rewrite <- app_assoc; split; [done|]; split; [by eexists|done].
    destruct (startAsync co cfg task i1 w2) as [[w3 i3] r3]. intros [= <- <-]. simpl.
    exists [OpStop (sc_Name s); OpBuild (sc_Name s); OpStart (sc_Name s)].
    by rewrite <- !app_assoc.
Qed.

(** For the services one after the other: the calls for each in turn, up
    to the first that fails. *)
Lemma forServices_calls (c : Client) (cfg : OperationConfig) (task : Task)
    (ss : list ServiceConfig) (st st' : RState W) (r : ret) :
  forServices (restartService sys co c cfg) task ss st = (st', r) →
  ∃ made, calls st' = calls st ++ made ∧
    made `prefix_of` restartCalls (SkipBuild cfg) (sc_Name <$> ss) ∧
    (r = Returns None → made = restartCalls (SkipBuild cfg) (sc_Name <$> ss)).
Proof.
  revert st. induction ss as [|s ss IH]; intros st.
  - simpl. intros [= <- <-]. exists []. by rewrite app_nil_r.
  - rewrite fmap_cons, restartCalls_cons. cbn [forServices].
    destruct (restartService sys co c cfg s _ task st) as [st1 r1] eqn:Hs.
    apply restartService_calls in Hs as (made1 & Hcalls1 & Hpre1 & Hall1).
    destruct r1 as [[e|]|].
    1,3: intros [= <- <-]; exists made1; split; [done|];
         split; [by apply prefix_app_r|done].
    intros Hrest. apply IH in Hrest as (made & Hcalls & Hpre & Hall).
    rewrite (Hall1 eq_refl) in *. eexists (_ ++ made).
    rewrite Hcalls, Hcalls1, <- app_assoc. split; [done|].
    split; [by apply prefix_app|]. intros Hr. by rewrite (Hall Hr).
Qed.

Lemma restartOneOrMoreServices_calls (c : Client) (ss : list ServiceConfig)
    (skipBuild noWatch : bool) (exclude : list string) (st st' : RState W) (r : ret) :
  lookup_ok co c → sequential co →
  Forall (λ s, serviceMap c !! sc_Name s = Some s) ss →
  restartOneOrMoreServices sys co c (sc_Name <$> ss) skipBuild noWatch exclude st
    = (st', r) →
  ∃ made, calls st' = calls st ++ made ∧
    made `prefix_of` restartCalls skipBuild (sc_Name <$> ss) ∧
    (r = Returns None → made = restartCalls skipBuild (sc_Name <$> ss)).
Proof.
  intros Hlookup Hseq Hss. unfold restartOneOrMoreServices. rewrite (Hlookup ss Hss).
  destruct (match ServiceChecks c with Some check => _ | None => _ end) as [e|].
  { intros [= <- <-]. exists []. rewrite app_nil_r. split; [done|].
    split; [apply prefix_nil|done]. }
  rewrite Hseq.
  destruct (forServices _ [] ss st) as [st1 r1] eqn:Hrun. intros [= <- <-].
  apply forServices_calls in Hrun. exact Hrun.
Qed.

(** *** The order of a restart *)

(** The comparison of [restartAll] is one [sort.Slice] can sort by, and an
    element that is not less than another has no smaller pid. *)
Lemma pidLess_strictWeakOrder : strictWeakOrder pidLess.
Proof.
  unfold strictWeakOrder, pidLess. split; [|split].
  - intros a. apply Z.ltb_irrefl.
  - intros a b d Hab Hbd. apply Z.ltb_lt in Hab, Hbd. apply Z.ltb_lt. lia.
  - intros a b d Hab Hbd. apply Z.ltb_ge in Hab, Hbd. apply Z.ltb_ge. lia.
Qed.

Lemma pidLess_false (a b : Instance) : pidLess b a = false → pidLe a b.
Proof. unfold pidLess, pidLe. apply Z.ltb_ge. Qed.

Lemma StronglySorted_impl {A : Type} (R R' : A → A → Prop) (l : list A) :
  (∀ a b, R a b → R' a b) → StronglySorted R l → StronglySorted R' l.
Proof.
  intros Hsub. induction 1 as [|a l _ IH Hall]; constructor; [done|].
  eapply Forall_impl; [exact Hall|]. intros b. apply Hsub.
Qed.

Lemma restartOrder_loaded (c : Client) (w : W) :
  range_ok co → allLoad c w →
  restartOrder sys co c w =
    inl (sortSlice co pidLess
           (omap (runningOf (DirConfig c) w) (rangeServices co (serviceMap c)))).
Proof.
  intros Hrange Hload. unfold restartOrder.
  rewrite runningInstances_loaded; [done|].
  apply Forall_forall. intros s Hs. rewrite (Hrange (serviceMap c)) in Hs.
  apply list_elem_of_fmap in Hs as ([k s'] & -> & Hks).
  apply elem_of_map_to_list in Hks. by apply (Hload k).
Qed.

Lemma restartOrder_running (c : Client) (w : W) (instances : list Instance) :
  range_ok co → sort_ok co → allLoad c w →
  restartOrder sys co c w = inl instances →
  instances ≡ₚ running c w ∧ StronglySorted pidLe instances.
Proof.
  intros Hrange Hsort Hload. rewrite restartOrder_loaded by done. intros [= <-].
  destruct (Hsort pidLess
              (omap (runningOf (DirConfig c) w) (rangeServices co (serviceMap c)))
              pidLess_strictWeakOrder)
    as [Hperm Hsorted].
  split.
  - rewrite Hperm. unfold running. by rewrite (Hrange (serviceMap c)).
  - eapply StronglySorted_impl; [|exact Hsorted].
    intros a b Hab. by apply pidLess_false.
Qed.

(** With no pid twice, there is one order only. *)
Lemma restartOrder_ascending (c : Client) (w : W) (instances : list Instance) :
  distinctPids c w →
  instances ≡ₚ running c w → StronglySorted pidLe instances →
  instances = ascending c w.
Proof.
  intros Hdistinct Hperm Hsorted.
  apply (StronglySorted_unique_strong pidLe); [|done|apply (StronglySorted_merge_sort _)|].
  - intros i j Hi Hj Hij Hji. apply Hdistinct.
    + by rewrite <- Hperm.
    + unfold ascending in Hj. by rewrite merge_sort_Permutation in Hj.
    + unfold pidLe in *. lia.
  - unfold ascending. by rewrite merge_sort_Permutation.
Qed.

(** A state that cannot be loaded ends [restartAll] before any call. *)
Lemma restartAll_load_error (c : Client) (skipBuild noWatch : bool)
    (exclude : list string) (st : RState W) (err : string) :
  restartOrder sys co c (rworld st) = inr err →
  restartAll sys co c skipBuild noWatch exclude st = (st, Returns (Some err)) ∧
  ∃ s, s ∈ rangeServices co (serviceMap c) ∧
    Load sys (DirConfig c) s (mkContextOverride []) (rworld st) = inr err.
Proof.
  intros Horder. unfold restartAll. rewrite Horder. split; [done|].
  unfold restartOrder in Horder.
  destruct (runningInstances sys _ _ _ []) as [l|e] eqn:Hrun; [done|].
  injection Horder as ->. by apply runningInstances_error in Hrun.
Qed.

(** The names of the instances are the names of the services they belong
    to. *)
Lemma instanceNames_related (instances : list Instance)
    (Q : Instance → ServiceConfig → Prop) :
  Forall (λ i, ∃ s, Service i = Some s ∧ Q i s) instances →
  ∃ ss, instanceNames instances = Some (sc_Name <$> ss) ∧ Forall2 Q instances ss.
Proof.
  induction 1 as [|i instances (s & Hs & HQ) _ (ss & Hnames & Hss)].
  - by exists [].
  - exists (s :: ss). simpl. rewrite Hs, Hnames. split; [done|]. by constructor.
Qed.

(** C9: let a [range] over the service map yield every service once, let
    [sort.Slice] sort by the comparison it is handed, let [Load] give the
    instance of the service asked for, let names be looked up in the
    service map, which is keyed by name, let [DoForServices] take the
    services in the order given, and let every state load.  Then
    [restartAll] collects the instances that have a pid, every one once,
    and puts them in ascending order of pid by the comparison it hands to
    [sort.Slice]; the services [ss] these are the running instances of,
    in that order, are the ones it restarts: the calls are, for each
    service of [ss] in turn, its stop, its build (unless builds are
    skipped) and its start, up to the first call that fails.  When no two
    of the instances share a pid, the order is the one order of the
    running instances by pid, whatever the order of the [range] and
    whatever [sort.Slice] does with equal elements. *)
Theorem restart_all_ascending (c : Client) (skipBuild noWatch : bool)
    (exclude : list string) (st : RState W) :
  range_ok co → sort_ok co → load_ok sys → keyed c → lookup_ok co c → sequential co →
  allLoad c (rworld st) →
  ∃ instances ss,
    restartOrder sys co c (rworld st) = inl instances ∧
    instances ≡ₚ running c (rworld st) ∧
    StronglySorted pidLe instances ∧
    (distinctPids c (rworld st) → instances = ascending c (rworld st)) ∧
    Forall2 (λ i s, serviceMap c !! sc_Name s = Some s ∧
                    Load sys (DirConfig c) s (mkContextOverride []) (rworld st) = inl i ∧
                    Pid i ≠ 0%Z) instances ss ∧
    restartAll sys co c skipBuild noWatch exclude st =
      restartOneOrMoreServices sys co c (sc_Name <$> ss) skipBuild noWatch exclude st ∧
    ∃ made,
      calls (restartAll sys co c skipBuild noWatch exclude st).1 = calls st ++ made ∧
      made `prefix_of` restartCalls skipBuild (sc_Name <$> ss) ∧
      ((restartAll sys co c skipBuild noWatch exclude st).2 = Returns None →
       made = restartCalls skipBuild (sc_Name <$> ss)).
Proof.
  intros Hrange Hsort Hload Hkeyed Hlookup Hseq Hall.
  pose proof (restartOrder_loaded c (rworld st) Hrange Hall) as Horder.
  destruct (restartOrder_running c (rworld st) _ Hrange Hsort Hall Horder)
    as [Hperm Hsorted].
  set (instances := sortSlice co pidLess _) in *.
  destruct (instanceNames_related instances
              (λ i s, serviceMap c !! sc_Name s = Some s ∧
                      Load sys (DirConfig c) s (mkContextOverride []) (rworld st) = inl i ∧
                      Pid i ≠ 0%Z)) as (ss & Hnames & Hrel).
  { apply Forall_forall. intros i Hi. rewrite Hperm in Hi.
    apply elem_of_running in Hi as (k & s & Hks & Hi & Hpid).
    exists s. split; [by apply Hload in Hi|]. by rewrite (Hkeyed k s Hks). }
  assert (Forall (λ s, serviceMap c !! sc_Name s = Some s) ss) as Hss.
  { clear -Hrel. induction Hrel as [|i s l k (Hs & _) _ IH]; by constructor. }
  exists instances, ss.
  assert (restartAll sys co c skipBuild noWatch exclude st =
          restartOneOrMoreServices sys co c (sc_Name <$> ss) skipBuild noWatch exclude st)
    as Hrun by (unfold restartAll; by rewrite Horder, Hnames).
  repeat (split; [done|]). split.
  { intros Hdistinct. by apply restartOrder_ascending. }
  repeat (split; [done|]). rewrite Hrun.
  destruct (restartOneOrMoreServices sys co c _ skipBuild noWatch exclude st)
    as [st' r] eqn:Hcalls.
  by apply restartOneOrMoreServices_calls in Hcalls.
Qed.

End facts.

(** *** A restart at work *)

(** An element may go before another unless that one is less. *)
Definition notAfter (less : Instance → Instance → bool) (a b : Instance) : Prop :=
  less b a = false.

#[local] Instance notAfter_dec (less : Instance → Instance → bool) :
  RelDecision (notAfter less).
Proof. intros a b. unfold notAfter. apply _. Defined.

(** Collaborators to try the restart with: the map is gone through in the
    order of its list, the slice is sorted by merging, an element going
    before another unless that one is less, names are looked up
    in the service map, the services are taken in turn, and every stop,
    build and start succeeds. *)
Definition coEx : Collaborators (gmap string Z) :=
  mkCollaborators (gmap string Z)
    (λ m, (map_to_list m).*2)
    (λ less, merge_sort (notAfter less))
    (λ c names,
       match mapM (λ n, serviceMap c !! n) names with
       | Some ss => inl (IsService <$> ss)
       | None => inr "Service or group not found"
       end)
    (λ sgs task f st,
       forServices f task
         (omap (λ sg, match sg with IsService s => Some s | IsGroup _ => None end) sgs) st)
    (λ a b, mkContextOverride (o_Env a ++ o_Env b))
    (λ cfg o t i w,
       match Service i with
       | Some s => (delete (sc_Name s) w, setPid 0 i, Returns None)
       | None => (w, i, Panics)
       end)
    (λ cfg o dir t s w, (w, Returns None))
    (λ cfg t i w,
       match Service i with
       | Some s => (<[sc_Name s := 4242%Z]> w, setPid 4242 i, Returns None)
       | None => (w, i, Panics)
       end)
    (λ w, w).

Definition db : ServiceConfig := mkServiceConfig "db" [] "" None [] "" true.

Definition cache : ServiceConfig := mkServiceConfig "cache" [] "" None [] "" true.

(** Three services, of which [web] and [db] run, [db] with the smaller
    pid. *)
Definition clientEx : Client :=
  mkClient {["web" := InstanceFacts.web; "db" := db; "cache" := cache]}
    InstanceFacts.dirEx "." "edward" [] "" None.

Definition worldEx : gmap string Z := {["web" := 77%Z; "db" := 12%Z]}.

Lemma coEx_sort_ok : sort_ok coEx.
Proof.
  intros less l (Hirr & Htrans & Hneg). split; [apply merge_sort_Permutation|].
  assert (Transitive (notAfter less)) as Htr.
  { intros a b d Hab Hbd. by apply (Hneg d b a). }
  assert (Total (notAfter less)) as Htot.
  { intros a b. unfold notAfter. destruct (less b a) eqn:Hba; [|by left]. right.
    destruct (less a b) eqn:Hab; [|done].
    pose proof (Htrans a b a Hab Hba) as Haa. by rewrite Hirr in Haa. }
  apply (StronglySorted_merge_sort (notAfter less)).
Qed.

Lemma sysOk_load_ok : load_ok InstanceFacts.sysOk.
Proof. intros dir s o w i [= <-]. done. Qed.

Lemma clientEx_keyed : keyed clientEx.
Proof.
  intros k s H. simpl in H.
  repeat (apply lookup_insert_Some in H as [[<- <-]|[_ H]]; [done|]).
  by apply lookup_singleton_Some in H as [<- <-].
Qed.

Lemma coEx_lookup_ok (c : Client) : lookup_ok coEx c.
Proof.
  intros ss Hss. simpl.
  assert (mapM (λ n, serviceMap c !! n) (sc_Name <$> ss) = Some ss) as ->; [|done].
  apply mapM_Some_2. apply Forall2_fmap_l.
  induction Hss; by constructor.
Qed.

Lemma coEx_sequential : sequential coEx.
Proof.
  intros ss task f st. simpl. f_equal. induction ss as [|s ss IH]; [done|].
  simpl. f_equal. exact IH.
Qed.

Lemma restart_all_ascending_witness :
  restartAll InstanceFacts.sysOk coEx clientEx false false [] (mkRState worldEx []) =
    (mkRState {["web" := 4242%Z; "db" := 4242%Z]}
       [OpStop "db"; OpBuild "db"; OpStart "db";
        OpStop "web"; OpBuild "web"; OpStart "web"],
     Returns None) ∧
  ascending InstanceFacts.sysOk clientEx worldEx =
    [mkInstance (Some db) 12 "" (mkContextOverride []) InstanceFacts.dirEx;
     mkInstance (Some InstanceFacts.web) 77 "" (mkContextOverride []) InstanceFacts.dirEx].
Proof.
  destruct (restart_all_ascending InstanceFacts.sysOk coEx clientEx false false []
              (mkRState worldEx []))
    as (instances & ss & Horder & _ & _ & Hasc & Hrel & Hrun & made & Hcalls & _ & Hmade).
  - intros m. reflexivity.
  - exact coEx_sort_ok.
  - exact sysOk_load_ok.
  - exact clientEx_keyed.
  - exact (coEx_lookup_ok clientEx).
  - exact coEx_sequential.
  - intros k s _. eexists. reflexivity.
  - vm_compute in Horder. injection Horder as <-.
    apply Forall2_cons_inv_l in Hrel as (s1 & ss1 & (_ & Hs1 & _) & Hrel & ->).
    apply Forall2_cons_inv_l in Hrel as (s2 & ss2 & (_ & Hs2 & _) & Hrel & ->).
    apply Forall2_nil_inv_l in Hrel as ->.
    simpl in Hs1, Hs2. injection Hs1 as Hp1 Hd1. injection Hs2 as Hp2 Hd2. subst s1 s2.
    split; [|by vm_compute].
    rewrite Hrun. by vm_compute.
Defined.

End RestartFacts.

(** ** Building and editing a configuration: the properties *)

Module ConfigOpsFacts.
Import ConfigOps ConfigFacts.

(** *** Counting *)

(** How often [v] occurs in [l]. *)
Definition occurrences (v : string) (l : list string) : nat :=
  length (filter (λ x, x = v) l).

Lemma occurrences_cons (v x : string) (l : list string) :
  occurrences v (x :: l) = (if decide (x = v) then 1 else 0) + occurrences v l.
Proof. unfold occurrences. rewrite filter_cons. by case_decide. Qed.

Lemma occurrences_app (v : string) (l k : list string) :
  occurrences v (l ++ k) = occurrences v l + occurrences v k.
Proof. unfold occurrences. by rewrite filter_app, length_app. Qed.

Lemma occurrences_pos (v : string) (l : list string) : 0 < occurrences v l ↔ v ∈ l.
Proof.
  induction l as [|x l IH].
  { unfold occurrences. simpl. split; [lia|]. by intros ?%elem_of_nil. }
  rewrite occurrences_cons, elem_of_cons. case_decide; [subst; split; [by left|simpl; lia]|].
  simpl. rewrite IH. naive_solver.
Qed.

Lemma occurrences_NoDup (v : string) (l : list string) :
  NoDup l → occurrences v l = if decide (v ∈ l) then 1 else 0.
Proof.
  induction 1 as [|x l Hx Hl IH]; [done|].
  rewrite occurrences_cons, IH.
  destruct (decide (x = v)) as [->|Hxv], (decide (v ∈ l)) as [Hin|Hin],
    (decide (v ∈ _ :: l)) as [Hin'|Hin']; try done.
  - exfalso. apply Hin'. left.
  - exfalso. apply Hin'. by right.
  - exfalso. apply elem_of_cons in Hin' as [->|?]; done.
Qed.

(** After one slice, every count has grown by the occurrences in it. *)
Lemma countValues_lookup (counts : gmap string nat) (s : list string) (v : string) :
  default 0 (countValues counts s !! v) = default 0 (counts !! v) + occurrences v s.
Proof.
  unfold countValues. revert counts. induction s as [|x s IH]; intros counts; simpl.
  - unfold occurrences. simpl. lia.
  - rewrite IH, occurrences_cons. case_decide as Hx.
    + subst. rewrite lookup_insert_eq. simpl. lia.
    + by rewrite lookup_insert_ne.
Qed.

Lemma countValues_dom (counts : gmap string nat) (s : list string) :
  dom (countValues counts s) = dom counts ∪ list_to_set s.
Proof.
  unfold countValues. revert counts. induction s as [|x s IH]; intros counts; simpl.
  - set_solver.
  - rewrite IH, dom_insert_L. set_solver.
Qed.

Lemma countSlices_lookup (counts : gmap string nat) (slices : list (list string))
    (v : string) :
  default 0 (foldl countValues counts slices !! v) =
  default 0 (counts !! v) + occurrences v (concat slices).
Proof.
  revert counts. induction slices as [|s slices IH]; intros counts; simpl.
  - unfold occurrences. simpl. lia.
  - rewrite IH, countValues_lookup, occurrences_app. lia.
Qed.

Lemma countSlices_dom (counts : gmap string nat) (slices : list (list string)) :
  dom (foldl countValues counts slices) = dom counts ∪ list_to_set (concat slices).
Proof.
  revert counts. induction slices as [|s slices IH]; intros counts; simpl.
  - set_solver.
  - rewrite IH, countValues_dom. set_solver.
Qed.

Lemma stringSliceIntersect_spec (h : Host) (slices : list (list string)) :
  range_ok h →
  NoDup (stringSliceIntersect h slices) ∧
  ∀ v, v ∈ stringSliceIntersect h slices ↔
       v ∈ concat slices ∧ occurrences v (concat slices) = length slices.
Proof.
  intros Hrange. unfold stringSliceIntersect. split.
  - apply NoDup_filter. rewrite (Hrange _). apply NoDup_elements.
  - intros v. rewrite list_elem_of_filter, (Hrange _), elem_of_elements.
    rewrite countSlices_dom, dom_empty_L, (left_id_L ∅ (∪)), elem_of_list_to_set.
    pose proof (countSlices_lookup ∅ slices v) as Hcount.
    rewrite lookup_empty in Hcount. simpl in Hcount.
    split.
    + intros [Hv Hin]. split; [done|]. rewrite Hv in Hcount. simpl in Hcount. lia.
    + intros [Hin Hocc]. split; [|done].
      assert (v ∈ dom (foldl countValues ∅ slices)) as Hd.
      { rewrite countSlices_dom. set_solver. }
      apply elem_of_dom in Hd as [n Hn]. rewrite Hn in Hcount. simpl in Hcount.
      rewrite Hn. f_equal. lia.
Qed.

Lemma length_filter_all {A : Type} (P : A → Prop) `{∀ x, Decision (P x)} (l : list A) :
  length (filter P l) = length l ↔ Forall P l.
Proof.
  induction l as [|x l IH]; [by split; [constructor|]|].
  rewrite filter_cons, Forall_cons. case_decide; simpl.
  - rewrite <- IH. split; [intros; split; [done|lia]|intros [_ ?]; lia].
  - pose proof (length_filter P l). split; [lia|tauto].
Qed.

Lemma occurrences_concat (v : string) (slices : list (list string)) :
  Forall NoDup slices →
  occurrences v (concat slices) = length (filter (λ s, v ∈ s) slices).
Proof.
  induction 1 as [|s slices Hs _ IH]; [done|].
  simpl. rewrite occurrences_app, IH, filter_cons, (occurrences_NoDup v s Hs).
  by case_decide.
Qed.

Lemma stringSliceIntersect_all (h : Host) (slices : list (list string)) (v : string) :
  range_ok h → Forall NoDup slices →
  v ∈ stringSliceIntersect h slices ↔ slices ≠ [] ∧ ∀ s, s ∈ slices → v ∈ s.
Proof.
  intros Hrange Hnd.
  rewrite (proj2 (stringSliceIntersect_spec h slices Hrange) v).
  rewrite (occurrences_concat v slices Hnd), length_filter_all, Forall_forall.
  split.
  - intros [Hin Hall]. split; [|done]. intros ->. inversion Hin.
  - intros [Hne Hall]. split; [|done]. destruct slices as [|s slices]; [done|].
    simpl. apply elem_of_app. left. apply Hall. left.
Qed.

(** X1: [stringSliceIntersect] returns, each once, the values whose
    occurrences in all the slices together are as many as there are
    slices: a value that one slice holds twice and another not at all
    counts as shared by the two. *)
Theorem stringSliceIntersect_counts (h : Host) (slices : list (list string)) :
  range_ok h →
  NoDup (stringSliceIntersect h slices) ∧
  ∀ v, v ∈ stringSliceIntersect h slices ↔
       v ∈ concat slices ∧ occurrences v (concat slices) = length slices.
Proof. apply stringSliceIntersect_spec. Qed.

(** X2: of slices none of which holds a value twice,
    [stringSliceIntersect] returns the values every slice holds; of no
    slices at all it returns nothing. *)
Theorem stringSliceIntersect_common (h : Host) (slices : list (list string)) (v : string) :
  range_ok h → Forall NoDup slices →
  v ∈ stringSliceIntersect h slices ↔ slices ≠ [] ∧ ∀ s, s ∈ slices → v ∈ s.
Proof. apply stringSliceIntersect_all. Qed.

(** *** [NewConfig] and what resolution makes of it *)

Lemma stringSliceRemoveCommon_filter (common original : list string) :
  stringSliceRemoveCommon common original = filter (λ s, s ∉ common) original.
Proof.
  unfold stringSliceRemoveCommon.
  change (foldl (λ m s, {[s]} ∪ m) ∅ common) with (addToMap ∅ common).
  rewrite addToMap_union. apply list_filter_iff. intros s. set_solver.
Qed.

(** Taking the shared values out and putting them back at the end
    rearranges the slice. *)
Lemma remove_restore (common original : list string) :
  NoDup common → NoDup original → (∀ v, v ∈ common → v ∈ original) →
  stringSliceRemoveCommon common original ++ common ≡ₚ original.
Proof.
  intros Hc Ho Hsub. rewrite stringSliceRemoveCommon_filter.
  apply NoDup_Permutation; [|done|].
  - apply NoDup_app. split; [by apply NoDup_filter|]. split; [|done].
    intros v Hv. by apply list_elem_of_filter in Hv as [Hv _].
  - intros v. rewrite elem_of_app, list_elem_of_filter.
    destruct (decide (v ∈ common)); naive_solver.
Qed.

Lemma AddGroups_fields (groups : list ServiceGroupConfig) (c : Config) :
  (AddGroups groups c).1 = setGroupDefs (Groups c ++ (groupDefOf <$> groups)) c.
Proof.
  unfold AddGroups. simpl. revert c. induction groups as [|g groups IH]; intros c; simpl.
  - rewrite app_nil_r. by destruct c.
  - rewrite IH. simpl. by rewrite <- app_assoc.
Qed.

Lemma NewConfig_fields (h : Host) (newServices : list ServiceConfig)
    (newGroups : list ServiceGroupConfig) :
  NewConfig h newServices newGroups =
  mkConfig "" [] [] (stringSliceIntersect h (sc_Env <$> newServices))
    (groupDefOf <$> newGroups)
    ((λ s, setEnv (stringSliceRemoveCommon
                     (stringSliceIntersect h (sc_Env <$> newServices)) (sc_Env s)) s)
       <$> newServices)
    ∅ ∅ "".
Proof. unfold NewConfig. by rewrite AddGroups_fields. Qed.

(** What a successful resolution tells of the configuration. *)
Lemma initMaps_resolved_full (h : Host) (c c' : Config) :
  initMaps h c = Some (c', None) →
  ∃ file sm gm, c' = setMaps sm gm c ∧ resolved c file sm gm ∧ absOk h c file ∧
    firstCollision ∅ (claimedIds c) = None ∧
    (∀ n, ¬ containsItself (allGroups c) n) ∧ orphanSet c = ∅.
Proof.
  intros Hrun. pose proof (initMaps_outcome h c) as Hout. rewrite Hrun in Hout.
  inversion Hout as [| | | |file sm gm Hok Hfc Hac Horph Hres]. by exists file, sm, gm.
Qed.

(** X3: [NewConfig] moves the environment entries that every service has
    to the configuration, and resolution appends them to each service
    again: when no service lists an entry twice, a service kept by the
    resolution of the new configuration has the entries it had, in some
    order. *)
Theorem NewConfig_env_restored (h : Host) (newServices : list ServiceConfig)
    (newGroups : list ServiceGroupConfig) (c' : Config) (s : ServiceConfig) :
  range_ok h →
  Forall (λ s, NoDup (sc_Env s)) newServices →
  initMaps h (NewConfig h newServices newGroups) = Some (c', None) →
  s ∈ newServices → sc_MatchesPlatform s = true →
  ∃ s', ServiceMap c' !! sc_Name s = Some s' ∧ sc_Env s' ≡ₚ sc_Env s.
Proof.
  intros Hrange Hnd Hrun Hs Hm.
  apply initMaps_resolved_full in Hrun as (file & sm & gm & -> & Hres & _).
  rewrite NewConfig_fields in Hres. simpl.
  set (env := stringSliceIntersect h (sc_Env <$> newServices)) in *.
  set (s2 := setEnv (stringSliceRemoveCommon env (sc_Env s)) s).
  destruct (resolved_service Hres s2) as (s' & Hs' & Hfrom).
  { apply list_elem_of_filter. split; [done|]. unfold allServices. simpl.
    rewrite app_nil_r. apply list_elem_of_fmap. by exists s. }
  exists s'. split; [done|]. destruct Hfrom as (_ & _ & _ & -> & _). simpl.
  apply remove_restore.
  - apply (stringSliceIntersect_spec h _ Hrange).
  - by apply (proj1 (Forall_forall _ _) Hnd).
  - intros v Hv. apply (stringSliceIntersect_all h _ v Hrange) in Hv as [_ Hall].
    + apply Hall. apply list_elem_of_fmap. by exists s.
    + apply Forall_fmap. exact Hnd.
Qed.


(** *** From resolved groups back to definitions *)

Lemma filter_partition {A : Type} (P Q : A → Prop)
    `{∀ x, Decision (P x)} `{∀ x, Decision (Q x)} (l : list A) :
  (∀ x, x ∈ l → P x ∨ Q x) → (∀ x, x ∈ l → P x → Q x → False) →
  filter P l ++ filter Q l ≡ₚ l.
Proof.
  induction l as [|x l IH]; intros Hor Hnot; [done|].
  rewrite !filter_cons.
  assert (filter P l ++ filter Q l ≡ₚ l) as IH'.
  { apply IH; intros y Hy; [apply Hor|apply Hnot]; by right. }
  destruct (decide (P x)) as [HP|HP], (decide (Q x)) as [HQ|HQ].
  - destruct (Hnot x); [left|done..].
  - simpl. by rewrite IH'.
  - rewrite <- Permutation_middle. by rewrite IH'.
  - destruct (Hor x); [left|done..].
Qed.

(** A resolved group, field by field. *)
Lemma resolved_group_fields (c : Config) (file : string) (sm : gmap string ServiceConfig)
    (gm : gmap string ServiceGroupConfig) (g : GroupDef) :
  resolved c file sm gm → g ∈ allGroups c →
  gm !! gd_Name g =
    Some (mkServiceGroupConfig (gd_Name g) (gd_Aliases g) (gd_Description g)
            (filter (λ n, n ∈ dom sm) (gd_Children g))
            (filter (λ n, n ∈ dom gm) (gd_Children g))
            (gd_Env g) (gd_Children g)).
Proof.
  intros Hres Hg. pose proof (res_inv _ _ _ _ Hres) as Hinv.
  destruct (inv_done _ _ _ _ Hinv g Hg) as (sg & Hsg & Hgr).
  pose proof (res_groups _ _ _ _ Hres (gd_Name g)) as Hn.
  rewrite (storeGroups_lookup _ _ ∅ g (inv_nodup _ _ _ _ Hinv) Hg), Hsg in Hn.
  inversion Hn as [? ? [cg Hcg]|]; subst. rewrite Hsg. f_equal.
  simpl in Hgr. by rewrite Hgr.
Qed.

Lemma elem_of_concat (x : string) (ls : list (list string)) :
  x ∈ concat ls ↔ ∃ l, l ∈ ls ∧ x ∈ l.
Proof.
  induction ls as [|l ls IH]; simpl.
  - split; [intros H; inversion H|]. intros (l & Hl & _). inversion Hl.
  - rewrite elem_of_app, IH. split.
    + intros [H|(l' & Hl' & H)]; [exists l; split; [left|done]|].
      exists l'. split; [by right|done].
    + intros (l' & Hl' & H). apply elem_of_cons in Hl' as [->|Hl']; [by left|].
      right. eauto.
Qed.

(** Without collision, no kept service has the name of a group. *)
Lemma kept_service_no_group (c : Config) (n : string) :
  firstCollision ∅ (claimedIds c) = None →
  n ∈ serviceNames (matching (allServices c)) → n ∈ groupNames (allGroups c) → False.
Proof.
  intros Hfc Hs Hg. apply (proj1 (no_collision_iff _) Hfc n).
  apply elem_of_groupNames in Hg as (g & Hg & Hgn).
  apply list_elem_of_fmap in Hs as (s & Hsn & Hs).
  apply list_elem_of_split in Hg as (l1 & l2 & Hsplit).
  exists ((serviceIds <$> matching (allServices c)) ++ (groupIds <$> l1)),
    (groupIds g), (groupIds <$> l2).
  split; [|split].
  - unfold claimedIds. by rewrite Hsplit, fmap_app, fmap_cons, <- app_assoc.
  - rewrite <- Hgn. apply groupIds_name.
  - rewrite concat_app. apply elem_of_app. left.
    apply elem_of_concat. exists (serviceIds s). split.
    + by apply list_elem_of_fmap_2.
    + rewrite Hsn. apply serviceIds_name.
Qed.

(** X4: the definition [AddGroups] writes for a resolved group has the
    name, the aliases, the description and the environment of the
    definition the group was resolved from; its children are the groups
    among the children of that definition followed by the kept services
    among them, each in the order it had.  When no service of the
    configuration is skipped, these are the same children, in another
    order. *)
Theorem AddGroups_round_trip (h : Host) (c c' : Config) (g : GroupDef) :
  initMaps h c = Some (c', None) →
  g ∈ allGroups c →
  ∃ sg, GroupMap c' !! gd_Name g = Some sg ∧
    groupDefOf sg =
      mkGroupDef (gd_Name g) (gd_Aliases g) (gd_Description g)
        (filter (λ n, n ∈ groupNames (allGroups c)) (gd_Children g) ++
         filter (λ n, n ∈ serviceNames (matching (allServices c))) (gd_Children g))
        (gd_Env g) ∧
    (skippedServices (allServices c) = [] →
     gd_Children (groupDefOf sg) ≡ₚ gd_Children g).
Proof.
  intros Hrun Hg.
  apply initMaps_resolved_full in Hrun as (file & sm & gm & -> & Hres & _ & Hfc & _ & Horph).
  simpl. rewrite (resolved_group_fields c file sm gm g Hres Hg).
  set (sg := mkServiceGroupConfig (gd_Name g) (gd_Aliases g) (gd_Description g)
               (filter (λ n, n ∈ dom sm) (gd_Children g))
               (filter (λ n, n ∈ dom gm) (gd_Children g)) (gd_Env g) (gd_Children g)).
  exists sg. split; [done|].
  assert (groupDefOf sg =
          mkGroupDef (gd_Name g) (gd_Aliases g) (gd_Description g)
            (filter (λ n, n ∈ groupNames (allGroups c)) (gd_Children g) ++
             filter (λ n, n ∈ serviceNames (matching (allServices c))) (gd_Children g))
            (gd_Env g)) as Hdef.
  { unfold groupDefOf, sg. simpl. f_equal. f_equal.
    - apply list_filter_iff. intros n.
      by rewrite (resolved_dom_groups Hres), elem_of_list_to_set.
    - apply list_filter_iff. intros n.
      by rewrite (resolved_dom_services Hres), elem_of_list_to_set. }
  split; [exact Hdef|]. intros Hskip.
  change (gd_Children (groupDefOf sg) ≡ₚ gd_Children g). rewrite Hdef. simpl.
  apply filter_partition.
  - intros n Hn. destruct (decide (n ∈ groupNames (allGroups c))) as [|Hng]; [by left|].
    right. destruct (decide (n ∈ serviceNames (allServices c))) as [Hns|Hns].
    + apply elem_of_serviceNames_split in Hns as [|Hsk]; [done|].
      rewrite Hskip in Hsk. inversion Hsk.
    + assert (n ∈ orphanSet c) as Ho; [|by rewrite Horph in Ho; set_solver].
      apply elem_of_orphanSet. split; [by exists g|done].
  - intros n _ Hng Hns. by apply (kept_service_no_group c n).
Qed.

(** *** [AppendServices] *)

Lemma appendService_bound (c : Config) (s : ServiceConfig) (n : string) (s0 : ServiceConfig) :
  ServiceMap c !! n = Some s0 → ServiceMap (appendService c s) !! n = Some s0.
Proof.
  intros Hn. unfold appendService. destruct (ServiceMap c !! sc_Name s) eqn:Hs; [done|].
  simpl. rewrite lookup_insert_ne; [done|]. intros <-. congruence.
Qed.

Lemma AppendServices_bound (newServices : list ServiceConfig) (c : Config)
    (n : string) (s0 : ServiceConfig) :
  ServiceMap c !! n = Some s0 →
  ServiceMap (AppendServices newServices c).1 !! n = Some s0.
Proof.
  unfold AppendServices. simpl. revert c.
  induction newServices as [|s l IH]; intros c Hn; [done|].
  simpl. apply IH. by apply appendService_bound.
Qed.

(** The services [AppendServices] adds: those of a name neither in the map
    nor earlier in the slice. *)
Fixpoint added (bound : gset string) (newServices : list ServiceConfig)
    : list ServiceConfig :=
  match newServices with
  | [] => []
  | s :: rest =>
      if decide (sc_Name s ∈ bound) then added bound rest
      else s :: added ({[sc_Name s]} ∪ bound) rest
  end.

Lemma AppendServices_added (newServices : list ServiceConfig) (c : Config) :
  Services (AppendServices newServices c).1 =
    Services c ++ added (dom (ServiceMap c)) newServices ∧
  dom (ServiceMap (AppendServices newServices c).1) =
    dom (ServiceMap c) ∪ list_to_set (serviceNames newServices) ∧
  ∀ s, s ∈ added (dom (ServiceMap c)) newServices →
       ServiceMap (AppendServices newServices c).1 !! sc_Name s = Some s.
Proof.
  unfold AppendServices. simpl. revert c.
  induction newServices as [|s l IH]; intros c; simpl.
  - rewrite app_nil_r. split; [done|]. split; [set_solver|]. intros s Hs. inversion Hs.
  - destruct (IH (appendService c s)) as (IH1 & IH2 & IH3).
    unfold appendService in *.
    destruct (ServiceMap c !! sc_Name s) as [s0|] eqn:Hs.
    + assert (sc_Name s ∈ dom (ServiceMap c)) as Hd by (apply elem_of_dom; eauto).
      rewrite decide_True by done. split; [done|]. split; [|done].
      rewrite IH2. set_solver.
    + assert (sc_Name s ∉ dom (ServiceMap c)) as Hd by (by apply not_elem_of_dom).
      rewrite decide_False by done. simpl in *. rewrite dom_insert_L in *.
      split; [by rewrite IH1, <- app_assoc|]. split; [rewrite IH2; set_solver|].
      intros s1 Hs1. apply elem_of_cons in Hs1 as [->|Hs1]; [|by apply IH3].
      apply (AppendServices_bound l _ (sc_Name s) s). simpl. by rewrite lookup_insert_eq.
Qed.

Lemma added_spec (bound : gset string) (newServices : list ServiceConfig) :
  added bound newServices `sublist_of` newServices ∧
  NoDup (serviceNames (added bound newServices)) ∧
  ∀ s, s ∈ added bound newServices → sc_Name s ∉ bound.
Proof.
  revert bound. induction newServices as [|s l IH]; intros bound; simpl.
  - split; [done|]. split; [constructor|]. intros s Hs. inversion Hs.
  - destruct (decide (sc_Name s ∈ bound)) as [Hb|Hb].
    + destruct (IH bound) as (H1 & H2 & H3). split; [by apply sublist_cons|done].
    + destruct (IH ({[sc_Name s]} ∪ bound)) as (H1 & H2 & H3).
      split; [by apply sublist_skip|]. split.
      * unfold serviceNames. rewrite fmap_cons. constructor; [|done].
        intros Hin. apply list_elem_of_fmap in Hin as (s1 & Hn & Hs1).
        apply H3 in Hs1. rewrite <- Hn in Hs1. set_solver.
      * intros s1 Hs1. apply elem_of_cons in Hs1 as [->|Hs1]; [done|].
        apply H3 in Hs1. set_solver.
Qed.

(** A service is among those added exactly when its name is not bound and
    no service before it in the slice has that name. *)
Lemma elem_of_added (bound : gset string) (newServices : list ServiceConfig)
    (s : ServiceConfig) :
  s ∈ added bound newServices ↔
  ∃ before after, newServices = before ++ s :: after ∧
    (sc_Name s ∉ bound) ∧ sc_Name s ∉ serviceNames before.
Proof.
  revert bound. induction newServices as [|x l IH]; intros bound; simpl.
  - split; [intros H; inversion H|]. intros (before & after & Heq & _). by destruct before.
  - destruct (decide (sc_Name x ∈ bound)) as [Hb|Hb].
    + rewrite IH. split.
      * intros (before & after & -> & Hs & Hbefore). exists (x :: before), after.
        split; [done|]. split; [done|]. unfold serviceNames. rewrite fmap_cons.
        intros Hin. apply elem_of_cons in Hin as [Heq|Hin]; [|done]. congruence.
      * intros (before & after & Heq & Hs & Hbefore).
        destruct before as [|y before]; simplify_eq/=; [done|].
        exists before, after. split; [done|]. split; [done|].
        intros Hin. apply Hbefore. by right.
    + rewrite elem_of_cons, IH. split.
      * intros [->|(before & after & -> & Hs & Hbefore)].
        -- exists [], l. split; [done|]. split; [done|]. by intros ?%elem_of_nil.
        -- exists (x :: before), after. split; [done|]. split; [set_solver|].
           unfold serviceNames. rewrite fmap_cons. set_solver.
      * intros (before & after & Heq & Hs & Hbefore).
        destruct before as [|y before]; simplify_eq/=; [by left|].
        right. exists before, after. split; [done|]. set_solver.
Qed.

(** The service a name is bound to after [AppendServices]. *)
Lemma AppendServices_lookup (newServices : list ServiceConfig) (c : Config) (n : string) :
  ServiceMap (AppendServices newServices c).1 !! n =
  match ServiceMap c !! n with
  | Some s => Some s
  | None => snd <$> list_find (λ s, sc_Name s = n) newServices
  end.
Proof.
  unfold AppendServices. simpl. revert c.
  induction newServices as [|x l IH]; intros c; simpl.
  - by destruct (ServiceMap c !! n).
  - rewrite IH. unfold appendService.
    destruct (ServiceMap c !! sc_Name x) as [x0|] eqn:Hx.
    + destruct (ServiceMap c !! n) as [s|] eqn:Hn; [done|].
      rewrite decide_False by (intros Heq; congruence).
      by destruct (list_find _ l) as [[i s]|].
    + simpl. destruct (decide (sc_Name x = n)) as [<-|Hne].
      * by rewrite lookup_insert_eq, Hx.
      * rewrite lookup_insert_ne by done.
        destruct (ServiceMap c !! n) as [s|]; [done|].
        by destruct (list_find _ l) as [[i s]|].
Qed.

(** X5: [AppendServices] never replaces a service: a name already in the
    service map keeps its service, and a name that was not in the map is
    bound to the first service of that name in the slice, if there is
    one.  It appends to [Services] exactly the services [added]: in the
    order of the slice, every service whose name was not in the map and
    is the name of no service before it in the slice. *)
Theorem AppendServices_keeps (newServices : list ServiceConfig) (c : Config) :
  let c' := (AppendServices newServices c).1 in
  let new := added (dom (ServiceMap c)) newServices in
  (∀ n s, ServiceMap c !! n = Some s → ServiceMap c' !! n = Some s) ∧
  (∀ n, ServiceMap c !! n = None →
        ServiceMap c' !! n = snd <$> list_find (λ s, sc_Name s = n) newServices) ∧
  Services c' = Services c ++ new ∧
  new `sublist_of` newServices ∧
  (∀ s, s ∈ new ↔
        ∃ before after, newServices = before ++ s :: after ∧
          ServiceMap c !! sc_Name s = None ∧ sc_Name s ∉ serviceNames before) ∧
  (AppendServices newServices c).2 = None.
Proof.
  intros c' new. destruct (AppendServices_added newServices c) as (H1 & _ & _).
  destruct (added_spec (dom (ServiceMap c)) newServices) as (H4 & _ & _).
  split; [intros n s; apply AppendServices_bound|]. split.
  { intros n Hn. unfold c'. by rewrite AppendServices_lookup, Hn. }
  split; [done|]. split; [done|]. split; [|done].
  intros s. unfold new. rewrite elem_of_added.
  by setoid_rewrite not_elem_of_dom.
Qed.

Lemma AppendServices_all_bound (newServices : list ServiceConfig) (c : Config) :
  (∀ s, s ∈ newServices → is_Some (ServiceMap c !! sc_Name s)) →
  (AppendServices newServices c).1 = c.
Proof.
  unfold AppendServices. simpl. induction newServices as [|s l IH]; intros Hall; [done|].
  simpl. unfold appendService at 2. destruct (Hall s) as [s0 ->]; [left|].
  apply IH. intros s1 Hs1. apply Hall. by right.
Qed.

(** X6: appending the same services a second time changes nothing. *)
Theorem AppendServices_twice (newServices : list ServiceConfig) (c : Config) :
  AppendServices newServices (AppendServices newServices c).1 =
  AppendServices newServices c.
Proof.
  unfold AppendServices at 1 3. f_equal.
  apply (AppendServices_all_bound newServices (AppendServices newServices c).1).
  intros s Hs. apply elem_of_dom.
  rewrite (proj1 (proj2 (AppendServices_added newServices c))).
  apply elem_of_union. right. apply elem_of_list_to_set. by apply list_elem_of_fmap_2.
Qed.

(** *** [RemoveGroup] *)


(** X8: [AddGroups] writes definitions only, and [RemoveGroup] asks the
    group map only: a group that was added and has not been resolved since
    cannot be removed, and its definition stays. *)
Theorem RemoveGroup_after_AddGroups (group : ServiceGroupConfig) (c : Config) :
  GroupMap c !! sg_Name group = None →
  let c' := (AddGroups [group] c).1 in
  RemoveGroup (sg_Name group) c' = (c', Some "Group not found") ∧
  groupDefOf group ∈ Groups c'.
Proof.
  intros Hnone c'. unfold c'. rewrite AddGroups_fields. unfold RemoveGroup. simpl.
  rewrite Hnone. split; [done|]. apply elem_of_app. right. left.
Qed.

(** *** Removing a group that is still a child *)

Lemma colliding_sublist (defs2 defs : list (list string)) (x : string) :
  defs2 `sublist_of` defs → colliding defs2 x → colliding defs x.
Proof.
  intros Hsub (pre & d & post & -> & Hx & Hpre).
  apply sublist_app_l in Hsub as (k1 & k2 & -> & H1 & H2).
  apply sublist_cons_l in H2 as (k21 & k22 & -> & H3).
  exists (k1 ++ k21), d, k22. split; [by rewrite <- app_assoc|]. split; [done|].
  rewrite concat_app. apply elem_of_app. left.
  apply elem_of_concat in Hpre as (l & Hl & Hxl). apply elem_of_concat.
  exists l. split; [|done]. by eapply elem_of_sublist.
Qed.

Lemma containsItself_mono (gs2 gs : list GroupDef) (n : string) :
  (∀ g, g ∈ gs2 → g ∈ gs) → containsItself gs2 n → containsItself gs n.
Proof.
  intros Hsub.
  assert (∀ a b, contains gs2 a b → contains gs a b) as Hc.
  { intros a b (g & Hg & Ha & Hb & Hbn). exists g. repeat split; try done; [by apply Hsub|].
    apply elem_of_groupNames in Hbn as (g' & Hg' & <-).
    apply elem_of_groupNames. exists g'. split; [by apply Hsub|done]. }
  assert (∀ a b, tc (contains gs2) a b → tc (contains gs) a b) as Htc; [|apply Htc].
  intros a b Hab. induction Hab as [a b Hab|a b d Hab _ IH].
  - apply tc_once. by apply Hc.
  - eapply tc_l; [by apply Hc|done].
Qed.

(** X9: [RemoveGroup] takes a group out of [Groups] and of the group map,
    not out of the children of other groups.  After a resolution that went
    through, removing a group that another group has as a child leaves a
    configuration whose next resolution fails: the name of the removed
    group is among those that cannot be found. *)
Theorem RemoveGroup_leaves_orphan (h : Host) (c c' : Config) (name : string)
    (parent : GroupDef) :
  range_ok h →
  initMaps h c = Some (c', None) →
  name ∈ groupNames (Groups c) →
  name ∉ serviceNames (skippedServices (allServices c)) →
  parent ∈ allGroups c → gd_Name parent ≠ name → name ∈ gd_Children parent →
  let c2 := (RemoveGroup name c').1 in
  (RemoveGroup name c').2 = None ∧
  ∃ keys, initMaps h c2 = Some (c2, Some (ErrOrphans keys)) ∧ name ∈ keys.
Proof.
  intros Hrange Hrun Hname Hskip Hparent Hne Hchild.
  apply initMaps_resolved_full in Hrun as (file & sm & gm & -> & Hres & Hok & Hfc & Hac & _).
  assert (is_Some (gm !! name)) as [sg Hsg].
  { apply elem_of_dom. rewrite (resolved_dom_groups Hres), elem_of_list_to_set.
    unfold allGroups, groupNames. rewrite fmap_app. apply elem_of_app. by left. }
  unfold RemoveGroup. simpl. rewrite Hsg. simpl. split; [done|].
  set (c2 := mkConfig _ _ _ _ _ _ _ _ _).
  assert (allServices c2 = allServices c) as Hss by done.
  assert (allGroups c2 = filter (λ g, gd_Name g ≠ name) (Groups c) ++ ImportedGroups c)
    as Hgs by done.
  assert (∀ g, g ∈ allGroups c2 → g ∈ allGroups c) as Hsub.
  { intros g. rewrite Hgs. unfold allGroups. rewrite !elem_of_app, list_elem_of_filter.
    naive_solver. }
  assert (absOk h c2 file) as Hok2 by exact Hok.
  assert (firstCollision ∅ (claimedIds c2) = None) as Hfc2.
  { apply no_collision_iff. intros x Hx.
    apply (proj1 (no_collision_iff _) Hfc x). revert Hx. apply colliding_sublist.
    unfold claimedIds. rewrite Hss, Hgs. apply sublist_app; [done|].
    apply fmap_sublist. unfold allGroups. apply sublist_app; [apply sublist_filter|done]. }
  assert (name ∈ orphanSet c2) as Horph.
  { apply elem_of_orphanSet. split; [|split].
    - exists parent. split; [|done]. rewrite Hgs. unfold allGroups in Hparent.
      apply elem_of_app in Hparent as [Hp|Hp]; apply elem_of_app; [left|by right].
      by apply list_elem_of_filter.
    - rewrite Hss. intros Hin. apply elem_of_serviceNames_split in Hin as [Hin|Hin]; [|done].
      apply (kept_service_no_group c name Hfc Hin).
      unfold allGroups, groupNames. rewrite fmap_app. apply elem_of_app. by left.
    - rewrite Hgs. unfold groupNames. rewrite fmap_app. intros Hin.
      apply elem_of_app in Hin as [Hin|Hin].
      + apply list_elem_of_fmap in Hin as (g & Hg & Hgin).
        by apply list_elem_of_filter in Hgin as [Hgn _].
      + pose proof (inv_nodup _ _ _ _ (res_inv _ _ _ _ Hres)) as Hnd.
        unfold allGroups, groupNames in Hnd. rewrite fmap_app in Hnd.
        apply NoDup_app in Hnd as (_ & Hdisj & _). by apply (Hdisj name). }
  pose proof (initMaps_spec h c2 file Hok2) as Hspec. rewrite Hfc2 in Hspec.
  destruct Hspec as [(n & _ & Hn)|[_ Hrest]].
  { destruct (Hac n). by apply (containsItself_mono (allGroups c2)). }
  rewrite decide_False in Hrest by set_solver.
  exists (rangeKeys h (orphanSet c2)). split; [done|].
  by rewrite (Hrange (orphanSet c2)), elem_of_elements.
Qed.

(** *** Imports *)

Lemma resolved_service_stored (c : Config) (file : string) (sm : gmap string ServiceConfig)
    (gm : gmap string ServiceGroupConfig) (s : ServiceConfig) :
  resolved c file sm gm → s ∈ matching (allServices c) →
  ∃ s', sm !! sc_Name s = Some s' ∧ upToPath (mergeService c file s) s'.
Proof.
  intros Hres Hs. pose proof (res_services _ _ _ _ Hres (sc_Name s)) as Hn.
  rewrite (storeServices_lookup c file _ ∅ s (res_names _ _ _ _ Hres) Hs) in Hn.
  inversion Hn as [? s' Hup|]; subst. by exists s'.
Qed.

(** X10: an imported service is resolved as a service of the importing
    configuration: it gets the shared environment of the importer appended
    and the file of the importer as its configuration file; the
    environment and the file path of the configuration it was imported
    from are not looked at. *)
Theorem import_takes_importer_env (h : Host) (c second c' : Config) (s : ServiceConfig) :
  initMaps h (importConfig second c).1 = Some (c', None) →
  s ∈ allServices second → sc_MatchesPlatform s = true →
  ∃ s', ServiceMap c' !! sc_Name s = Some s' ∧
    sc_Env s' = sc_Env s ++ Env c ∧
    Abs h (FilePath c) = inl (sc_ConfigFile s').
Proof.
  intros Hrun Hs Hm.
  apply initMaps_resolved_full in Hrun as (file & sm & gm & -> & Hres & Hok & _).
  set (c2 := (importConfig second c).1) in *.
  assert (s ∈ allServices c2) as Hs2.
  { unfold c2, allServices. simpl. rewrite !elem_of_app.
    unfold allServices in Hs. apply elem_of_app in Hs. naive_solver. }
  destruct (resolved_service_stored c2 file sm gm s Hres) as (s' & Hs' & Hup).
  { by apply list_elem_of_filter. }
  exists s'. split; [done|].
  assert (Abs h (FilePath c) = inl file) as Habs.
  { apply Hok. intros Hnil. rewrite Hnil in Hs2. inversion Hs2. }
  destruct Hup as [->|[p ->]]; by rewrite Habs.
Qed.

(** X11: an identifier that a kept service of the importer and a kept
    service of the imported configuration both bring makes the resolution
    of the importer fail with the error of duplicates. *)
Theorem import_duplicate (h : Host) (c second : Config) (file : string)
    (s1 s2 : ServiceConfig) (x : string) :
  Abs h (FilePath c) = inl file →
  s1 ∈ matching (allServices c) → s2 ∈ matching (allServices second) →
  x ∈ serviceIds s1 → x ∈ serviceIds s2 →
  ∃ ids, ids ≠ [] ∧
    initMaps h (importConfig second c).1 =
      Some ((importConfig second c).1, Some (ErrDuplicate ids)).
Proof.
  intros Habs Hs1 Hs2 Hx1 Hx2. set (c2 := (importConfig second c).1).
  assert (absOk h c2 file) as Hok by (intros _; exact Habs).
  pose proof (initMaps_spec h c2 file Hok) as Hspec.
  destruct (firstCollision ∅ (claimedIds c2)) as [hit|] eqn:Hfc.
  - exists (sortStrings hit). split; [|done]. intros Hnil.
    apply sortStrings_nil_inv in Hnil as ->.
    clear Hspec. revert Hfc. generalize (∅ : gset string).
    induction (claimedIds c2) as [|d defs IH]; intros inUse; simpl; [done|].
    destruct (filter _ d); [apply IH|done].
  - exfalso. apply (proj1 (no_collision_iff _) Hfc x).
    assert (matching (allServices c2) =
            matching (allServices c) ++ matching (allServices second)) as Hm.
    { unfold c2, allServices, matching. simpl. by rewrite !filter_app, <- !app_assoc,
        (app_assoc (filter _ (ImportedServices c))). }
    apply list_elem_of_split in Hs2 as (l1 & l2 & Hsplit).
    exists ((serviceIds <$> matching (allServices c)) ++ (serviceIds <$> l1)),
      (serviceIds s2), ((serviceIds <$> l2) ++ (groupIds <$> allGroups c2)).
    split; [|split; [done|]].
    + unfold claimedIds. by rewrite Hm, Hsplit, !fmap_app, fmap_cons, <- !app_assoc.
    + rewrite concat_app. apply elem_of_app. left. apply elem_of_concat.
      exists (serviceIds s1). split; [by apply list_elem_of_fmap_2|done].
Qed.

(** *** The paths of the stored services *)

(** The service with [combinePath] applied [k] times to its path, if it
    has one. *)
Definition combined (h : Host) (c : Config) (k : nat) (s : ServiceConfig) : ServiceConfig :=
  match sc_Path s with
  | Some p => setPath (Nat.iter k (combinePath h c) p) s
  | None => s
  end.

Lemma combined_0 (h : Host) (c : Config) (s : ServiceConfig) : combined h c 0 s = s.
Proof. unfold combined. by destruct s as [? ? ? [p|] ? ? ?]. Qed.

Lemma combined_add (h : Host) (c : Config) (j k : nat) (s : ServiceConfig) :
  combined h c k (combined h c j s) = combined h c (k + j) s.
Proof.
  unfold combined. destruct s as [? ? ? [p|] ? ? ?]; simpl; [|done].
  unfold setPath. simpl. by rewrite Nat.iter_add.
Qed.

Lemma combined_path (h : Host) (c : Config) (k : nat) (s : ServiceConfig) :
  sc_Path (combined h c k s) = Nat.iter k (combinePath h c) <$> sc_Path s.
Proof. unfold combined. by destruct (sc_Path s) eqn:Hp; [|rewrite Hp]. Qed.

(** The loop over the children of a group combines the path of a stored
    service once for each time it meets its name. *)
Lemma firstPassChildren_paths (h : Host) (c : Config) (skipped : gset string)
    (names : list string) (sv : gmap string ServiceConfig)
    (cs : list ptr) (orph : gset string) (n : string) :
  (firstPassChildren h c skipped names sv cs orph).1.1 !! n =
  combined h c (occurrences n names) <$> sv !! n.
Proof.
  revert sv cs orph. induction names as [|name names IH]; intros sv cs orph; simpl.
  - change (occurrences n []) with 0. destruct (sv !! n) as [s|]; [|done].
    simpl. by rewrite combined_0.
  - rewrite occurrences_cons. destruct (sv !! name) as [s|] eqn:Hs.
    + rewrite IH. destruct (decide (name = n)) as [->|Hne].
      * rewrite Hs. simpl.
        assert (match sc_Path s with
                | Some p => <[n:=setPath (combinePath h c p) s]> sv
                | None => sv
                end !! n = Some (combined h c 1 s)) as ->.
        { unfold combined. destruct (sc_Path s) as [p|]; simpl;
            [by rewrite lookup_insert_eq|done]. }
        simpl. rewrite combined_add. f_equal. f_equal. lia.
      * simpl. destruct (sc_Path s); [|done]. by rewrite lookup_insert_ne.
    + assert (∀ o, (firstPassChildren h c skipped names sv cs o).1.1 !! n =
                   combined h c ((if decide (name = n) then 1 else 0) + occurrences n names)
                     <$> sv !! n) as Hrest.
      { intros o. rewrite IH. destruct (decide (name = n)) as [->|Hne]; [|done].
        by rewrite Hs. }
      destruct (decide (name ∈ skipped)); apply Hrest.
Qed.

Lemma firstPass_paths (h : Host) (c : Config) (skipped : gset string)
    (gs : list GroupDef) (st st' : grpState) (n : string) :
  firstPass h c skipped gs st = Ok st' →
  g_svcs st' !! n = combined h c (occurrences n (childNames gs)) <$> g_svcs st !! n.
Proof.
  unfold firstPass. revert st. induction gs as [|g gs IH]; intros st; simpl.
  - intros [= <-]. change (occurrences n (childNames [])) with 0.
    destruct (g_svcs st !! n); [|done]. simpl. by rewrite combined_0.
  - unfold firstPassGroup at 1.
    pose proof (firstPassChildren_paths h c skipped (gd_Children g) (g_svcs st) []
                  (orphanNames st) n) as Hg.
    destruct (firstPassChildren h c skipped (gd_Children g) (g_svcs st) [] (orphanNames st))
      as [[sv childServices] orphans].
    simpl in Hg. destruct (intersect _ _); [|done].
    intros Hrest. rewrite (IH _ Hrest). simpl. rewrite Hg.
    rewrite childNames_cons, occurrences_app.
    destruct (g_svcs st !! n) as [s|]; [|done]. simpl. by rewrite combined_add, Nat.add_comm.
Qed.

(** The service map of a successful resolution is the one the first pass
    over the groups leaves. *)
Lemma initMaps_first_pass (h : Host) (c c' : Config) :
  initMaps h c = Some (c', None) →
  ∃ st1 st2,
    servicesLoop h c (allServices c) (mkSvcState ∅ ∅ ∅) = Ok st1 ∧
    firstPass h c (servicesSkipped st1) (allGroups c)
      (mkGrpState (svcs st1) ∅ ∅ (namesInUse st1)) = Ok st2 ∧
    ServiceMap c' = g_svcs st2.
Proof.
  unfold initMaps, initMapsWith.
  destruct (servicesLoop h c _ _) as [st1|e] eqn:H1; [|done].
  destruct (firstPass h c _ _ _) as [st2|e] eqn:H2; [|done].
  destruct (secondPass _ _ _ _) as [[[gm orphans]|e]|]; [|done..].
  destruct (decide _); [done|]. intros [= <-]. by exists st1, st2.
Qed.

Lemma stored_paths (h : Host) (c c' : Config) (s : ServiceConfig) :
  initMaps h c = Some (c', None) →
  s ∈ allServices c → sc_MatchesPlatform s = true →
  ∃ s', ServiceMap c' !! sc_Name s = Some s' ∧
    sc_Path s' =
      Nat.iter (occurrences (sc_Name s) (childNames (allGroups c))) (combinePath h c)
        <$> sc_Path s.
Proof.
  intros Hrun Hs Hm.
  destruct (initMaps_first_pass h c c' Hrun) as (st1 & st2 & H1 & H2 & ->).
  apply initMaps_resolved_full in Hrun as (file & sm & gm & _ & Hres & Hok & Hfc & _).
  rewrite (servicesLoop_spec_ok h c file _ _ Hok) in H1. simpl in H1.
  unfold claimedIds in Hfc. rewrite firstCollision_app in Hfc.
  destruct (firstCollision ∅ (serviceIds <$> matching (allServices c))); [done|].
  injection H1 as <-. simpl in H2.
  rewrite (firstPass_paths h c _ _ _ _ (sc_Name s) H2). simpl.
  rewrite (storeServices_lookup c file _ ∅ s (res_names _ _ _ _ Hres)
             (proj2 (list_elem_of_filter _ _ _) (conj Hm Hs))).
  simpl. eexists. split; [done|]. by rewrite combined_path.
Qed.

(** X12: resolution combines the path of a kept service with the working
    directory once for each time a group lists the service as a child: the
    stored path is [combinePath] applied that many times to the path
    declared.  A service that no group lists keeps the path it declared. *)
Theorem initMaps_paths (h : Host) (c c' : Config) (s : ServiceConfig) :
  initMaps h c = Some (c', None) →
  s ∈ allServices c → sc_MatchesPlatform s = true →
  ∃ s', ServiceMap c' !! sc_Name s = Some s' ∧
    sc_Path s' =
      Nat.iter (occurrences (sc_Name s) (childNames (allGroups c))) (combinePath h c)
        <$> sc_Path s ∧
    (sc_Name s ∉ childNames (allGroups c) → sc_Path s' = sc_Path s).
Proof.
  intros Hrun Hs Hm. destruct (stored_paths h c c' s Hrun Hs Hm) as (s' & Hs' & Hp).
  exists s'. split; [done|]. split; [done|]. intros Hnot. rewrite Hp.
  assert (occurrences (sc_Name s) (childNames (allGroups c)) = 0) as ->.
  { pose proof (occurrences_pos (sc_Name s) (childNames (allGroups c))) as Hpos.
    destruct (occurrences _ _); [done|]. destruct Hnot. apply Hpos. lia. }
  by destruct (sc_Path s).
Qed.

(** X13: when joining a path to the working directory always gives an
    absolute path, as it does for an absolute working directory, a kept
    service that some group lists is stored with its declared path
    combined with the working directory once, however often it is
    listed. *)
Theorem initMaps_paths_absolute (h : Host) (c c' : Config) (s : ServiceConfig) :
  (∀ p, IsAbs h (PathJoin h (workingDir c) p) = true) →
  initMaps h c = Some (c', None) →
  s ∈ allServices c → sc_MatchesPlatform s = true →
  sc_Name s ∈ childNames (allGroups c) →
  ∃ s', ServiceMap c' !! sc_Name s = Some s' ∧
    sc_Path s' = combinePath h c <$> sc_Path s.
Proof.
  intros Habs Hrun Hs Hm Hin. destruct (stored_paths h c c' s Hrun Hs Hm) as (s' & Hs' & Hp).
  exists s'. split; [done|]. rewrite Hp.
  apply occurrences_pos in Hin.
  destruct (occurrences (sc_Name s) (childNames (allGroups c))) as [|k]; [lia|].
  destruct (sc_Path s) as [p|]; [|done]. simpl. f_equal.
  assert (∀ q, combinePath h c (combinePath h c q) = combinePath h c q) as Hidem.
  { intros q. unfold combinePath.
    destruct (IsAbs h q || HasPrefix q "$") eqn:Hq; [by rewrite Hq|].
    by rewrite Habs. }
  clear Hp Hin. induction k as [|k IH]; [done|]. simpl in *. by rewrite Hidem.
Qed.

(** *** The operations at work *)

Ltac distinct :=
  repeat (apply NoDup_cons_2;
          [let H := fresh in
           intros H; repeat (apply elem_of_cons in H as [H|H]; [discriminate|]);
           by apply elem_of_nil in H|]);
  apply NoDup_nil_2.

(** The configuration a resolution leaves. *)
Definition resolve (c : Config) : Config :=
  match initMaps hostEx c with
  | Some (c', None) => c'
  | _ => c
  end.

Definition svcAt (name path : string) : ServiceConfig :=
  mkServiceConfig name [] "" (Some path) [] "" true.

(** A service that two groups list and one that none lists, under a
    relative working directory. *)
Definition cfgShared : Config :=
  mkConfig "conf" [] [] []
    [grp "front" [] ["api"]; grp "all" [] ["api"; "front"]]
    [svcAt "api" "src/api"; svcAt "cron" "src/cron"] ∅ ∅ "edward.json".

(** The same under an absolute working directory. *)
Definition cfgSharedAbs : Config :=
  mkConfig "/srv" [] [] []
    [grp "front" [] ["api"]; grp "all" [] ["api"; "front"]]
    [svcAt "api" "src/api"; svcAt "cron" "src/cron"] ∅ ∅ "edward.json".

Definition webEnv : ServiceConfig := svc "web" [] ["PORT=8080"; "HOME=/srv"] true.
Definition dbEnv : ServiceConfig := svc "db" [] ["HOME=/srv"; "PGDATA=/var"] true.

Lemma hostEx_range_ok : range_ok hostEx.
Proof. intros m. reflexivity. Qed.

Lemma stringSliceIntersect_counts_witness :
  NoDup (stringSliceIntersect hostEx [["A=1"; "A=1"]; ["B=2"]]) ∧
  ∀ v, v ∈ stringSliceIntersect hostEx [["A=1"; "A=1"]; ["B=2"]] ↔
       v ∈ concat [["A=1"; "A=1"]; ["B=2"]] ∧
       occurrences v (concat [["A=1"; "A=1"]; ["B=2"]]) = 2.
Proof.
  apply (stringSliceIntersect_counts hostEx [["A=1"; "A=1"]; ["B=2"]]).
  exact hostEx_range_ok.
Defined.

Lemma stringSliceIntersect_common_witness :
  "HOME=/srv" ∈ stringSliceIntersect hostEx [sc_Env webEnv; sc_Env dbEnv] ↔
  [sc_Env webEnv; sc_Env dbEnv] ≠ [] ∧
  ∀ s, s ∈ [sc_Env webEnv; sc_Env dbEnv] → "HOME=/srv" ∈ s.
Proof.
  apply (stringSliceIntersect_common hostEx [sc_Env webEnv; sc_Env dbEnv] "HOME=/srv").
  - exact hostEx_range_ok.
  - constructor; [simpl; distinct|]. constructor; [simpl; distinct|]. constructor.
Defined.

Lemma NewConfig_env_restored_witness :
  ∃ s', ServiceMap (resolve (NewConfig hostEx [webEnv; dbEnv] [])) !! "web" = Some s' ∧
    sc_Env s' ≡ₚ ["PORT=8080"; "HOME=/srv"].
Proof.
  apply (NewConfig_env_restored hostEx [webEnv; dbEnv] []
           (resolve (NewConfig hostEx [webEnv; dbEnv] [])) webEnv).
  - exact hostEx_range_ok.
  - constructor; [simpl; distinct|]. constructor; [simpl; distinct|]. constructor.
  - vm_compute. reflexivity.
  - left.
  - reflexivity.
Defined.

Lemma AddGroups_round_trip_witness :
  ∃ sg, GroupMap (resolve cfgShared) !! "all" = Some sg ∧
    groupDefOf sg = mkGroupDef "all" [] "" ["front"; "api"] [] ∧
    gd_Children (groupDefOf sg) ≡ₚ ["api"; "front"].
Proof.
  destruct (AddGroups_round_trip hostEx cfgShared (resolve cfgShared)
              (grp "all" [] ["api"; "front"])) as (sg & Hsg & Hdef & Hperm).
  - vm_compute. reflexivity.
  - right. left.
  - exists sg. split; [exact Hsg|]. split; [|apply Hperm; reflexivity].
    rewrite Hdef. vm_compute. reflexivity.
Defined.


Lemma RemoveGroup_after_AddGroups_witness :
  RemoveGroup "all" (AddGroups [mkServiceGroupConfig "all" [] "" ["api"] [] [] ["api"]]
                       (EmptyConfig ".")).1 =
    ((AddGroups [mkServiceGroupConfig "all" [] "" ["api"] [] [] ["api"]]
        (EmptyConfig ".")).1, Some "Group not found") ∧
  mkGroupDef "all" [] "" ["api"] [] ∈
    Groups (AddGroups [mkServiceGroupConfig "all" [] "" ["api"] [] [] ["api"]]
              (EmptyConfig ".")).1.
Proof.
  apply (RemoveGroup_after_AddGroups
           (mkServiceGroupConfig "all" [] "" ["api"] [] [] ["api"]) (EmptyConfig ".")).
  reflexivity.
Defined.

Lemma RemoveGroup_leaves_orphan_witness :
  (RemoveGroup "front" (resolve cfgShared)).2 = None ∧
  ∃ keys,
    initMaps hostEx (RemoveGroup "front" (resolve cfgShared)).1 =
      Some ((RemoveGroup "front" (resolve cfgShared)).1, Some (ErrOrphans keys)) ∧
    "front" ∈ keys.
Proof.
  apply (RemoveGroup_leaves_orphan hostEx cfgShared (resolve cfgShared) "front"
           (grp "all" [] ["api"; "front"])).
  - exact hostEx_range_ok.
  - vm_compute. reflexivity.
  - left.
  - intros H. inversion H.
  - right. left.
  - discriminate.
  - right. left.
Defined.

(** An importer and an imported configuration, each with its own shared
    environment. *)
Definition cfgRoot : Config :=
  mkConfig "." [] [] ["STAGE=dev"] [] [svc "web" [] [] true] ∅ ∅ "edward.json".

Definition cfgImported : Config :=
  mkConfig "lib" [] [] ["STAGE=prod"] [] [svc "db" [] ["PGDATA=/var"] true] ∅ ∅
    "lib/edward.json".

Lemma import_takes_importer_env_witness :
  ∃ s', ServiceMap (resolve (importConfig cfgImported cfgRoot).1) !! "db" = Some s' ∧
    sc_Env s' = ["PGDATA=/var"; "STAGE=dev"] ∧
    Abs hostEx "edward.json" = inl (sc_ConfigFile s').
Proof.
  apply (import_takes_importer_env hostEx cfgRoot cfgImported
           (resolve (importConfig cfgImported cfgRoot).1) (svc "db" [] ["PGDATA=/var"] true)).
  - vm_compute. reflexivity.
  - left.
  - reflexivity.
Defined.

Lemma import_duplicate_witness :
  ∃ ids, ids ≠ [] ∧
    initMaps hostEx (importConfig cfgRoot cfgRoot).1 =
      Some ((importConfig cfgRoot cfgRoot).1, Some (ErrDuplicate ids)).
Proof.
  apply (import_duplicate hostEx cfgRoot cfgRoot "/etc/edward/edward.json"
           (svc "web" [] [] true) (svc "web" [] [] true) "web").
  - reflexivity.
  - left.
  - left.
  - left.
  - left.
Defined.

Lemma initMaps_paths_witness :
  ∃ s', ServiceMap (resolve cfgShared) !! "api" = Some s' ∧
    sc_Path s' = Some "conf/conf/src/api" ∧
    ("api" ∉ childNames (allGroups cfgShared) → sc_Path s' = Some "src/api").
Proof.
  apply (initMaps_paths hostEx cfgShared (resolve cfgShared) (svcAt "api" "src/api")).
  - vm_compute. reflexivity.
  - left.
  - reflexivity.
Defined.

Lemma initMaps_paths_absolute_witness :
  ∃ s', ServiceMap (resolve cfgSharedAbs) !! "api" = Some s' ∧
    sc_Path s' = Some "/srv/src/api".
Proof.
  apply (initMaps_paths_absolute hostEx cfgSharedAbs (resolve cfgSharedAbs)
           (svcAt "api" "src/api")).
  - intros p. apply Clean_rooted. reflexivity.
  - vm_compute. reflexivity.
  - left.
  - reflexivity.
  - left.
Defined.

End ConfigOpsFacts.

(** ** Building a service, and starting it *)

Module BuilderFacts.
Import Builder.

Section facts.
Context {W B : Type} (sys : Sys W) (bs : BuildSys W B).

(** X14: [Build] returns nil at the first excluded service: the services
    given after it are not built, excluded or not. *)
Theorem Build_stops_at_excluded (b : builder) (dirConfig : EdwardConfiguration)
    (task : option Task) (before after : list ServiceConfig) (s : ServiceConfig)
    (st : State W) :
  IsExcluded sys (Cfg b) s = true →
  Build sys bs b dirConfig task (before ++ s :: after) st =
  Build sys bs b dirConfig task before st.
Proof.
  intros Hex. revert st. induction before as [|s0 before IH]; intros st; simpl.
  - by rewrite Hex.
  - destruct (IsExcluded sys (Cfg b) s0); [done|]. destruct task as [t|]; [|done].
    destruct (BuildWithTracker sys bs b dirConfig _ s0 false st) as [st1 [[e|]|]]; [done| |done].
    apply IH.
Qed.

(** The states [BuildWithTracker] may leave the job in, after it has set
    it in progress, and what it returns with each: what it reports after
    that, it reports to that job and no other task. *)
Inductive buildEnd (force : bool) (c : Instance) (job : Task) : list Update → ret → Prop :=
| end_running :
    force = false → Pid c ≠ 0%Z →
    buildEnd force c job [mkUpdate job TaskStateWarning ["Already running"]] (Returns None)
| end_error (err : string) :
    buildEnd force c job [] (Returns (Some err))
| end_failed (err : string) (output : list string) :
    buildEnd force c job [mkUpdate job TaskStateFailed [err; Join output newline]]
      (Returns (Some ("running build command: " +:+ err)))
| end_built :
    buildEnd force c job [mkUpdate job TaskStateSuccess []] (Returns None).


(** X16: an instance that has a pid is not built again unless forced:
    [BuildWithTracker] sets the job in progress, then to the warning
    "Already running", and returns nil; no status is deleted and no build
    is run. [Build] never forces. *)
Theorem BuildWithTracker_running (b : builder) (dirConfig : EdwardConfiguration)
    (task : Task) (service : ServiceConfig) (st : State W) (c : Instance) :
  HasBuildStep bs service = true →
  Load sys dirConfig service (b_Overrides b) (world st) = inl c →
  Pid c ≠ 0%Z →
  BuildWithTracker sys bs b dirConfig (Some task) service false st =
    (mkState (world st)
       (updates st ++
        [mkUpdate (Child task "Build") TaskStateInProgress [];
         mkUpdate (Child task "Build") TaskStateWarning ["Already running"]]),
     Returns None).
Proof.
  intros Hstep Hload Hpid. unfold BuildWithTracker. rewrite Hstep. simpl. rewrite Hload.
  apply Z.eqb_neq in Hpid. rewrite Hpid. simpl. unfold SetState. simpl.
  by rewrite <- app_assoc.
Qed.

(** X17: [Launch] of a service that is not excluded and whose instance has
    a pid hands the pool a start that sets the task [Start] in progress,
    then to the warning "Already running", and returns nil, whatever the
    state it is run in: that start deletes no status, launches and saves
    nothing. *)
Theorem Launch_running {P : Type} (Enqueue : Work (W := W) → P → P * option string)
    (dirConfig : EdwardConfiguration) (c : ServiceConfig) (cfg : OperationConfig)
    (overrides : ContextOverride) (task : Task) (pool : P) (st : State W)
    (instance : Instance) :
  IsExcluded sys cfg c = false →
  HasLaunchStep sys c = true →
  Load sys dirConfig c overrides (world st) = inl instance →
  Service instance = Some c →
  Pid instance ≠ 0%Z →
  ∃ work : Work,
    Launch sys Enqueue dirConfig c cfg overrides task pool st =
      (st, (Enqueue work pool).1, (Enqueue work pool).2) ∧
    ∀ st1, work st1 =
      (mkState (world st1)
         (updates st1 ++
          [mkUpdate (Child (Child task (GetName sys c)) "Start") TaskStateInProgress [];
           mkUpdate (Child (Child task (GetName sys c)) "Start") TaskStateWarning
             ["Already running"]]),
       Returns None).
Proof.
  intros Hex Hls Hload Hs Hpid. unfold Launch. rewrite Hex, Hload.
  exists (λ st, let '(st, _, r) := StartAsync sys cfg task instance st in (st, r)).
  split; [by destruct (Enqueue _ pool)|].
  intros st1. unfold StartAsync. rewrite Hs, Hex, Hls. simpl.
  apply Z.eqb_neq in Hpid. rewrite Hpid. simpl. unfold SetState. simpl.
  by rewrite <- app_assoc.
Qed.

End facts.



(** *** The builder at work *)

(** A builder whose every build succeeds. *)
Definition bsEx : BuildSys (gmap string Z) unit :=
  mkBuildSys (gmap string Z) unit (λ s, true) (λ cfg s, inl tt)
    (λ b dir c w, (w, ["compiling"], None)).

Lemma Build_stops_at_excluded_witness :
  Build InstanceFacts.sysOk bsEx (New (InstanceFacts.cfgOp ["db"]) (mkContextOverride []))
    InstanceFacts.dirEx (Some []) ([InstanceFacts.web] ++ RestartFacts.db :: [RestartFacts.cache])
    (mkState ∅ []) =
  Build InstanceFacts.sysOk bsEx (New (InstanceFacts.cfgOp ["db"]) (mkContextOverride []))
    InstanceFacts.dirEx (Some []) [InstanceFacts.web] (mkState ∅ []).
Proof.
  apply (Build_stops_at_excluded InstanceFacts.sysOk bsEx
           (New (InstanceFacts.cfgOp ["db"]) (mkContextOverride [])) InstanceFacts.dirEx
           (Some []) [InstanceFacts.web] [RestartFacts.cache] RestartFacts.db (mkState ∅ [])).
  reflexivity.
Defined.


Lemma BuildWithTracker_running_witness :
  BuildWithTracker InstanceFacts.sysOk bsEx
    (New (InstanceFacts.cfgOp []) (mkContextOverride [])) InstanceFacts.dirEx
    (Some ["web"]) InstanceFacts.web false (mkState {["web" := 77%Z]} []) =
  (mkState {["web" := 77%Z]}
     [mkUpdate ["web"; "Build"] TaskStateInProgress [];
      mkUpdate ["web"; "Build"] TaskStateWarning ["Already running"]],
   Returns None).
Proof.
  assert (Pid (InstanceFacts.webInstance 77) ≠ 0%Z) as Hpid by discriminate.
  exact (BuildWithTracker_running InstanceFacts.sysOk bsEx
           (New (InstanceFacts.cfgOp []) (mkContextOverride [])) InstanceFacts.dirEx
           ["web"] InstanceFacts.web (mkState {["web" := 77%Z]} [])
           (InstanceFacts.webInstance 77) eq_refl eq_refl Hpid).
Defined.

Lemma Launch_running_witness :
  ∃ work : Work (W := gmap string Z),
    Launch InstanceFacts.sysOk (λ _ (n : nat), (S n, None)) InstanceFacts.dirEx
      InstanceFacts.web (InstanceFacts.cfgOp []) (mkContextOverride []) [] 0%nat
      (mkState {["web" := 77%Z]} []) =
      (mkState {["web" := 77%Z]} [], 1%nat, None) ∧
    ∀ st1 : State (gmap string Z), work st1 =
      (mkState (world st1)
         (updates st1 ++
          [mkUpdate ["web"; "Start"] TaskStateInProgress [];
           mkUpdate ["web"; "Start"] TaskStateWarning ["Already running"]]),
       Returns None).
Proof.
  assert (Pid (InstanceFacts.webInstance 77) ≠ 0%Z) as Hpid by discriminate.
  exact (Launch_running InstanceFacts.sysOk (λ _ (n : nat), (S n, None))
           InstanceFacts.dirEx InstanceFacts.web (InstanceFacts.cfgOp [])
           (mkContextOverride []) [] 0%nat (mkState {["web" := 77%Z]} [])
           (InstanceFacts.webInstance 77) eq_refl eq_refl eq_refl eq_refl Hpid).
Defined.

End BuilderFacts.

Module EdwardFacts.
Import Edward RestartFacts.

Section facts.
Context {W : Type} (sys : Sys W).

(** The state of the service loads, and without a pid. *)
Definition stopped (dirConfig : EdwardConfiguration) (w : W) (s : ServiceConfig) : Prop :=
  ∃ i, Load sys dirConfig s (mkContextOverride []) w = inl i ∧ Pid i = 0%Z.

(** X18: [checkAllRunning] tells whether any of the services runs, not
    whether all do: it returns false exactly when the state of every
    service loads without a pid, and true exactly when the first service
    whose state is not that loads with a pid; the services after that one
    are not looked at. *)
Theorem checkAllRunning_any (Services : list ServiceOrGroup → list ServiceConfig)
    (dirConfig : EdwardConfiguration) (sgs : list ServiceOrGroup) (w : W) :
  (checkAllRunning sys Services dirConfig sgs w = inl false ↔
   Forall (stopped dirConfig w) (Services sgs)) ∧
  (checkAllRunning sys Services dirConfig sgs w = inl true ↔
   ∃ before s after i,
     Services sgs = before ++ s :: after ∧ Forall (stopped dirConfig w) before ∧
     Load sys dirConfig s (mkContextOverride []) w = inl i ∧ Pid i ≠ 0%Z).
Proof.
  unfold checkAllRunning. induction (Services sgs) as [|s l [IH1 IH2]]; simpl.
  { split; [split; [constructor|done]|]. split; [done|].
    intros (before & s & after & i & Heq & _). by destruct before. }
  unfold HasRunning. destruct (Load sys dirConfig s _ w) as [i|e] eqn:Hload.
  - destruct (Pid i =? 0)%Z eqn:Hpid.
    + apply Z.eqb_eq in Hpid.
      assert (stopped dirConfig w s) as Hs by (by exists i).
      split.
      * rewrite IH1, Forall_cons. tauto.
      * rewrite IH2. split.
        -- intros (before & s' & after & i' & -> & Hb & Hs' & Hp).
           exists (s :: before), s', after, i'. repeat split; try done. by constructor.
        -- intros (before & s' & after & i' & Heq & Hb & Hs' & Hp).
           destruct before as [|s0 before]; simplify_eq/=; [congruence|].
           apply Forall_cons in Hb as [_ Hb]. by exists before, s', after, i'.
    + apply Z.eqb_neq in Hpid. split.
      * split; [done|]. intros Hall. apply Forall_cons in Hall as [(i' & Hi' & Hp) _].
        congruence.
      * split; [|done]. intros _. by exists [], s, l, i.
  - split.
    + split; [done|]. intros Hall. apply Forall_cons in Hall as [(i' & Hi' & _) _].
      congruence.
    + split; [done|]. intros (before & s' & after & i' & Heq & Hb & Hs' & Hp).
      destruct before as [|s0 before]; simplify_eq/=; [congruence|].
      apply Forall_cons in Hb as [(i0 & Hi0 & _) _]. congruence.
Qed.

Context (co : Collaborators W).

(** In the calls of a restart that none has failed in, the start of a
    service comes after its stop, and after its build unless builds are
    skipped. *)
Lemma restartCalls_start (skipBuild : bool) (names : list string) (l1 l2 : list Op)
    (n : string) :
  restartCalls skipBuild names = l1 ++ OpStart n :: l2 →
  OpStop n ∈ l1 ∧ (skipBuild = false → OpBuild n ∈ l1).
Proof.
  revert l1. induction names as [|m names IH]; intros l1 Heq.
  - by destruct l1.
  - rewrite restartCalls_cons in Heq. unfold serviceCalls in Heq.
    destruct skipBuild; simpl in Heq.
    + destruct l1 as [|a l1]; [done|]. injection Heq as <- Heq.
      destruct l1 as [|b l1].
      * injection Heq as <- _. split; [left|done].
      * injection Heq as <- Heq. destruct (IH l1 Heq) as [IH1 IH2].
        split; [by do 2 right|done].
    + destruct l1 as [|a l1]; [done|]. injection Heq as <- Heq.
      destruct l1 as [|b l1]; [done|]. injection Heq as <- Heq.
      destruct l1 as [|d l1].
      * injection Heq as <- _. split; [left|]. intros _. right. left.
      * injection Heq as <- Heq. destruct (IH l1 Heq) as [IH1 IH2].
        split; [by do 3 right|]. intros _. do 3 right. by apply IH2.
Qed.

Lemma restartCalls_build (names : list string) (n : string) :
  OpBuild n ∉ restartCalls true names.
Proof.
  induction names as [|m names IH]; [by intros ?%elem_of_nil|].
  rewrite restartCalls_cons. simpl. intros Hin.
  repeat (apply elem_of_cons in Hin as [Hin|Hin]; [discriminate|]). done.
Qed.

(** X19: in what [restartOneOrMoreServices] does to the services named, a
    service is started only after it has been stopped and, unless builds
    are skipped, built; and when builds are skipped, nothing is built. *)
Theorem restart_stops_before_start (c : Client) (ss : list ServiceConfig)
    (skipBuild noWatch : bool) (exclude : list string) (st : RState W) :
  lookup_ok co c → sequential co →
  Forall (λ s, serviceMap c !! sc_Name s = Some s) ss →
  ∃ made,
    calls (restartOneOrMoreServices sys co c (sc_Name <$> ss) skipBuild noWatch exclude st).1
      = calls st ++ made ∧
    (∀ l1 l2 n, made = l1 ++ OpStart n :: l2 →
                OpStop n ∈ l1 ∧ (skipBuild = false → OpBuild n ∈ l1)) ∧
    (skipBuild = true → ∀ n, OpBuild n ∉ made).
Proof.
  intros Hlookup Hseq Hss.
  destruct (restartOneOrMoreServices sys co c _ skipBuild noWatch exclude st)
    as [st' r] eqn:Hrun.
  destruct (restartOneOrMoreServices_calls sys co c ss skipBuild noWatch exclude st st' r
              Hlookup Hseq Hss Hrun) as (made & Hcalls & [k Hpre] & _).
  exists made. split; [done|]. split.
  - intros l1 l2 n ->. apply (restartCalls_start skipBuild (sc_Name <$> ss) l1 (l2 ++ k) n).
    by rewrite Hpre, <- app_assoc.
  - intros -> n Hin. apply (restartCalls_build (sc_Name <$> ss) n).
    rewrite Hpre. apply elem_of_app. by left.
Qed.


End facts.

(** *** The commands at work *)

Lemma clientEx_named :
  Forall (λ s, serviceMap clientEx !! sc_Name s = Some s) [InstanceFacts.web; db].
Proof. constructor; [reflexivity|]. constructor; [reflexivity|]. constructor. Qed.

Lemma restart_stops_before_start_witness :
  ∃ made,
    calls (restartOneOrMoreServices InstanceFacts.sysOk coEx clientEx
             (sc_Name <$> [InstanceFacts.web; db]) true false [] (mkRState worldEx [])).1
      = [] ++ made ∧
    (∀ l1 l2 n, made = l1 ++ OpStart n :: l2 →
                OpStop n ∈ l1 ∧ (true = false → OpBuild n ∈ l1)) ∧
    (true = true → ∀ n, OpBuild n ∉ made).
Proof.
  apply (restart_stops_before_start InstanceFacts.sysOk coEx clientEx
           [InstanceFacts.web; db] true false [] (mkRState worldEx [])).
  - exact (coEx_lookup_ok clientEx).
  - exact coEx_sequential.
  - exact clientEx_named.
Defined.


End EdwardFacts.

Module StartFacts.
Import Instance.

Section facts.
Context {W : Type} (sys : Sys W).

(** [StartAsync] gets as far as starting the process: the command [cmd]
    is run with the environment of the process, then that of the
    overrides, then that of the service, and has the pid [pid]; [w] is the
    world then. *)
Definition launched (cfg : OperationConfig) (i : Instance) (st : State W)
    (service : ServiceConfig) (pid : Z) (cmd : Cmd) (w : W) : Prop :=
  Service i = Some service ∧
  IsExcluded sys cfg service = false ∧
  HasLaunchStep sys service = true ∧
  Pid i = 0%Z ∧
  ∃ w1 cmd0,
    DeleteAllStatusesForService sys service (StateDir (dirConfig i)) (world st) = (w1, None) ∧
    let w2 := osRemove sys (GetRunLog sys service (LogDir (dirConfig i))) w1 in
    getLaunchCommand sys i cfg w2 = inl cmd0 ∧
    cmd = mkCmd (cmd_Args cmd0)
            ((osEnviron sys w2 ++ o_Env (Overrides i)) ++ sc_Env service) ∧
    cmdStart sys cmd w2 = (w, inl pid).

Lemma StartAsync_launched (cfg : OperationConfig) (task : Task) (i : Instance)
    (st : State W) (service : ServiceConfig) (pid : Z) (cmd : Cmd) (w : W) :
  launched cfg i st service pid cmd w →
  let startTask := Child (Child task (GetName sys service)) "Start" in
  let st1 := mkState w (updates st ++ [mkUpdate startTask TaskStateInProgress []]) in
  StartAsync sys cfg task i st =
  match save sys (setPid pid i) w with
  | (w, Some err) =>
      (SetState startTask TaskStateFailed [] (setWorld w st1), setPid pid i,
       Returns (Some err))
  | (w, None) =>
      match WaitUntilRunning sys (dirConfig i) cmd service w with
      | (w, None) =>
          (warmupRun sys service task
             (SetState startTask TaskStateSuccess [] (setWorld w st1)),
           setPid pid i, Returns None)
      | (w, Some err) =>
          startFailed sys cfg task startTask service err (setPid pid i) (setWorld w st1)
      end
  end.
Proof.
  intros (Hs & Hex & Hls & Hpid & w1 & cmd0 & Hdel & Hcmd & -> & Hstart).
  unfold StartAsync. rewrite Hs, Hex, Hls, Hpid. simpl. rewrite Hdel.
  unfold launch. simpl. rewrite Hcmd. simpl. rewrite Hstart.
  destruct (save sys (setPid pid i) w) as [w4 [e|]]; [done|].
  by destruct (WaitUntilRunning sys _ _ service w4) as [w5 [e|]].
Qed.

(** X21: when the process has been started and its pid cannot be saved,
    [StartAsync] sets the task [Start] to failed with no message and
    returns the error of the save; the instance keeps the pid of the
    process, and nothing is done to stop it: [StopSync] is not called. *)
Theorem StartAsync_save_fails (cfg : OperationConfig) (task : Task) (i : Instance)
    (st : State W) (service : ServiceConfig) (pid : Z) (cmd : Cmd) (w w' : W)
    (err : string) :
  launched cfg i st service pid cmd w →
  save sys (setPid pid i) w = (w', Some err) →
  StartAsync sys cfg task i st =
    (mkState w'
       (updates st ++
        [mkUpdate (Child (Child task (GetName sys service)) "Start") TaskStateInProgress [];
         mkUpdate (Child (Child task (GetName sys service)) "Start") TaskStateFailed []]),
     setPid pid i, Returns (Some err)).
Proof.
  intros Hl Hsave. rewrite (StartAsync_launched _ _ _ _ _ _ _ _ Hl). rewrite Hsave.
  unfold SetState. simpl. by rewrite <- app_assoc.
Qed.

(** X22: when the process has been started, its pid saved and the service
    has become ready, [StartAsync] returns nil with the pid of the process
    in the instance; the task [Start] has been set in progress and then to
    success, and the warmup has been run after that. *)
Theorem StartAsync_started (cfg : OperationConfig) (task : Task) (i : Instance)
    (st : State W) (service : ServiceConfig) (pid : Z) (cmd : Cmd) (w w' w'' : W) :
  launched cfg i st service pid cmd w →
  save sys (setPid pid i) w = (w', None) →
  WaitUntilRunning sys (dirConfig i) cmd service w' = (w'', None) →
  StartAsync sys cfg task i st =
    (warmupRun sys service task
       (mkState w''
          (updates st ++
           [mkUpdate (Child (Child task (GetName sys service)) "Start")
              TaskStateInProgress [];
            mkUpdate (Child (Child task (GetName sys service)) "Start")
              TaskStateSuccess []])),
     setPid pid i, Returns None).
Proof.
  intros Hl Hsave Hwait. rewrite (StartAsync_launched _ _ _ _ _ _ _ _ Hl).
  rewrite Hsave, Hwait. unfold SetState. simpl. by rewrite <- app_assoc.
Qed.

(** X23: [LoadRunningServices] returns an error only when the state
    directory cannot be listed or a file of it, no directory, cannot be
    read; the error is the one of that call. *)
Theorem load_running_error (stateDir : string) (w : W) (err : string) :
  LoadRunningServices sys stateDir w = LoadError err →
  ReadDir sys stateDir w = inr err ∨
  ∃ files file, ReadDir sys stateDir w = inl files ∧ file ∈ files ∧
    fi_IsDir file = false ∧
    ReadFile sys (pathJoin sys stateDir (fi_Name file)) w = inr err.
Proof. apply InstanceFacts.LoadRunningServices_error. Qed.

End facts.

(** A system in which no pid can be saved. *)
Definition sysNoSave : Sys (gmap string Z) :=
  mkSys (gmap string Z)
    (IsExcluded InstanceFacts.sysOk) (HasLaunchStep InstanceFacts.sysOk)
    (GetName InstanceFacts.sysOk) (GetRunLog InstanceFacts.sysOk)
    (Load InstanceFacts.sysOk) (DeleteAllStatusesForService InstanceFacts.sysOk)
    (osRemove InstanceFacts.sysOk) (osEnviron InstanceFacts.sysOk)
    (getLaunchCommand InstanceFacts.sysOk) (cmdStart InstanceFacts.sysOk)
    (λ i w, (w, Some "disk full"))
    (WaitUntilRunning InstanceFacts.sysOk) (logToStringSlice InstanceFacts.sysOk)
    (warmupRun InstanceFacts.sysOk) (clearState InstanceFacts.sysOk)
    (ReadDir InstanceFacts.sysOk) (ReadFile InstanceFacts.sysOk)
    (pathJoin InstanceFacts.sysOk) (Unmarshal InstanceFacts.sysOk)
    (backendStop InstanceFacts.sysOk).

Definition cmdEx : Cmd := mkCmd ["run"] ["PATH=/bin"; "PORT=80"].

Lemma launched_web :
  launched InstanceFacts.sysOk (InstanceFacts.cfgOp []) (InstanceFacts.webInstance 0)
    (mkState ∅ []) InstanceFacts.web 4242 cmdEx ∅.
Proof. repeat (split; [done|]). by exists ∅, (mkCmd ["run"] []). Qed.

Lemma launched_web_no_save :
  launched sysNoSave (InstanceFacts.cfgOp []) (InstanceFacts.webInstance 0)
    (mkState ∅ []) InstanceFacts.web 4242 cmdEx ∅.
Proof. repeat (split; [done|]). by exists ∅, (mkCmd ["run"] []). Qed.

Lemma StartAsync_save_fails_witness :
  StartAsync sysNoSave (InstanceFacts.cfgOp []) [] (InstanceFacts.webInstance 0)
    (mkState ∅ []) =
  (mkState ∅
     [mkUpdate ["web"; "Start"] TaskStateInProgress [];
      mkUpdate ["web"; "Start"] TaskStateFailed []],
   InstanceFacts.webInstance 4242, Returns (Some "disk full")).
Proof.
  exact (StartAsync_save_fails sysNoSave (InstanceFacts.cfgOp []) []
           (InstanceFacts.webInstance 0) (mkState ∅ []) InstanceFacts.web 4242 cmdEx ∅ ∅
           "disk full"
           launched_web_no_save eq_refl).
Defined.

Lemma StartAsync_started_witness :
  StartAsync InstanceFacts.sysOk (InstanceFacts.cfgOp []) [] (InstanceFacts.webInstance 0)
    (mkState ∅ []) =
  (mkState {["web" := 4242%Z]}
     [mkUpdate ["web"; "Start"] TaskStateInProgress [];
      mkUpdate ["web"; "Start"] TaskStateSuccess []],
   InstanceFacts.webInstance 4242, Returns None).
Proof.
  exact (StartAsync_started InstanceFacts.sysOk (InstanceFacts.cfgOp []) []
           (InstanceFacts.webInstance 0) (mkState ∅ []) InstanceFacts.web 4242 cmdEx ∅
           {["web" := 4242%Z]} {["web" := 4242%Z]}
           launched_web eq_refl eq_refl).
Defined.

Lemma load_running_error_witness :
  ReadDir InstanceFacts.sysCut "/other" ∅ = inr "no such file" ∨
  ∃ files file, ReadDir InstanceFacts.sysCut "/other" ∅ = inl files ∧ file ∈ files ∧
    fi_IsDir file = false ∧
    ReadFile InstanceFacts.sysCut
      (pathJoin InstanceFacts.sysCut "/other" (fi_Name file)) ∅ = inr "no such file".
Proof.
  apply (load_running_error InstanceFacts.sysCut "/other" ∅ "no such file").
  reflexivity.
Defined.

End StartFacts.

(** ** What the follower writes *)

Module OutputFacts.
Import Output.

(** The updates handled one after the other. *)
Definition handleAll (f : Follower) (updates : list Update) : Follower :=
  foldl (λ f update, Handle update f) f updates.

Definition lineageOf (e : Written) : string :=
  match e with
  | WroteCompletion update | WroteProgress update => lineageAsString update
  end.

(** The lineages of the completions written. *)
Definition completions (l : list Written) : list string :=
  omap (λ e, match e with
             | WroteCompletion update => Some (lineageAsString update)
             | WroteProgress _ => None
             end) l.

(** What a follower that has a writer writes for the updates, [seen]
    being the lineages rendered complete before. *)
Fixpoint events (seen : gset string) (updates : list Update) : list Written :=
  match updates with
  | [] => []
  | update :: rest =>
      if decide (lineageAsString update ∈ seen) then events seen rest
      else if finished update then
        WroteCompletion update :: WroteProgress update ::
          events ({[lineageAsString update]} ∪ seen) rest
      else WroteProgress update :: events seen rest
  end.

Fixpoint seenAfter (seen : gset string) (updates : list Update) : gset string :=
  match updates with
  | [] => seen
  | update :: rest =>
      if decide (lineageAsString update ∈ seen) then seenAfter seen rest
      else if finished update then seenAfter ({[lineageAsString update]} ∪ seen) rest
      else seenAfter seen rest
  end.

Lemma handleAll_events (f : Follower) (updates : list Update) :
  writer f = true →
  handleAll f updates =
  mkFollower true (seenAfter (complete f) updates)
    (written f ++ events (complete f) updates).
Proof.
  unfold handleAll. revert f. induction updates as [|u rest IH]; intros [wr seen out] Hw;
    simpl in *; subst wr.
  - by rewrite app_nil_r.
  - unfold Handle at 2. simpl. rewrite orb_false_r.
    destruct (decide (lineageAsString u ∈ seen)) as [Hin|Hin].
    + rewrite bool_decide_eq_true_2 by done. by apply IH.
    + rewrite bool_decide_eq_false_2 by done.
      destruct (finished u); rewrite IH by done; simpl; by rewrite <- !app_assoc.
Qed.

Lemma events_fresh (seen : gset string) (updates : list Update) (e : Written) :
  e ∈ events seen updates → lineageOf e ∉ seen.
Proof.
  revert seen. induction updates as [|u rest IH]; intros seen; simpl; [by intros ?%elem_of_nil|].
  destruct (decide (lineageAsString u ∈ seen)) as [Hin|Hin]; [apply IH|].
  destruct (finished u).
  - intros He. apply elem_of_cons in He as [->|He]; [done|].
    apply elem_of_cons in He as [->|He]; [done|]. apply IH in He. set_solver.
  - intros He. apply elem_of_cons in He as [->|He]; [done|]. by apply IH.
Qed.

Lemma elem_of_completions (l : list Written) (n : string) :
  n ∈ completions l ↔ ∃ update, WroteCompletion update ∈ l ∧ lineageAsString update = n.
Proof.
  unfold completions. rewrite list_elem_of_omap. split.
  - intros ([u|u] & He & Hn); [|done]. exists u. split; [done|]. by simplify_eq.
  - intros (u & He & <-). by exists (WroteCompletion u).
Qed.

Lemma events_completions (seen : gset string) (updates : list Update) :
  NoDup (completions (events seen updates)) ∧
  seenAfter seen updates = seen ∪ list_to_set (completions (events seen updates)) ∧
  ∀ update, update ∈ updates → finished update = true →
            lineageAsString update ∈ seenAfter seen updates.
Proof.
  revert seen. induction updates as [|u rest IH]; intros seen; simpl.
  - split; [constructor|]. split; [set_solver|]. intros u Hu. by apply elem_of_nil in Hu.
  - destruct (decide (lineageAsString u ∈ seen)) as [Hin|Hin].
    + destruct (IH seen) as (H1 & H2 & H3). split; [done|]. split; [done|].
      intros v Hv Hf. apply elem_of_cons in Hv as [->|Hv]; [|by apply H3].
      rewrite H2. set_solver.
    + destruct (finished u) eqn:Hfin.
      * destruct (IH ({[lineageAsString u]} ∪ seen)) as (H1 & H2 & H3).
        split; [|split].
        -- simpl. constructor; [|done]. intros Hc.
           apply elem_of_completions in Hc as (v & Hv & Hn).
           apply events_fresh in Hv. simpl in Hv. rewrite Hn in Hv. set_solver.
        -- rewrite H2. simpl. set_solver.
        -- intros v Hv Hf. apply elem_of_cons in Hv as [->|Hv]; [|by apply H3].
           rewrite H2. set_solver.
      * destruct (IH seen) as (H1 & H2 & H3). split; [done|]. split; [done|].
        intros v Hv Hf. apply elem_of_cons in Hv as [->|Hv]; [congruence|by apply H3].
Qed.

Lemma events_quiet (seen : gset string) (updates : list Update) (l1 l2 : list Written)
    (update : Update) :
  events seen updates = l1 ++ WroteCompletion update :: l2 →
  ∃ l2', l2 = WroteProgress update :: l2' ∧
    ∀ e, e ∈ l2' → lineageOf e ≠ lineageAsString update.
Proof.
  revert seen l1. induction updates as [|u rest IH]; intros seen l1; simpl.
  - by destruct l1.
  - destruct (decide (lineageAsString u ∈ seen)) as [Hin|Hin]; [apply IH|].
    destruct (finished u).
    + destruct l1 as [|a l1].
      * intros [= <- <-]. eexists. split; [done|]. intros e He Heq.
        apply events_fresh in He. rewrite Heq in He. set_solver.
      * intros [= <- Hrest]. destruct l1 as [|b l1]; [done|].
        injection Hrest as <- Hrest. by eapply IH.
    + destruct l1 as [|a l1]; [done|]. intros [= <- Hrest]. by eapply IH.
Qed.

(** X24: of the updates a new follower handles, the completion of a
    lineage is written once, however many updates of finished tasks of
    that lineage come; and it is written for every lineage of which one
    comes. *)
Theorem Follower_completes_once (updates : list Update) :
  let f := handleAll NewFollower updates in
  NoDup (completions (written f)) ∧
  complete f = list_to_set (completions (written f)) ∧
  ∀ update, update ∈ updates → finished update = true →
            lineageAsString update ∈ completions (written f).
Proof.
  intros f. unfold f. rewrite handleAll_events by done. simpl.
  destruct (events_completions ∅ updates) as (H1 & H2 & H3).
  split; [done|]. split; [rewrite H2; set_solver|].
  intros u Hu Hf. specialize (H3 u Hu Hf). rewrite H2 in H3. set_solver.
Qed.

(** X25: once a new follower has written the completion of an update, it
    writes that update among the tasks in progress, and then nothing more
    of that lineage, whatever updates follow. *)
Theorem Follower_quiet_after_completion (updates : list Update) (l1 l2 : list Written)
    (update : Update) :
  written (handleAll NewFollower updates) = l1 ++ WroteCompletion update :: l2 →
  ∃ l2', l2 = WroteProgress update :: l2' ∧
    ∀ e, e ∈ l2' → lineageOf e ≠ lineageAsString update.
Proof.
  rewrite handleAll_events by done. simpl. apply events_quiet.
Qed.

Definition startUpdate (state : TaskState) (messages : list string) : Update :=
  mkUpdate ["web"; "Start"] state messages.

Lemma Follower_quiet_after_completion_witness :
  ∃ l2', [WroteProgress (startUpdate TaskStateSuccess []);
          WroteProgress (mkUpdate ["db"; "Start"] TaskStateInProgress [])] =
         WroteProgress (startUpdate TaskStateSuccess []) :: l2' ∧
    ∀ e, e ∈ l2' → lineageOf e ≠ lineageAsString (startUpdate TaskStateSuccess []).
Proof.
  apply (Follower_quiet_after_completion
           [startUpdate TaskStateInProgress []; startUpdate TaskStateSuccess [];
            startUpdate TaskStateFailed ["late"];
            mkUpdate ["db"; "Start"] TaskStateInProgress []]
           [WroteProgress (startUpdate TaskStateInProgress [])]).
  vm_compute. reflexivity.
Defined.

End OutputFacts.

(** ** Loading a configuration file: the properties *)

Module LoaderFacts.
Import Loader.

Section unfolding.
Context {R V : Type} (h : Host) (fs : Files R V).

Lemma loadConfigContents_unfold (depth : nat) (reader : R) (workingDir : string) :
  loadConfigContents h fs (S depth) reader workingDir =
  match ReadFrom fs reader with
  | inr err => Some (zeroConfig, Some ("could not read config: " +:+ err))
  | inl data =>
      match Unmarshal fs data with
      | inr e => Some (zeroConfig, Some (parseError data e))
      | inl loaded =>
          match loadImports h fs depth (Imports loaded)
                  (setWorkingDir workingDir (config loaded)) with
          | None => None
          | Some (_, Some err) => Some (zeroConfig, Some err)
          | Some (c, None) => Some (setConfig c loaded, None)
          end
      end
  end.
Proof.
  simpl. destruct (ReadFrom fs reader) as [data|e]; [|done].
  destruct (Unmarshal fs data) as [loaded|e]; [|done].
  assert (∀ imports c,
    (fix loadImports (imports : list string) (c : Config) : option (Config * option string) :=
       match imports with
       | [] => Some (c, None)
       | i :: rest =>
           match Open fs (if IsAbs h i then i else PathJoin h (Config.workingDir c) i) with
           | inr err => Some (c, Some err)
           | inl r =>
               match loadConfigContents h fs depth r
                       (filepathDir fs
                          (if IsAbs h i then i else PathJoin h (Config.workingDir c) i)) with
               | None => None
               | Some (_, Some err) => Some (c, Some (i +:+ ": " +:+ err))
               | Some (cfg, None) => loadImports rest (importConfig (config cfg) c).1
               end
           end
       end) imports c = loadImports h fs depth imports c) as ->; [|done].
  induction imports as [|i rest IH]; intros c; [done|]. simpl.
  destruct (Open fs _) as [r|e]; [|done].
  destruct (loadConfigContents h fs depth r _) as [[cfg [e|]]|]; done.
Qed.

End unfolding.

Section facts.
Context {R V : Type} (h : Host) (fs : Files R V).

(** The path an import is opened under. *)
Definition importPath (c : Config) (i : string) : string :=
  if IsAbs h i then i else PathJoin h (workingDir c) i.

(** The import [i] of [c] loads, as [cfg]. *)
Definition imports (depth : nat) (c : Config) (i : string) (cfg : Loaded) : Prop :=
  ∃ r, Open fs (importPath c i) = inl r ∧
    loadConfigContents h fs depth r (filepathDir fs (importPath c i)) = Some (cfg, None).

Definition importAll (c : Config) (cfgs : list Loaded) : Config :=
  foldl (λ c cfg, (importConfig (config cfg) c).1) c cfgs.

Lemma importAll_fields (c : Config) (cfgs : list Loaded) :
  importAll c cfgs =
  mkConfig (workingDir c)
    (ImportedGroups c ++ concat ((λ cfg, allGroups (config cfg)) <$> cfgs))
    (ImportedServices c ++ concat ((λ cfg, allServices (config cfg)) <$> cfgs))
    (Env c) (Groups c) (Services c) (ServiceMap c) (GroupMap c) (FilePath c).
Proof.
  unfold importAll. revert c. induction cfgs as [|cfg cfgs IH]; intros c; simpl.
  - rewrite !app_nil_r. by destruct c.
  - rewrite IH. simpl. unfold allServices, allGroups, fmap. by rewrite <- !app_assoc.
Qed.

Lemma loadImports_loaded (depth : nat) (names : list string) (c : Config)
    (cfgs : list Loaded) :
  Forall2 (imports depth c) names cfgs →
  loadImports h fs depth names c = Some (importAll c cfgs, None).
Proof.
  intros Hall. revert c cfgs Hall. induction names as [|i names IH]; intros c cfgs Hall.
  - by apply Forall2_nil_inv_l in Hall as ->.
  - apply Forall2_cons_inv_l in Hall as (cfg & cfgs' & (r & Hopen & Hload) & Hrest & ->).
    simpl. fold (importPath c i). rewrite Hopen, Hload. apply IH.
    eapply Forall2_impl; [exact Hrest|]. intros i' cfg' Hi'. exact Hi'.
Qed.

(** X26: when every import of a configuration loads, [loadImports] takes
    the imports in the order they are listed: after the services the
    configuration had imported before come, import by import, the services
    of the imported file followed by those it imported itself, and
    likewise for the groups; a relative import is opened under the working
    directory of the importing configuration.  The services, the groups,
    the environment and the working directory of the importing
    configuration itself stay as they were. *)
Theorem loadImports_order (depth : nat) (names : list string) (c : Config)
    (cfgs : list Loaded) :
  Forall2 (imports depth c) names cfgs →
  ∃ c', loadImports h fs depth names c = Some (c', None) ∧
    allServices c' =
      allServices c ++ concat ((λ cfg, allServices (config cfg)) <$> cfgs) ∧
    allGroups c' = allGroups c ++ concat ((λ cfg, allGroups (config cfg)) <$> cfgs) ∧
    Services c' = Services c ∧ Groups c' = Groups c ∧ Env c' = Env c ∧
    workingDir c' = workingDir c.
Proof.
  intros Hall. exists (importAll c cfgs). split; [by apply loadImports_loaded|].
  rewrite importAll_fields. unfold allServices, allGroups. simpl.
  by rewrite !app_assoc.
Qed.

(** The import [i] of [c] fails, with the error [msg]: the file cannot be
    opened, and [msg] is the error of that; or the file opens and does not
    load, and [msg] is the error of that behind the import as listed. *)
Inductive importFails (depth : nat) (c : Config) (i : string) : string → Prop :=
| fails_open (err : string) :
    Open fs (importPath c i) = inr err → importFails depth c i err
| fails_load (r : R) (cfg : Loaded) (err : string) :
    Open fs (importPath c i) = inl r →
    loadConfigContents h fs depth r (filepathDir fs (importPath c i)) = Some (cfg, Some err) →
    importFails depth c i (i +:+ ": " +:+ err).

Lemma loadImports_first_failure (depth : nat) (before after : list string) (i : string)
    (c : Config) (cfgs : list Loaded) (msg : string) :
  Forall2 (imports depth c) before cfgs →
  importFails depth c i msg →
  loadImports h fs depth (before ++ i :: after) c = Some (importAll c cfgs, Some msg).
Proof.
  intros Hall Hfail.
  assert (∀ c0, workingDir c0 = workingDir c →
            loadImports h fs depth (i :: after) c0 = Some (c0, Some msg)) as Hhere.
  { intros c0 Hwd. simpl. fold (importPath c0 i).
    assert (importPath c0 i = importPath c i) as -> by (unfold importPath; by rewrite Hwd).
    destruct Hfail as [err Ho|r cfg err Ho Hl]; rewrite Ho; [done|]. by rewrite Hl. }
  clear Hfail. revert c cfgs Hall Hhere.
  induction before as [|j before IH]; intros c cfgs Hall Hhere.
  - apply Forall2_nil_inv_l in Hall as ->. by apply Hhere.
  - apply Forall2_cons_inv_l in Hall as (cfg & cfgs' & (r & Hopen & Hload) & Hrest & ->).
    simpl. fold (importPath c j). rewrite Hopen, Hload.
    apply (IH (importConfig (config cfg) c).1 cfgs').
    + eapply Forall2_impl; [exact Hrest|]. intros i' cfg' Hi'. exact Hi'.
    + intros c0 Hwd. by apply Hhere.
Qed.

(** X27: [LoadConfig] stops at the first import that fails, the imports
    before it having loaded, and returns the empty configuration with an
    error: the error of the opening as it is when the file of the import
    cannot be opened, and the error of its loading behind the import as
    listed and a colon when it opens and does not load. *)
Theorem LoadConfig_import_fails (depth : nat) (filePath edwardVersion data : string)
    (reader : R) (loaded : Loaded) (before after : list string) (i : string)
    (cfgs : list Loaded) (msg : string) :
  Open fs filePath = inl reader →
  ReadFrom fs reader = inl data →
  Unmarshal fs data = inl loaded →
  Imports loaded = before ++ i :: after →
  Forall2 (imports depth (setWorkingDir (pathDir fs filePath) (config loaded))) before cfgs →
  importFails depth (setWorkingDir (pathDir fs filePath) (config loaded)) i msg →
  LoadConfig h fs (S depth) filePath edwardVersion = Some (zeroConfig, Some msg).
Proof.
  intros Hopen Hread Hparse Himports Hbefore Hfail. unfold LoadConfig. rewrite Hopen.
  rewrite loadConfigContents_unfold, Hread, Hparse, Himports.
  by rewrite (loadImports_first_failure depth before after i _ cfgs msg Hbefore Hfail).
Qed.

(** X28: when the configuration asks for a minimal version and a version
    of edward is given, [LoadConfig] parses the two.  If one of them does
    not parse, it returns the empty configuration and no error; if they
    parse and the version given is less than the minimal one, it returns
    the empty configuration and the error "this config requires at least
    version " with the minimal version as written. *)
Theorem LoadConfig_version (depth : nat) (filePath edwardVersion : string)
    (reader : R) (loaded : Loaded) :
  Open fs filePath = inl reader →
  loadConfigContents h fs depth reader (pathDir fs filePath) = Some (loaded, None) →
  MinEdwardVersion loaded ≠ "" → edwardVersion ≠ "" →
  (NewVersion fs (MinEdwardVersion loaded) = None ∨ NewVersion fs edwardVersion = None →
   LoadConfig h fs depth filePath edwardVersion = Some (zeroConfig, None)) ∧
  (∀ minVersion currentVersion,
     NewVersion fs (MinEdwardVersion loaded) = Some minVersion →
     NewVersion fs edwardVersion = Some currentVersion →
     LessThan fs currentVersion minVersion = true →
     LoadConfig h fs depth filePath edwardVersion =
       Some (zeroConfig,
             Some ("this config requires at least version " +:+ MinEdwardVersion loaded))).
Proof.
  intros Hopen Hload Hmin Hcur. unfold LoadConfig. rewrite Hopen, Hload. simpl.
  apply String.eqb_neq in Hmin, Hcur. rewrite Hmin, Hcur. simpl. split.
  - intros [->| ->]; [done|]. by destruct (NewVersion fs (MinEdwardVersion loaded)).
  - by intros mv cv -> -> ->.
Qed.

(** *** Where a syntax error is reported *)

Lemma lastIndexFrom_app (i found : Z) (s t : list ascii) :
  lastIndexFrom i (s ++ t) found =
  lastIndexFrom (i + Z.of_nat (length s)) t (lastIndexFrom i s found).
Proof.
  revert i found. induction s as [|a s IH]; intros i found; simpl.
  - by rewrite Z.add_0_r.
  - rewrite IH. f_equal. lia.
Qed.

Lemma lastIndexFrom_none (i found : Z) (s : list ascii) :
  Forall (λ a, a ≠ newlineByte) s → lastIndexFrom i s found = found.
Proof.
  intros Hs. revert i. induction Hs as [|a s Ha _ IH]; intros i; simpl; [done|].
  apply Ascii.eqb_neq in Ha. rewrite Ha. apply IH.
Qed.

Lemma LastIndex_lines (pre line : list ascii) :
  Forall (λ a, a ≠ newlineByte) line →
  pre = [] ∨ (∃ pre', pre = pre' ++ [newlineByte]) →
  LastIndex (pre ++ line) = (Z.of_nat (length pre) - 1)%Z.
Proof.
  intros Hline [->|[pre' ->]]; unfold LastIndex.
  - simpl. by rewrite lastIndexFrom_none.
  - rewrite !lastIndexFrom_app, lastIndexFrom_none by done. simpl.
    rewrite length_app. simpl. lia.
Qed.

(** X29: the place [loadConfigContents] reports for a syntax error.  When
    the data before the offset of the error is a number of whole lines
    followed by a part of a line, the line reported is one more than the
    number of newlines of the whole lines, and the character is one less
    than the length of the part. *)
Theorem position_line (data : string) (Offset : Z) (pre line : list ascii) :
  (0 ≤ Offset ≤ Z.of_nat (length (String.list_ascii_of_string data)))%Z →
  take (Z.to_nat Offset) (String.list_ascii_of_string data) = pre ++ line →
  Forall (λ a, a ≠ newlineByte) line →
  pre = [] ∨ (∃ pre', pre = pre' ++ [newlineByte]) →
  position data Offset = ((Count pre + 1)%Z, (Z.of_nat (length line) - 1)%Z).
Proof.
  intros Hoff Htake Hline Hpre. unfold position.
  set (bytes := String.list_ascii_of_string data) in *.
  rewrite Htake, (LastIndex_lines pre line Hline Hpre).
  replace (Z.of_nat (length pre) - 1 + 1)%Z with (Z.of_nat (length pre)) by lia.
  rewrite Nat2Z.id.
  assert (length (pre ++ line) = Z.to_nat Offset) as Hlen.
  { rewrite <- Htake, length_take. lia. }
  assert (take (length pre) bytes = pre) as ->.
  { rewrite <- (take_drop (Z.to_nat Offset) bytes), Htake, <- app_assoc.
    by rewrite take_app_length. }
  rewrite length_app in Hlen. f_equal. lia.
Qed.

End facts.

(** *** Loading at work *)

Definition rootFile : Loaded :=
  mkLoaded (mkConfig "" [] [] ["STAGE=dev"] [] [ConfigFacts.svc "web" [] [] true] ∅ ∅ "")
    "" "" ["lib/edward.json"; "missing.json"].

(** A file that asks for a version that is none. *)
Definition plainFile : Loaded :=
  mkLoaded (mkConfig "" [] [] [] [] [ConfigFacts.svc "web" [] [] true] ∅ ∅ "")
    "" "v-next" [].

Definition libFile : Loaded :=
  mkLoaded (mkConfig "" [] [] [] [] [ConfigFacts.svc "db" [] [] true] ∅ ∅ "") "" "" [].

Definition badFile : Loaded :=
  mkLoaded (mkConfig "" [] [] [] [] [] ∅ ∅ "") "" "" ["broken.json"].

(** Files that hold what they are named: four that parse, one that does
    not; the directory of a file is what [path.Dir] and [filepath.Dir]
    make of its name; versions are numbers. *)
Definition fsEx : Files string nat :=
  mkFiles string nat
    (λ p, if bool_decide (p ∈ ["edward.json"; "plain.json"; "lib/edward.json"; "bad.json";
                               "broken.json"])
          then inl p else inr ("open " +:+ p +:+ ": no such file or directory"))
    inl
    (λ data, if String.eqb data "edward.json" then inl rootFile
             else if String.eqb data "plain.json" then inl plainFile
             else if String.eqb data "lib/edward.json" then inl libFile
             else if String.eqb data "bad.json" then inl badFile
             else inr (OtherError "unexpected end of JSON input"))
    ConfigFacts.Dir ConfigFacts.Dir
    (λ v, if String.eqb v "1.9.0" then Some 9
          else if String.eqb v "1.8.0" then Some 8 else None)
    Nat.ltb.

Lemma loadImports_order_witness :
  ∃ c', loadImports ConfigFacts.hostEx fsEx 1 ["lib/edward.json"]
          (setWorkingDir "." (config rootFile)) = Some (c', None) ∧
    allServices c' =
      allServices (setWorkingDir "." (config rootFile)) ++
      concat ((λ cfg, allServices (config cfg)) <$> [setConfig (setWorkingDir "lib" (config libFile)) libFile]) ∧
    allGroups c' =
      allGroups (setWorkingDir "." (config rootFile)) ++
      concat ((λ cfg, allGroups (config cfg)) <$> [setConfig (setWorkingDir "lib" (config libFile)) libFile]) ∧
    Services c' = Services (setWorkingDir "." (config rootFile)) ∧
    Groups c' = Groups (setWorkingDir "." (config rootFile)) ∧
    Env c' = Env (setWorkingDir "." (config rootFile)) ∧
    workingDir c' = workingDir (setWorkingDir "." (config rootFile)).
Proof.
  apply (loadImports_order ConfigFacts.hostEx fsEx 1 ["lib/edward.json"]
           (setWorkingDir "." (config rootFile))
           [setConfig (setWorkingDir "lib" (config libFile)) libFile]).
  constructor; [|constructor]. exists "lib/edward.json". split; reflexivity.
Defined.

Lemma LoadConfig_import_fails_witness :
  LoadConfig ConfigFacts.hostEx fsEx 2 "edward.json" "" =
    Some (zeroConfig, Some "open missing.json: no such file or directory").
Proof.
  apply (LoadConfig_import_fails ConfigFacts.hostEx fsEx 1 "edward.json" "" "edward.json"
           "edward.json" rootFile ["lib/edward.json"] [] "missing.json"
           [setConfig (setWorkingDir "lib" (config libFile)) libFile]).
  - reflexivity.
  - reflexivity.
  - reflexivity.
  - reflexivity.
  - constructor; [|constructor]. exists "lib/edward.json". split; reflexivity.
  - apply fails_open. reflexivity.
Defined.

Lemma LoadConfig_version_witness :
  LoadConfig ConfigFacts.hostEx fsEx 2 "plain.json" "1.9.0" = Some (zeroConfig, None).
Proof.
  apply (LoadConfig_version ConfigFacts.hostEx fsEx 2 "plain.json" "1.9.0" "plain.json"
           (setConfig (setWorkingDir "." (config plainFile)) plainFile)).
  - reflexivity.
  - reflexivity.
  - discriminate.
  - discriminate.
  - left. reflexivity.
Defined.


(** A list that closes a line too late: the second comma of the line after
    the first newline is where the syntax error is. *)
Definition listEx : string :=
  "[" +:+ String newlineByte ("  1,," +:+ String newlineByte "]").

Lemma position_line_witness : position listEx 7 = (2%Z, 4%Z).
Proof.
  apply (position_line listEx 7 (String.list_ascii_of_string "[" ++ [newlineByte])
           (String.list_ascii_of_string "  1,,")).
  - vm_compute. split; discriminate.
  - reflexivity.
  - repeat constructor; discriminate.
  - right. exists (String.list_ascii_of_string "["). reflexivity.
Defined.

End LoaderFacts.
